(** * FHE challenge scenario of RD-Agent: patcher, runner and judge

    A shallow embedding of
    - [rdagent/scenarios/fhe_challenge/developer.py] (FHECoder: the
      brace-matching patcher),
    - [rdagent/scenarios/fhe_challenge/runner.py] (FHERunner: the Docker
      runner and its accuracy parsers),
    - [rdagent/scenarios/fhe_challenge/evaluator.py] (FHEEvaluator: the
      judge),
    - [rdagent/scenarios/fhe_challenge/scen.py] (FHEScenario: the type of
      the challenge and the member names),
    - [rdagent/scenarios/fhe_challenge/proposal.py] (FHEExpGen: the
      history text),
    - [rdagent/log/ui/fhe_trace.py] (the body shown by the dashboard),
    together with the properties the specification states about them and
    further properties of the code.

    Conventions.  A Python [str] is a [text], the list of its code points;
    code points range over Latin-1 (one [ascii] each), and the character
    classes of [re] and [str] are the ones CPython has on that range.  A
    Python [float] is a binary64 primitive float.  A Python call that may
    raise returns a [result]. *)

From Stdlib Require Import ZArith List String Ascii Bool Lia Floats.
From Stdlib Require Import DecimalString.
Import ListNotations.

Local Open Scope list_scope.
Local Open Scope bool_scope.

(** ** Python values *)

Module Py.

Definition text := list ascii.

Definition T (s : string) : text := list_ascii_of_string s.

(** Exceptions the modelled code raises, with the message where the code
    gives one.  JSONDecodeError is a subclass of ValueError: [except
    ValueError] catches both, [except JSONDecodeError] only the one. *)
Inductive exn :=
| ValueError (msg : text)
| TypeError
| AttributeError
| OverflowError
| ZeroDivisionError
| RecursionError
| JSONDecodeError (msg : text)
| CoderError (msg : text).

Inductive result (A : Type) :=
| Ok (a : A)
| Raise (e : exn).
Arguments Ok {A} a.
Arguments Raise {A} e.

Definition bind {A B} (r : result A) (k : A -> result B) : result B :=
  match r with
  | Ok a => k a
  | Raise e => Raise e
  end.

Notation "'do' x <- r ; k" := (bind r (fun x => k))
  (at level 10, x name, r at level 100, k at level 200).

(** *** Characters *)

Definition code (c : ascii) : N := N_of_ascii c.

Definition between (lo hi : N) (c : ascii) : bool :=
  (lo <=? code c)%N && (code c <=? hi)%N.

(** [str.isspace] on one character, also the class [\s] of [re]. *)
Definition is_space (c : ascii) : bool :=
  between 9 13 c || between 28 32 c || (code c =? 133)%N || (code c =? 160)%N.

(** The class [[0-9]], also [\d] on this range. *)
Definition is_digit (c : ascii) : bool := between 48 57 c.

(** The class [\w]: alphanumeric characters and the underscore. *)
Definition is_word (c : ascii) : bool :=
  is_digit c || between 65 90 c || between 97 122 c || (code c =? 95)%N
  || (code c =? 170)%N || (code c =? 178)%N || (code c =? 179)%N
  || (code c =? 181)%N || (code c =? 185)%N || (code c =? 186)%N
  || between 188 190 c || between 192 214 c || between 216 246 c
  || between 248 255 c.

Definition is_char (a : ascii) (c : ascii) : bool := Ascii.eqb c a.

Definition any_char (_ : ascii) : bool := true.

(** [str.lower] on one character. *)
Definition lower_char (c : ascii) : ascii :=
  if between 65 90 c || between 192 214 c || between 216 222 c
  then ascii_of_N (code c + 32)
  else c.

Definition lower (s : text) : text := map lower_char s.

(** *** Slices, strip, membership *)

Fixpoint take_while (p : ascii -> bool) (s : text) : text :=
  match s with
  | c :: s' => if p c then c :: take_while p s' else []
  | [] => []
  end.

Fixpoint drop_while (p : ascii -> bool) (s : text) : text :=
  match s with
  | c :: s' => if p c then drop_while p s' else s
  | [] => []
  end.

(** [s[:k]], for any integer [k]. *)
Definition slice_to (k : Z) (s : text) : text :=
  if (k <? 0)%Z then firstn (Z.to_nat (Z.of_nat (List.length s) + k)) s
  else firstn (Z.to_nat k) s.

(** [s[k:]], for any integer [k]. *)
Definition slice_from (k : Z) (s : text) : text :=
  if (k <? 0)%Z then skipn (Z.to_nat (Z.of_nat (List.length s) + k)) s
  else skipn (Z.to_nat k) s.

(** [s.strip()]. *)
Definition strip (s : text) : text :=
  rev (drop_while is_space (rev (drop_while is_space s))).

Fixpoint starts_with (kw s : text) : bool :=
  match kw, s with
  | [], _ => true
  | k :: kw', c :: s' => Ascii.eqb k c && starts_with kw' s'
  | _ :: _, [] => false
  end.

(** [kw in s]. *)
Fixpoint contains (kw s : text) : bool :=
  starts_with kw s ||
  match s with
  | [] => false
  | _ :: s' => contains kw s'
  end.

(** [a] lies inside [b]: what [a in b] decides. *)
Definition infix (a b : text) : Prop := exists l r, b = l ++ a ++ r.

(** [sep.join(parts)]. *)
Fixpoint join (sep : text) (parts : list text) : text :=
  match parts with
  | [] => []
  | [p] => p
  | p :: rest => p ++ sep ++ join sep rest
  end.

Fixpoint text_eqb (a b : text) : bool :=
  match a, b with
  | [], [] => true
  | x :: a', y :: b' => Ascii.eqb x y && text_eqb a' b'
  | _, _ => false
  end.

(** The line feed. *)
Definition nl : text := ["010"%char].

(** [str(n)] for an [int]. *)
Definition str_of_int (n : Z) : text :=
  T (NilZero.string_of_int (Z.to_int n)).

End Py.
Import Py.

(** ** Python numbers

    [float] is binary64; the conversions below round to nearest, ties to
    even, as CPython's do. *)

Module PyNum.

Local Open Scope Z_scope.

(** The binary64 value nearest to [n / d], for [n > 0]; infinite when the
    quotient is out of range. *)
Definition round_ratio (neg : bool) (n d : positive) : float :=
  SF2Prim (SFdiv prec emax (S754_finite neg n 0) (S754_finite false d 0)).

Definition signed_zero (neg : bool) : float :=
  if neg then PrimFloat.neg_zero else PrimFloat.zero.

Definition is_infinite (x : float) : bool :=
  match Prim2SF x with
  | S754_infinity _ => true
  | _ => false
  end.

(** [a / b] on two [int]s. *)
Definition int_truediv (a b : Z) : result float :=
  let neg := xorb (a <? 0) (b <? 0) in
  match Z.abs b, Z.abs a with
  | Z0, _ => Raise ZeroDivisionError
  | Zpos d, Zpos n =>
      let q := round_ratio neg n d in
      if is_infinite q then Raise OverflowError else Ok q
  | _, _ => Ok (signed_zero neg)
  end.

(** [float(n)] on an [int]. *)
Definition float_of_int (n : Z) : result float :=
  match n with
  | Z0 => Ok PrimFloat.zero
  | Zpos p =>
      let q := round_ratio false p 1 in
      if is_infinite q then Raise OverflowError else Ok q
  | Zneg p =>
      let q := round_ratio true p 1 in
      if is_infinite q then Raise OverflowError else Ok q
  end.

(** [x / n] for a [float] and an [int]. *)
Definition float_div_int (x : float) (n : Z) : result float :=
  do d <- float_of_int n;
  if PrimFloat.eqb d PrimFloat.zero then Raise ZeroDivisionError
  else Ok (PrimFloat.div x d).

(** [x <= n] for a [float] and an [int], compared exactly. *)
Definition float_le_int (x : float) (n : Z) : bool :=
  match Prim2SF x with
  | S754_nan => false
  | S754_infinity neg => neg
  | S754_zero _ => 0 <=? n
  | S754_finite neg m e =>
      let mz := if neg then Zneg m else Zpos m in
      if 0 <=? e then mz * 2 ^ e <=? n else mz <=? n * 2 ^ (- e)
  end.

(** *** [int(s)] and [float(s)] on a [str] *)

Definition digit_value (c : ascii) : Z := Z.of_N (code c) - 48.

Definition digits_value (ds : text) : Z :=
  fold_left (fun acc c => 10 * acc + digit_value c) ds 0.

(** What [int(s)] raises on a text of more than 4300 digits, the limit
    CPython sets on the conversion ([sys.int_info.default_max_str_digits]). *)
Definition exceeds_digit_limit (digits : nat) : exn :=
  ValueError
    (T "Exceeds the limit (4300 digits) for integer string conversion: value has "
     ++ str_of_int (Z.of_nat digits)
     ++ T " digits; use sys.set_int_max_str_digits() to increase the limit").

(** [int(s)] for a text of decimal digits, which is what the group "(\d+)"
    captures. *)
Definition int_of_digits (ds : text) : result Z :=
  if 4300 <? Z.of_nat (List.length ds)
  then Raise (exceeds_digit_limit (List.length ds))
  else Ok (digits_value ds).

(** The value [sign * digits * 10 ^ exp10]. *)
Definition decimal_value (neg : bool) (digits : text) (exp10 : Z) : float :=
  match digits_value digits with
  | Zpos n =>
      if 0 <=? exp10 then round_ratio neg (n * Z.to_pos (10 ^ exp10)) 1
      else round_ratio neg n (Z.to_pos (10 ^ (- exp10)))
  | _ => signed_zero neg
  end.

(** Underscores may only stand between two digits; they are removed. *)
Fixpoint drop_underscores (prev : ascii) (s : text) : option text :=
  match s with
  | [] => if Ascii.eqb prev "_" then None else Some []
  | c :: s' =>
      if Ascii.eqb c "_" then
        if is_digit prev then drop_underscores c s' else None
      else if Ascii.eqb prev "_" && negb (is_digit c) then None
      else option_map (cons c) (drop_underscores c s')
  end.

(** The white space [float] strips once the text is brought to ASCII:
    tab to carriage return, the space, and the two Latin-1 spaces. *)
Definition is_float_space (c : ascii) : bool :=
  between 9 13 c || (code c =? 32)%N || (code c =? 133)%N || (code c =? 160)%N.

Definition split_sign (s : text) : bool * text :=
  match s with
  | "-"%char :: s' => (true, s')
  | "+"%char :: s' => (false, s')
  | _ => (false, s)
  end.

(** The exponent part: "e" or "E", an optional sign, digits.  [None] when
    the text is not one. *)
Definition exponent_of (s : text) : option Z :=
  match s with
  | [] => Some 0
  | c :: s' =>
      if Ascii.eqb c "e" || Ascii.eqb c "E" then
        let '(neg, ds) := split_sign s' in
        match ds with
        | [] => None
        | _ :: _ =>
            if forallb is_digit ds
            then Some (if neg then - digits_value ds else digits_value ds)
            else None
        end
      else None
  end.

(** "inf", "infinity" and "nan", in any case. *)
Definition special_of (neg : bool) (s : text) : option float :=
  let l := lower s in
  if text_eqb l (T "inf") || text_eqb l (T "infinity")
  then Some (if neg then PrimFloat.neg_infinity else PrimFloat.infinity)
  else if text_eqb l (T "nan") then Some PrimFloat.nan
  else None.

(** [float(s)]: white space around, a sign, then "inf", "infinity", "nan"
    or digits with an optional point and an optional exponent.  Anything
    else raises ValueError. *)
Definition float_of_str (s : text) : result float :=
  let bad := Raise (ValueError (T "could not convert string to float")) in
  match drop_underscores "000" s with
  | None => bad
  | Some s1 =>
      let s2 := drop_while is_float_space s1 in
      let s3 := rev (drop_while is_float_space (rev s2)) in
      let '(neg, body) := split_sign s3 in
      match special_of neg body with
      | Some x => Ok x
      | None =>
          let int_part := take_while is_digit body in
          let after_int := drop_while is_digit body in
          let '(frac_part, after_frac) :=
            match after_int with
            | "."%char :: r => (take_while is_digit r, drop_while is_digit r)
            | _ => ([], after_int)
            end in
          match int_part ++ frac_part, exponent_of after_frac with
          | (_ :: _) as digits, Some e =>
              Ok (decimal_value neg digits (e - Z.of_nat (List.length frac_part)))
          | _, _ => bad
          end
      end
  end.

End PyNum.
Import PyNum.

(** ** The fragment of [re] the scenario uses

    Every pattern of the scenario is a sequence of single characters or
    classes, each taken once, greedily zero or more times ([*]) or greedily
    one or more times ([+]).  [exec] is the backtracking matcher of [re] on
    that fragment: a greedy repetition first takes as many characters as it
    can and gives them back one at a time while the rest of the pattern
    fails.  A match returns the text each item matched ([segs], from which a
    capture group is read) and the text left after the match. *)

Module Re.

Inductive item :=
| One (cls : ascii -> bool)
| Star (cls : ascii -> bool)
| Plus (cls : ascii -> bool).

Definition pattern := list item.

Definition item_class (it : item) : ascii -> bool :=
  match it with
  | One c | Star c | Plus c => c
  end.

Definition lits (s : string) : pattern :=
  map (fun a => One (is_char a)) (list_ascii_of_string s).

Definition matched := (list text * text)%type.

Definition seg (t : text) (r : option matched) : option matched :=
  match r with
  | Some (segs, rest) => Some (t :: segs, rest)
  | None => None
  end.

(** Greedy repetition with backtracking: [acc] is what the repetition has
    taken so far, [k] matches the rest of the pattern. *)
Fixpoint repeat_bt (cls : ascii -> bool) (k : text -> option matched)
    (acc s : text) : option matched :=
  match s with
  | c :: s' =>
      if cls c then
        match repeat_bt cls k (acc ++ [c]) s' with
        | Some m => Some m
        | None => seg acc (k s)
        end
      else seg acc (k s)
  | [] => seg acc (k s)
  end.

Fixpoint exec (p : pattern) (s : text) : option matched :=
  match p with
  | [] => Some ([], s)
  | One cls :: p' =>
      match s with
      | c :: s' => if cls c then seg [c] (exec p' s') else None
      | [] => None
      end
  | Star cls :: p' => repeat_bt cls (exec p') [] s
  | Plus cls :: p' =>
      match s with
      | c :: s' => if cls c then repeat_bt cls (exec p') [c] s' else None
      | [] => None
      end
  end.

(** A match object: where the match starts and ends, what the items
    matched, and the text after the match. *)
Record match_obj := {
  m_start : nat;
  m_end : nat;
  m_segs : list text;
  m_rest : text
}.

(** [re.search]: the match at the leftmost position that has one.  [i] is
    the position of [s] in the searched text. *)
Fixpoint search_from (p : pattern) (i : nat) (s : text) : option match_obj :=
  match exec p s with
  | Some (segs, rest) =>
      Some {| m_start := i; m_end := i + List.length (List.concat segs);
              m_segs := segs; m_rest := rest |}
  | None =>
      match s with
      | [] => None
      | _ :: s' => search_from p (S i) s'
      end
  end.

Definition search (p : pattern) (s : text) : option match_obj :=
  search_from p 0 s.

(** The text of the item at index [i] of the pattern. *)
Definition group_at (i : nat) (m : match_obj) : text := nth i (m_segs m) [].

(** *** The matcher without backtracking

    [run] takes every repetition to its end and never gives a character
    back.  It agrees with [exec] on the patterns of the scenario, in which
    no repetition is followed by something that could start with a
    character of its class ([deterministic]). *)

Fixpoint run (p : pattern) (s : text) : option matched :=
  match p with
  | [] => Some ([], s)
  | One cls :: p' =>
      match s with
      | c :: s' => if cls c then seg [c] (run p' s') else None
      | [] => None
      end
  | Star cls :: p' => seg (take_while cls s) (run p' (drop_while cls s))
  | Plus cls :: p' =>
      match s with
      | c :: s' =>
          if cls c then seg (c :: take_while cls s') (run p' (drop_while cls s'))
          else None
      | [] => None
      end
  end.

Definition all_chars : list ascii :=
  map ascii_of_nat (seq 0 256).

Definition disjoint (c1 c2 : ascii -> bool) : bool :=
  forallb (fun a => negb (c1 a && c2 a)) all_chars.

(** No match of [p] starts with a character of [cls]. *)
Fixpoint avoids (cls : ascii -> bool) (p : pattern) : bool :=
  match p with
  | [] => false
  | One c :: _ => disjoint cls c
  | Plus c :: _ => disjoint cls c
  | Star c :: p' => disjoint cls c && avoids cls p'
  end.

Fixpoint deterministic (p : pattern) : bool :=
  match p with
  | [] => true
  | One _ :: p' => deterministic p'
  | Star cls :: p' | Plus cls :: p' =>
      deterministic p' && match p' with [] => true | _ => avoids cls p' end
  end.

(** A pattern is anchored when every repetition is followed by something
    that takes at least one character: its match at a position does not
    depend on the text after the match. *)
Definition nullable (p : pattern) : bool :=
  forallb (fun it => match it with Star _ => true | _ => false end) p.

Fixpoint anchored (p : pattern) : bool :=
  match p with
  | [] => true
  | One _ :: p' => anchored p'
  | Star _ :: p' | Plus _ :: p' => anchored p' && negb (nullable p')
  end.

(** The language of a pattern, with no order among its matches. *)
Fixpoint lang (p : pattern) (m : text) : Prop :=
  match p with
  | [] => m = []
  | One cls :: p' => exists c m', m = c :: m' /\ cls c = true /\ lang p' m'
  | Star cls :: p' =>
      exists w m', m = w ++ m' /\ forallb cls w = true /\ lang p' m'
  | Plus cls :: p' =>
      exists c w m',
        m = c :: w ++ m' /\ cls c = true /\ forallb cls w = true /\ lang p' m'
  end.

(** The pattern occurs somewhere in the text. *)
Definition occurs (p : pattern) (s : text) : Prop :=
  exists pre m post, s = pre ++ m ++ post /\ lang p m.

(** The pattern occurs twice, one occurrence after the other. *)
Definition occurs_twice (p : pattern) (s : text) : Prop :=
  exists a m1 b m2 c,
    s = a ++ m1 ++ b ++ m2 ++ c /\ lang p m1 /\ lang p m2.

End Re.
Import Re.

(** ** The experiment: experiment.py *)

(** [FBWorkspace.file_dict]: file name to content, latest injection first. *)
Definition file_dict := list (text * text).

Fixpoint lookup (name : text) (d : file_dict) : option text :=
  match d with
  | [] => None
  | (k, v) :: d' => if text_eqb k name then Some v else lookup name d'
  end.

(** Modelled from the spec: [FBWorkspace.inject_files], of rdagent.core, is
    not among the sources; generated files are injected on top, later files
    winning on name collision. *)
Definition inject_files (name content : text) (d : file_dict) : file_dict :=
  (name, content) :: filter (fun kv => negb (text_eqb (fst kv) name)) d.

(** [FHEExperiment], with the fields [__init__] sets and the sub-tasks'
    algorithm plans. *)
Record FHEExperiment := {
  sub_tasks : list text;
  experiment_workspace : file_dict;
  docker_output : text;
  build_success : bool;
  run_success : bool;
  accuracy : option float;
  error_message : text
}.

(** [FHEExperiment.__init__]. *)
Definition new_experiment (tasks : list text) : FHEExperiment :=
  {| sub_tasks := tasks;
     experiment_workspace := [];
     docker_output := [];
     build_success := false;
     run_success := false;
     accuracy := None;
     error_message := [] |}.

Definition set_workspace (w : file_dict) (e : FHEExperiment) : FHEExperiment :=
  {| sub_tasks := sub_tasks e; experiment_workspace := w;
     docker_output := docker_output e; build_success := build_success e;
     run_success := run_success e; accuracy := accuracy e;
     error_message := error_message e |}.

Definition set_docker_output (o : text) (e : FHEExperiment) : FHEExperiment :=
  {| sub_tasks := sub_tasks e; experiment_workspace := experiment_workspace e;
     docker_output := o; build_success := build_success e;
     run_success := run_success e; accuracy := accuracy e;
     error_message := error_message e |}.

Definition set_build_success (b : bool) (e : FHEExperiment) : FHEExperiment :=
  {| sub_tasks := sub_tasks e; experiment_workspace := experiment_workspace e;
     docker_output := docker_output e; build_success := b;
     run_success := run_success e; accuracy := accuracy e;
     error_message := error_message e |}.

Definition set_run_success (b : bool) (e : FHEExperiment) : FHEExperiment :=
  {| sub_tasks := sub_tasks e; experiment_workspace := experiment_workspace e;
     docker_output := docker_output e; build_success := build_success e;
     run_success := b; accuracy := accuracy e;
     error_message := error_message e |}.

Definition set_accuracy (a : option float) (e : FHEExperiment) : FHEExperiment :=
  {| sub_tasks := sub_tasks e; experiment_workspace := experiment_workspace e;
     docker_output := docker_output e; build_success := build_success e;
     run_success := run_success e; accuracy := a;
     error_message := error_message e |}.

Definition set_error_message (m : text) (e : FHEExperiment) : FHEExperiment :=
  {| sub_tasks := sub_tasks e; experiment_workspace := experiment_workspace e;
     docker_output := docker_output e; build_success := build_success e;
     run_success := run_success e; accuracy := accuracy e;
     error_message := m |}.

(** What a call that works on an experiment leaves: the experiment as the
    call left it, returned or with the exception the call raised. *)
Inductive outcome :=
| Returns (exp : FHEExperiment)
| Raises (e : exn) (exp : FHEExperiment).

(** The scenario, as far as the developer and the runner read it. *)
Record FHEScenario := {
  challenge_type : text;
  challenge_name : text;
  template_files : file_dict
}.

(** What [json.loads] returns; [JNull] is None. *)
#[warnings="-register-all"]
Inductive json :=
| JNull
| JBool (b : bool)
| JInt (n : Z)
| JFloat (x : float)
| JStr (s : text)
| JArr (items : list json)
| JObj (fields : list (text * json)).

(** ** The answer of the language model: developer.py *)

Module FHECoderExtract.

Local Open Scope string_scope.
Local Open Scope list_scope.

(** The items of the fence patterns: a class, a greedy starred class, a
    lazy starred class. *)
Inductive fitem :=
| FOne (cls : ascii -> bool)
| FStar (cls : ascii -> bool)
| FLazy (cls : ascii -> bool).

(** Lazy repetition with backtracking: the rest of the pattern is tried
    before one more character is taken. *)
Fixpoint repeat_lazy (cls : ascii -> bool) (k : text -> option matched)
    (acc s : text) : option matched :=
  match seg acc (k s) with
  | Some m => Some m
  | None =>
      match s with
      | c :: s' => if cls c then repeat_lazy cls k (acc ++ [c]) s' else None
      | [] => None
      end
  end.

Fixpoint fexec (p : list fitem) (s : text) : option matched :=
  match p with
  | [] => Some ([], s)
  | FOne cls :: p' =>
      match s with
      | c :: s' => if cls c then seg [c] (fexec p' s') else None
      | [] => None
      end
  | FStar cls :: p' => repeat_bt cls (fexec p') [] s
  | FLazy cls :: p' => repeat_lazy cls (fexec p') [] s
  end.

(** [re.search]: what the items took in the match at the leftmost position
    that has one. *)
Fixpoint fsearch (p : list fitem) (s : text) : option (list text) :=
  match fexec p s with
  | Some (segs, _) => Some segs
  | None =>
      match s with
      | [] => None
      | _ :: s' => fsearch p s'
      end
  end.

Definition flits (s : string) : list fitem :=
  map (fun a => FOne (is_char a)) (list_ascii_of_string s).

(** The pattern of a fenced block under [re.DOTALL]: three backticks and
    the name of the language, white space, the lazy group, white space,
    three backticks. *)
Definition fence_re (language : string) : list fitem :=
  flits "```" ++ flits language
  ++ [FStar is_space; FLazy any_char; FStar is_space] ++ flits "```".

Definition fhe_keywords : list text :=
  [T "EvalMult"; T "EvalAdd"; T "m_cc"; T "m_InputC"; T "Ciphertext"].

(** [_extract_cpp_code]; the group is item 7 of the first pattern and
    item 4 of the second. *)
Definition _extract_cpp_code (response : text) : text :=
  match fsearch (fence_re "cpp") response with
  | Some segs => strip (nth 7 segs [])
  | None =>
      match fsearch (fence_re "") response with
      | Some segs =>
          let code := strip (nth 4 segs []) in
          if existsb (fun kw => contains kw code) fhe_keywords then code
          else []
      | None => []
      end
  end.

End FHECoderExtract.

(** ** The patcher: developer.py *)

Module FHECoder.

Import FHECoderExtract.

Local Open Scope string_scope.
Local Open Scope list_scope.

(** The pattern "void\s+\w+::eval\s*\(\s*\)\s*\{". *)
Definition marker : pattern :=
  lits "void" ++ [Plus is_space; Plus is_word] ++ lits "::eval"
  ++ [Star is_space; One (is_char "("); Star is_space; One (is_char ")");
      Star is_space; One (is_char "{")].

(** The marker without its opening brace. *)
Definition signature_items : pattern :=
  lits "void" ++ [Plus is_space; Plus is_word] ++ lits "::eval"
  ++ [Star is_space; One (is_char "("); Star is_space; One (is_char ")");
      Star is_space].

(** The marker followed by a group that takes the rest of the text (any
    characters, under [re.DOTALL]); the group is the item after the 18 items
    of the marker. *)
Definition wrapper : pattern := marker ++ [Star any_char].

(** The loop
<<
    while pos < len(text) and depth > 0:
        if text[pos] == "{": depth += 1
        elif text[pos] == "}": depth -= 1
        pos += 1
>>
    [s] is [text[pos:]]; the result is the final [pos]. *)
Fixpoint brace_loop (s : text) (depth pos : nat) : nat :=
  match s with
  | [] => pos
  | c :: s' =>
      match depth with
      | 0 => pos
      | S d =>
          brace_loop s'
            (if Ascii.eqb c "{" then S depth
             else if Ascii.eqb c "}" then d else depth)
            (S pos)
      end
  end.

(** The brace depth after [s], from the depth [d]; [None] when a closing
    brace has no opening brace before it. *)
Fixpoint depth_after (s : text) (d : nat) : option nat :=
  match s with
  | [] => Some d
  | c :: s' =>
      if Ascii.eqb c "{" then depth_after s' (S d)
      else if Ascii.eqb c "}" then
        match d with
        | 0 => None
        | S d' => depth_after s' d'
        end
      else depth_after s' d
  end.

(** Every closing brace of [s] closes an opening brace of [s], and none is
    left open. *)
Definition balanced (s : text) : Prop := depth_after s 0 = Some 0.

Definition _strip_eval_wrapper (code : text) : text :=
  match search wrapper code with
  | Some m =>
      let body := group_at 18 m in
      let pos := brace_loop body 1 0 in
      strip (slice_to (Z.of_nat pos - 1) body)
  | None => code
  end.

Definition _inject_eval_body (template_cpp eval_body : text) : result text :=
  match search marker template_cpp with
  | None =>
      Raise (ValueError (T "Cannot find 'void ClassName::eval() {' in template"))
  | Some m =>
      let start := m_end m in
      let pos :=
        brace_loop (slice_from (Z.of_nat start) template_cpp) 1 start in
      Ok (slice_to (Z.of_nat start) template_cpp
          ++ (nl ++ eval_body ++ nl)
          ++ slice_from (Z.of_nat pos - 1) template_cpp)
  end.

(** [str(e)] of the exceptions that carry a message. *)
Definition exn_text (e : exn) : text :=
  match e with
  | ValueError msg | JSONDecodeError msg | CoderError msg => msg
  | _ => []
  end.

Section Develop.

(** [json.loads] and [json.dumps(config, indent=2)], of the standard
    library: the first returns a value or raises, JSONDecodeError on a text
    that is not JSON; the second writes a value [json.loads] returned, or
    raises. *)
Variable loads : text -> result json.
Variable dumps : json -> result text.

(** [_extract_config]; the group is item 8 of the pattern.  Only
    JSONDecodeError is caught: what else [json.loads] raises, as ValueError
    on an integer of more than 4300 digits or RecursionError on a deep
    nesting, leaves the function. *)
Definition _extract_config (response : text) : result json :=
  match fsearch (fence_re "json") response with
  | Some segs =>
      match loads (strip (nth 8 segs [])) with
      | Raise (JSONDecodeError _) => Ok JNull
      | r => r
      end
  | None => Ok JNull
  end.

(** [FHECoder.develop] from the answer of the language model on; the checks
    of the sub-tasks and of the template, which the code makes before it
    asks the model, come first here too.  [inject_files] changes the
    workspace of the experiment in place: an exception raised after it
    leaves the experiment with the files injected so far. *)
Definition develop (scen : FHEScenario) (exp : FHEExperiment)
    (response : text) : outcome :=
  match sub_tasks exp with
  | [] => Raises (CoderError (T "FHEExperiment has no sub_tasks")) exp
  | _ :: _ =>
      match lookup (T "yourSolution.cpp") (template_files scen) with
      | None | Some [] =>
          Raises
            (CoderError (T "No yourSolution.cpp template found in challenge"))
            exp
      | Some template_cpp =>
          match _extract_cpp_code response with
          | [] =>
              Raises
                (CoderError
                   (T "LLM did not produce a ```cpp ... ``` code block in response"))
                exp
          | _ :: _ =>
              let eval_body :=
                _strip_eval_wrapper (_extract_cpp_code response) in
              match _inject_eval_body template_cpp eval_body with
              | Raise (ValueError msg) | Raise (JSONDecodeError msg) =>
                  Raises (CoderError (T "Code injection failed: " ++ msg)) exp
              | Raise e => Raises e exp
              | Ok modified_cpp =>
                  let exp :=
                    set_workspace
                      (inject_files (T "yourSolution.cpp") modified_cpp
                         (experiment_workspace exp)) exp in
                  if text_eqb (challenge_type scen) (T "white_box") then
                    match _extract_config response with
                    | Raise e => Raises e exp
                    | Ok JNull => Returns exp
                    | Ok config =>
                        match dumps config with
                        | Raise e => Raises e exp
                        | Ok written =>
                            Returns
                              (set_workspace
                                 (inject_files (T "config.json") written
                                    (experiment_workspace exp)) exp)
                        end
                    end
                  else Returns exp
              end
          end
      end
  end.

End Develop.

End FHECoder.

(** ** The runner: runner.py *)

(** What [subprocess.run] did: it completed, it ran out of time, or it
    raised another exception, of which [str(exc)] is kept. *)
Inductive proc_outcome :=
| Completed (stdout stderr : text) (returncode : Z)
| TimeoutExpired
| Failed (msg : text).

(** [FHEPropSetting], as far as the runner reads it. *)
Record FHEPropSetting := {
  build_timeout : Z;
  run_timeout : Z
}.

(** What the runner finds outside of the program: the outcome of the
    [docker build], the sorted test-case directories under [test_dir] with
    the outcome of the [docker run] on each, the outcome of the validator,
    and [app_build/result.json]: absent ([None]), unreadable as JSON
    ([Some None]) or parsed. *)
Record world := {
  build : proc_outcome;
  test_dir : text;
  testcases : list (text * proc_outcome);
  validator : proc_outcome;
  result_json : option (option json)
}.

Module FHERunner.

Local Open Scope string_scope.
Local Open Scope list_scope.
Local Open Scope Z_scope.

Definition _docker_run (cmd : list text) (timeout : Z) (o : proc_outcome)
    : text * Z :=
  match o with
  | Completed stdout stderr returncode => (stdout ++ stderr, returncode)
  | TimeoutExpired =>
      (T "Docker command timed out after " ++ str_of_int timeout ++ T "s", 1)
  | Failed msg => (msg, 1)
  end.

(** *** Accuracy parsers *)

Definition digit_or_dot (c : ascii) : bool := is_digit c || is_char "." c.

(** The pattern "Accuracy:\s*([0-9.]+)"; the group is item 10. *)
Definition accuracy_re : pattern :=
  lits "Accuracy:" ++ [Star is_space; Plus digit_or_dot].

(** The pattern "Slots passed:\s*(\d+)/(\d+)"; the groups are items 14 and
    16. *)
Definition slots_re : pattern :=
  lits "Slots passed:" ++ [Star is_space; Plus is_digit; One (is_char "/");
                           Plus is_digit].

(** The pattern "[Aa]ccuracy:\s*([0-9.]+)"; the group is item 10. *)
Definition any_accuracy_re : pattern :=
  One (fun c => is_char "A" c || is_char "a" c) :: lits "ccuracy:"
  ++ [Star is_space; Plus digit_or_dot].

Definition _parse_accuracy_black_box (output : text) : result (option float) :=
  match search accuracy_re output with
  | Some m => do x <- float_of_str (group_at 10 m); Ok (Some x)
  | None =>
      match search slots_re output with
      | Some m =>
          do total <- int_of_digits (group_at 16 m);
          if 0 <? total then
            do passed <- int_of_digits (group_at 14 m);
            do x <- int_truediv passed total;
            Ok (Some x)
          else Ok None
      | None => Ok None
      end
  end.

Definition _parse_accuracy_from_output (output : text) : result (option float) :=
  match search any_accuracy_re output with
  | Some m => do x <- float_of_str (group_at 10 m); Ok (Some x)
  | None => Ok None
  end.

(** [d.get(key, default)]; only a [dict] has the method. *)
Definition get (key : text) (default : json) (d : json) : result json :=
  match d with
  | JObj fields =>
      Ok (match find (fun kv => text_eqb (fst kv) key) fields with
          | Some kv => snd kv
          | None => default
          end)
  | _ => Raise AttributeError
  end.

(** The elements a [for] loop or [zip] takes from a value: those of a list,
    the keys of a dict, the characters of a string. *)
Definition iterate (v : json) : result (list json) :=
  match v with
  | JArr items => Ok items
  | JObj fields => Ok (map (fun kv => JStr (fst kv)) fields)
  | JStr s => Ok (map (fun c => JStr [c]) s)
  | _ => Raise TypeError
  end.

(** [float(v)]. *)
Definition float_of_json (v : json) : result float :=
  match v with
  | JFloat x => Ok x
  | JInt n => float_of_int n
  | JBool b => Ok (if b then PrimFloat.one else PrimFloat.zero)
  | JStr s => float_of_str s
  | _ => Raise TypeError
  end.

(** [x <= v] for a float [x]. *)
Definition float_le_json (x : float) (v : json) : result bool :=
  match v with
  | JFloat t => Ok (PrimFloat.leb x t)
  | JInt n => Ok (float_le_int x n)
  | JBool b => Ok (float_le_int x (if b then 1 else 0))
  | _ => Raise TypeError
  end.

(** A [for] loop whose body may raise. *)
Fixpoint for_each {A S : Type} (body : S -> A -> result S) (xs : list A)
    (st : S) : result S :=
  match xs with
  | [] => Ok st
  | x :: xs' => do st' <- body st x; for_each body xs' st'
  end.

(** The counters [(total_slots, correct_slots)]. *)
Definition counters := (Z * Z)%type.

(** 0.01 *)
Definition default_threshold : float := 0x1.47ae147ae147bp-7%float.

Definition slot_body (thresh : json) (st : counters) (re : json * json)
    : result counters :=
  let '(total_slots, correct_slots) := st in
  do r <- float_of_json (fst re);
  do e <- float_of_json (snd re);
  do within <- float_le_json (PrimFloat.abs (PrimFloat.sub r e)) thresh;
  Ok (total_slots + 1, if within then correct_slots + 1 else correct_slots).

Definition run_body (error_threshold : json) (st : counters) (run : json)
    : result counters :=
  do result <- get (T "result") (JArr []) run;
  do expected <- get (T "expected_output") (JArr []) run;
  do thresh <- get (T "error_threshold") error_threshold run;
  do rs <- iterate result;
  do es <- iterate expected;
  for_each (slot_body thresh) (combine rs es) st.

Definition testcase_body (st : counters) (testcase : json) : result counters :=
  do error_threshold <- get (T "error_threshold") (JFloat default_threshold) testcase;
  do runs_v <- get (T "runs") (JArr []) testcase;
  do runs <- iterate runs_v;
  for_each (run_body error_threshold) runs st.

(** The [try] block of [_parse_accuracy_white_box], on the parsed text. *)
Definition count_slots (data : json) : result (option float) :=
  do tcs_v <- get (T "testcases") (JArr []) data;
  do tcs <- iterate tcs_v;
  do st <- for_each testcase_body tcs (0, 0);
  let '(total_slots, correct_slots) := st in
  if 0 <? total_slots then
    do x <- int_truediv correct_slots total_slots; Ok (Some x)
  else Ok None.

(** [parsed] is [None] when reading or [json.loads] raised. *)
Definition _parse_accuracy_white_box (parsed : option json) : option float :=
  match parsed with
  | None => None
  | Some data =>
      match count_slots data with
      | Ok a => a
      | Raise _ => None
      end
  end.

(** *** Black box *)

(** The local variables of the loop over the test cases, with the
    experiment. *)
Record loop_state := {
  total_accuracy : float;
  run_outputs : list text;
  all_success : bool;
  loop_exp : FHEExperiment
}.

Definition testcase_step (run_timeout : Z) (image_tag : text)
    (st : loop_state) (tc : text * proc_outcome) : result loop_state :=
  let '(name, o) := tc in
  let '(run_output, run_rc) :=
    _docker_run [T "docker"; T "run"; T "--rm"; T "-v"; name ++ T ":/data";
                 image_tag] run_timeout o in
  let outs := run_outputs st ++ [T "=== " ++ name ++ T " ===" ++ nl ++ run_output] in
  if negb (run_rc =? 0) then
    Ok {| total_accuracy := total_accuracy st;
          run_outputs := outs;
          all_success := false;
          loop_exp :=
            set_error_message
              (error_message (loop_exp st)
               ++ nl ++ T "Testcase " ++ name ++ T " failed (exit "
               ++ str_of_int run_rc ++ T "):" ++ nl
               ++ slice_from (-800) run_output)
              (loop_exp st) |}
  else
    do acc <- _parse_accuracy_black_box run_output;
    Ok {| total_accuracy :=
            match acc with
            | Some a => PrimFloat.add (total_accuracy st) a
            | None => total_accuracy st
            end;
          run_outputs := outs;
          all_success := all_success st;
          loop_exp := loop_exp st |}.

Definition _run_black_box (setting : FHEPropSetting) (w : world)
    (image_tag : text) (exp : FHEExperiment) : result FHEExperiment :=
  let '(build_output, build_rc) :=
    _docker_run [T "docker"; T "build"; T "-t"; image_tag]
      (build_timeout setting) (build w) in
  if negb (build_rc =? 0) then
    Ok (set_docker_output build_output
          (set_error_message
             (T "Docker build failed (exit " ++ str_of_int build_rc ++ T "):"
              ++ nl ++ slice_from (-3000) build_output)
             (set_build_success false exp)))
  else
    let exp := set_build_success true exp in
    match testcases w with
    | [] =>
        Ok (set_docker_output build_output
              (set_error_message
                 (T "No testcase directories found in " ++ test_dir w)
                 (set_run_success false exp)))
    | _ :: _ =>
        do st <- for_each (testcase_step (run_timeout setting) image_tag)
                   (testcases w)
                   {| total_accuracy := PrimFloat.zero; run_outputs := [];
                      all_success := true; loop_exp := exp |};
        let exp := set_run_success (all_success st) (loop_exp st) in
        let exp := set_docker_output (join (nl ++ nl) (run_outputs st)) exp in
        do mean <- float_div_int (total_accuracy st)
                     (Z.of_nat (List.length (testcases w)));
        Ok (set_accuracy (Some mean) exp)
    end.

(** *** White box *)

Definition build_markers : list text :=
  [T "cmake error"; T "compilation"; T "error:"; T "make["; T "undefined reference"].

Definition _run_white_box (setting : FHEPropSetting) (w : world)
    (exp : FHEExperiment) : result FHEExperiment :=
  let '(run_output, run_rc) :=
    _docker_run [T "docker"; T "run"; T "-t"; T "--rm"]
      (run_timeout setting) (validator w) in
  let exp := set_docker_output run_output exp in
  if negb (run_rc =? 0) then
    let lower_out := lower run_output in
    if existsb (fun kw => contains kw lower_out) build_markers then
      Ok (set_error_message
            (T "Compilation/build error:" ++ nl ++ slice_from (-3000) run_output)
            (set_run_success false (set_build_success false exp)))
    else
      Ok (set_error_message
            (T "Runtime error (exit " ++ str_of_int run_rc ++ T "):" ++ nl
             ++ slice_from (-3000) run_output)
            (set_run_success false (set_build_success true exp)))
  else
    let exp := set_run_success true (set_build_success true exp) in
    match result_json w with
    | Some parsed => Ok (set_accuracy (_parse_accuracy_white_box parsed) exp)
    | None =>
        do a <- _parse_accuracy_from_output run_output;
        Ok (set_accuracy a exp)
    end.

Definition develop (scen : FHEScenario) (setting : FHEPropSetting) (w : world)
    (image_tag : text) (exp : FHEExperiment) : result FHEExperiment :=
  if text_eqb (challenge_type scen) (T "black_box")
  then _run_black_box setting w image_tag exp
  else _run_white_box setting w exp.

End FHERunner.

(** ** The accuracy the specification describes

    The definitions of this module follow the words of the specification;
    the theorems compare them with the runner. *)

Module RunnerSpec.

Import FHERunner.

Local Open Scope list_scope.

(** What a fixture adds to the numerator: the accuracy parsed from its
    output when its run exited with code 0 and the output held one. *)
Definition fixture_accuracy (run_timeout : Z) (tc : text * proc_outcome)
    : result (option float) :=
  let '(run_output, run_rc) := _docker_run [] run_timeout (snd tc) in
  if (run_rc =? 0)%Z then _parse_accuracy_black_box run_output else Ok None.

Fixpoint fixture_accuracies (run_timeout : Z)
    (tcs : list (text * proc_outcome)) : result (list (option float)) :=
  match tcs with
  | [] => Ok []
  | tc :: tcs' =>
      do a <- fixture_accuracy run_timeout tc;
      do rest <- fixture_accuracies run_timeout tcs';
      Ok (a :: rest)
  end.

Definition add_parsed (total : float) (a : option float) : float :=
  match a with
  | Some x => PrimFloat.add total x
  | None => total
  end.

(** The sum of the parsed accuracies, in the order of the fixtures. *)
Definition parsed_sum (accs : list (option float)) : float :=
  fold_left add_parsed accs PrimFloat.zero.

(** The message of a command that ran out of time. *)
Definition timeout_message (timeout : Z) : text :=
  T "Docker command timed out after " ++ str_of_int timeout ++ T "s".

(** The output holds one of the compiler and linker markers, in any
    case. *)
Definition has_build_marker (output : text) : Prop :=
  exists kw, In kw build_markers /\ infix kw (lower output).

(** A fixture exited with a code other than 0. *)
Definition fixture_failed (run_timeout : Z) (tc : text * proc_outcome) : bool :=
  negb (snd (_docker_run [] run_timeout (snd tc)) =? 0)%Z.

(** The result artifact of the validator: test cases, their runs, the
    paired result and expected scalars, and the error thresholds where they
    are given. *)
Inductive num :=
| NInt (n : Z)
| NFloat (x : float).

Record run_record := {
  r_result : list num;
  r_expected : list num;
  r_threshold : option num
}.

Record testcase_record := {
  t_runs : list run_record;
  t_threshold : option num
}.

Definition artifact := list testcase_record.

Definition json_of_num (v : num) : json :=
  match v with
  | NInt n => JInt n
  | NFloat x => JFloat x
  end.

Definition threshold_field (t : option num) : list (text * json) :=
  match t with
  | Some v => [(T "error_threshold", json_of_num v)]
  | None => []
  end.

Definition json_of_run (r : run_record) : json :=
  JObj ((T "result", JArr (map json_of_num (r_result r)))
        :: (T "expected_output", JArr (map json_of_num (r_expected r)))
        :: threshold_field (r_threshold r)).

Definition json_of_testcase (t : testcase_record) : json :=
  JObj ((T "runs", JArr (map json_of_run (t_runs t)))
        :: threshold_field (t_threshold t)).

(** The artifact as [json.loads] returns it. *)
Definition json_of_artifact (a : artifact) : json :=
  JObj [(T "testcases", JArr (map json_of_testcase a))].

(** The value under a key of an object, as [d.get(key)] finds it. *)
Definition field (key : text) (j : json) : option json :=
  match j with
  | JObj fields =>
      option_map snd (find (fun kv => text_eqb (fst kv) key) fields)
  | _ => None
  end.

Definition is_object (j : json) : Prop := exists fields, j = JObj fields.

(** The list of numbers under a key; no such key stands for the empty
    list. *)
Definition numbers_at (key : text) (j : json) (l : list num) : Prop :=
  field key j = Some (JArr (map json_of_num l))
  \/ (field key j = None /\ l = []).

Definition threshold_at (j : json) (t : option num) : Prop :=
  field (T "error_threshold") j = option_map json_of_num t.

(** A parsed text is a result artifact: objects with the keys the validator
    writes, in any order and among any other keys. *)
Definition encodes_run (j : json) (r : run_record) : Prop :=
  is_object j
  /\ numbers_at (T "result") j (r_result r)
  /\ numbers_at (T "expected_output") j (r_expected r)
  /\ threshold_at j (r_threshold r).

Definition encodes_testcase (j : json) (t : testcase_record) : Prop :=
  is_object j
  /\ threshold_at j (t_threshold t)
  /\ ((exists runs,
         field (T "runs") j = Some (JArr runs)
         /\ Forall2 encodes_run runs (t_runs t))
      \/ (field (T "runs") j = None /\ t_runs t = [])).

Definition encodes (data : json) (a : artifact) : Prop :=
  is_object data
  /\ ((exists tcs,
         field (T "testcases") data = Some (JArr tcs)
         /\ Forall2 encodes_testcase tcs a)
      \/ (field (T "testcases") data = None /\ a = [])).

(** The threshold of a run: its own if present, else the one of its test
    case, else 0.01. *)
Definition threshold_of (t : testcase_record) (r : run_record) : num :=
  match r_threshold r with
  | Some v => v
  | None =>
      match t_threshold t with
      | Some v => v
      | None => NFloat default_threshold
      end
  end.

(** A slot: a result, the expected value, the threshold. *)
Definition slot := (num * num * num)%type.

Definition slots_of_run (t : testcase_record) (r : run_record) : list slot :=
  map (fun re => (fst re, snd re, threshold_of t r))
    (combine (r_result r) (r_expected r)).

Definition slots_of (a : artifact) : list slot :=
  flat_map (fun t => flat_map (slots_of_run t) (t_runs t)) a.

Definition float_of_num (v : num) : result float :=
  match v with
  | NInt n => float_of_int n
  | NFloat x => Ok x
  end.

(** Every integer of the slot is in the range of [float]. *)
Definition in_range (s : slot) : Prop :=
  let '(r, e, _) := s in
  (exists x, float_of_num r = Ok x) /\ (exists y, float_of_num e = Ok y).

Definition value (v : num) : float :=
  match float_of_num v with
  | Ok x => x
  | Raise _ => PrimFloat.nan
  end.

(** [|result - expected| <= threshold]. *)
Definition correct (s : slot) : bool :=
  let '(r, e, t) := s in
  let err := PrimFloat.abs (PrimFloat.sub (value r) (value e)) in
  match t with
  | NFloat x => PrimFloat.leb err x
  | NInt n => float_le_int err n
  end.

(** The counters after the slots. *)
Definition bump (st : counters) (slots : list slot) : counters :=
  (fst st + Z.of_nat (List.length slots),
   snd st + Z.of_nat (List.length (filter correct slots)))%Z.

(** Correct slots divided by total slots; [None] when there is no slot. *)
Definition slot_accuracy (a : artifact) : option float :=
  let slots := slots_of a in
  match slots with
  | [] => None
  | _ :: _ =>
      match int_truediv (Z.of_nat (List.length (filter correct slots)))
              (Z.of_nat (List.length slots)) with
      | Ok x => Some x
      | Raise _ => None
      end
  end.

(** The threshold a test case hands to its runs. *)
Definition default_of (t : testcase_record) : json :=
  match t_threshold t with
  | Some v => json_of_num v
  | None => JFloat default_threshold
  end.

(** What a loop over slots leaves: the counters after the slots when every
    number is in the range of [float], an exception otherwise. *)
Definition counted (r : result counters) (st : counters) (slots : list slot)
    : Prop :=
  (Forall in_range slots /\ r = Ok (bump st slots))
  \/ (~ Forall in_range slots /\ exists e, r = Raise e).

End RunnerSpec.

(** ** The judge: evaluator.py *)

Record ExperimentFeedback := {
  reason : text;
  decision : bool
}.

Module FHEEvaluator.

Local Open Scope string_scope.
Local Open Scope list_scope.

Section Feedback.

(** [format(x, ".<digits>f")], which only shapes the rationale. *)
Variable format_fixed : nat -> float -> text.

Definition hundred : float := 100%float.

(** [sota_exp] is the experiment [trace.get_sota_hypothesis_and_experiment]
    returned, [None] when it returned none. *)
Definition generate_feedback (accuracy_threshold : float) (exp : FHEExperiment)
    (sota_exp : option FHEExperiment) : ExperimentFeedback :=
  if negb (build_success exp) then
    {| reason :=
         T "Build failed." ++ nl ++ nl
         ++ T "Error:" ++ nl ++ slice_to 2000 (error_message exp) ++ nl ++ nl
         ++ T "Docker output (last 1000 chars):" ++ nl
         ++ slice_from (-1000) (docker_output exp);
       decision := false |}
  else if negb (run_success exp) then
    {| reason :=
         T "Runtime error." ++ nl ++ nl
         ++ T "Error:" ++ nl ++ slice_to 2000 (error_message exp) ++ nl ++ nl
         ++ T "Docker output (last 1000 chars):" ++ nl
         ++ slice_from (-1000) (docker_output exp);
       decision := false |}
  else
    match accuracy exp with
    | None =>
        {| reason :=
             T "Run succeeded but accuracy could not be parsed." ++ nl ++ nl
             ++ T "Docker output (last 1000 chars):" ++ nl
             ++ slice_from (-1000) (docker_output exp);
           decision := false |}
    | Some acc =>
        let passed := PrimFloat.leb accuracy_threshold acc in
        let status := if passed then T "PASSED" else T "FAILED" in
        let reason :=
          T "Accuracy: " ++ format_fixed 4 acc ++ T " ("
          ++ format_fixed 1 (PrimFloat.mul acc hundred) ++ T "%)" ++ nl
          ++ T "Threshold: " ++ format_fixed 2 accuracy_threshold ++ T " ("
          ++ format_fixed 0 (PrimFloat.mul accuracy_threshold hundred)
          ++ T "%)" ++ nl
          ++ T "Status: " ++ status ++ nl ++ nl
          ++ T "Docker output (last 2000 chars):" ++ nl
          ++ slice_from (-2000) (docker_output exp) in
        let reason :=
          match sota_exp with
          | Some sota =>
              match accuracy sota with
              | Some best =>
                  reason ++ nl ++ nl ++ T "Previous best accuracy: "
                  ++ format_fixed 4 best
              | None => reason
              end
          | None => reason
          end in
        {| reason := reason; decision := passed |}
    end.

End Feedback.

End FHEEvaluator.

(** ** Sample inputs *)

Module Samples.

Local Open Scope string_scope.
Local Open Scope list_scope.

Definition sample_template : text := T "void Solution::eval() { old(); }".

Definition no_eval_template : text := T "void Solution::run() { }".

Definition sample_setting : FHEPropSetting :=
  {| build_timeout := 600; run_timeout := 600 |}.

Definition black_box_scenario : FHEScenario :=
  {| challenge_type := T "black_box"; challenge_name := T "relu";
     template_files := [] |}.

Definition image_tag : text := T "fhe-relu-0a1b2c3d".

(** Three fixtures: one scores 1.0, one runs out of time, one exits with
    -9. *)
Definition three_fixtures : world :=
  {| build := Completed (T "built") [] 0;
     test_dir := T "/challenge/tests";
     testcases :=
       [(T "t1", Completed (T "Accuracy: 1.0") [] 0);
        (T "t2", TimeoutExpired);
        (T "t3", Completed (T "boom") (T "trace") (-9))];
     validator := TimeoutExpired;
     result_json := None |}.

(** One fixture, scored 0.92. *)
Definition scored_fixture : world :=
  {| build := Completed (T "built") [] 0;
     test_dir := T "/challenge/tests";
     testcases := [(T "t1", Completed (T "Accuracy: 0.92") [] 0)];
     validator := TimeoutExpired;
     result_json := None |}.

(** The same fixture, its output ending in a full stop. *)
Definition full_stop_fixture : world :=
  {| build := Completed (T "built") [] 0;
     test_dir := T "/challenge/tests";
     testcases := [(T "t1", Completed (T "Accuracy: 0.92.") [] 0)];
     validator := TimeoutExpired;
     result_json := None |}.

(** A build that runs out of time. *)
Definition slow_build : world :=
  {| build := TimeoutExpired; test_dir := []; testcases := [];
     validator := TimeoutExpired; result_json := None |}.

(** A validator that exits with 1 on a CMake error. *)
Definition cmake_failure : world :=
  {| build := TimeoutExpired; test_dir := []; testcases := [];
     validator :=
       Completed (T "CMake Error at CMakeLists.txt:3 (find_package)") [] 1;
     result_json := None |}.

(** One test case with one run of three slots and no threshold given: the
    results 1.005, 2 and 3.5 against 1, 2 and 3. *)
Definition sample_artifact : RunnerSpec.artifact :=
  [{| RunnerSpec.t_runs :=
        [{| RunnerSpec.r_result :=
              [RunnerSpec.NFloat 0x1.0147ae147ae14p+0%float; RunnerSpec.NInt 2;
               RunnerSpec.NFloat 0x1.cp+1%float];
            RunnerSpec.r_expected :=
              [RunnerSpec.NInt 1; RunnerSpec.NInt 2; RunnerSpec.NInt 3];
            RunnerSpec.r_threshold := None |}];
      RunnerSpec.t_threshold := None |}].

(** 1/3, 2/3 and 0.92 in binary64. *)
Definition one_third : float := 0x1.5555555555555p-2%float.
Definition two_thirds : float := 0x1.5555555555555p-1%float.
Definition ninety_two_percent : float := 0x1.d70a3d70a3d71p-1%float.

End Samples.

(** ** The dashboard: log/ui/fhe_trace.py *)

Module FHETrace.

Import FHECoder.

Local Open Scope list_scope.

(** [s[a:b]], for any integers [a] and [b]. *)
Definition slice (a b : Z) (s : text) : text :=
  let n := Z.of_nat (List.length s) in
  let norm k := if (k <? 0)%Z then Z.max 0 (n + k) else Z.min k n in
  firstn (Z.to_nat (norm b - norm a)) (skipn (Z.to_nat (norm a)) s).

(** [_extract_eval_body]: the body of the eval function, [None] when there
    is no marker or the body is blank. *)
Definition _extract_eval_body (cpp_code : text) : option text :=
  match search marker cpp_code with
  | None => None
  | Some m =>
      let start := m_end m in
      let pos := brace_loop (slice_from (Z.of_nat start) cpp_code) 1 start in
      let body := strip (slice (Z.of_nat start) (Z.of_nat pos - 1) cpp_code) in
      match body with
      | [] => None
      | _ :: _ => Some body
      end
  end.

End FHETrace.

(** ** More of the developer: developer.py *)

Module FHECoderContext.

Local Open Scope string_scope.
Local Open Scope list_scope.

(** [_get_feedback_context]. *)
Definition _get_feedback_context (exp : FHEExperiment) : text :=
  match error_message exp with
  | _ :: _ =>
      T "Previous attempt failed:" ++ nl ++ slice_to 800 (error_message exp)
  | [] =>
      match docker_output exp with
      | _ :: _ =>
          T "Previous output (last 500 chars):" ++ nl
          ++ slice_from (-500) (docker_output exp)
      | [] => T "No previous feedback (first attempt)."
      end
  end.

End FHECoderContext.

(** ** The scenario: scen.py *)

Module FHEScenarioInit.

Local Open Scope string_scope.
Local Open Scope list_scope.

(** A literal character under [re.IGNORECASE]. *)
Definition is_char_ci (a : ascii) (c : ascii) : bool :=
  Ascii.eqb (lower_char c) (lower_char a).

Definition lits_ci (s : string) : pattern :=
  map (fun a => One (is_char_ci a)) (list_ascii_of_string s).

(** The pattern "Challenge type:\s*Black Box" under [re.IGNORECASE]. *)
Definition type_re : pattern :=
  lits_ci "Challenge type:" ++ [Star is_space] ++ lits_ci "Black Box".

Definition _detect_type (challenge_md : text) : text :=
  match search type_re challenge_md with
  | Some _ => T "black_box"
  | None => T "white_box"
  end.

(** [re.findall] on a pattern whose matches are not empty: the matches
    from left to right, none overlapping the one before.  [skip] counts the
    characters of the last match that are still to pass. *)
Fixpoint findall_from (p : pattern) (skip : nat) (s : text) : list (list text) :=
  match s with
  | [] => []
  | _ :: s' =>
      match skip with
      | S k => findall_from p k s'
      | 0 =>
          match exec p s with
          | Some (segs, _) =>
              segs :: findall_from p (List.length (List.concat segs) - 1) s'
          | None => findall_from p 0 s'
          end
      end
  end.

Definition findall (p : pattern) (s : text) : list (list text) :=
  findall_from p 0 s.

(** The patterns "CryptoContext<DCRTPoly>\s+(\w+)", "PublicKey<DCRTPoly>\s+(\w+)"
    and "Ciphertext<DCRTPoly>\s+(\w+)"; the group is the last item. *)
Definition member_re (type_name : string) : pattern :=
  lits type_name ++ [Plus is_space; Plus is_word].

Definition last_group (segs : list text) : text := last segs [].

(** [_extract_variable_names]: the dictionary of the names found, in the
    order of insertion. *)
Definition _extract_variable_names (template_files : file_dict)
    : list (text * text) :=
  let header :=
    match lookup (T "yourSolution.h") template_files with
    | Some h => h
    | None => []
    end in
  let cc :=
    match search (member_re "CryptoContext<DCRTPoly>") header with
    | Some m => [(T "cc", last_group (m_segs m))]
    | None => []
    end in
  let pk :=
    match search (member_re "PublicKey<DCRTPoly>") header with
    | Some m => [(T "pk", last_group (m_segs m))]
    | None => []
    end in
  let ct_matches :=
    map last_group (findall (member_re "Ciphertext<DCRTPoly>") header) in
  let ct :=
    match ct_matches with
    | [] => []
    | first :: rest =>
        (T "input", first)
        :: match rest with
           | [] => []
           | _ :: _ => [(T "output", last rest first)]
           end
    end in
  cc ++ pk ++ ct.

End FHEScenarioInit.

(** ** The research agent: proposal.py *)

(** An entry of [trace.hist]: the experiment with the algorithm of its
    hypothesis, when it has one, and the feedback. *)
Record attempt := {
  a_algorithm : option text;
  a_exp : FHEExperiment;
  a_feedback : ExperimentFeedback
}.

Module FHEExpGen.

Local Open Scope string_scope.
Local Open Scope list_scope.

(** [xs[-n:]] for [n > 0]. *)
Definition last_n {A} (n : nat) (xs : list A) : list A :=
  skipn (List.length xs - n) xs.

(** The lines of one attempt; [number] is its place in the history. *)
Definition attempt_lines (number : Z) (a : attempt) : list text :=
  [nl ++ T "### Attempt " ++ str_of_int number]
  ++ match a_algorithm a with
     | Some algorithm =>
         [T "Algorithm (preview): " ++ slice_to 300 algorithm ++ T "..."]
     | None => []
     end
  ++ [T "Result: "
      ++ (if decision (a_feedback a) then T "SUCCESS" else T "FAILED")]
  ++ [T "Feedback: " ++ slice_to 600 (reason (a_feedback a))].

(** The loop of [_build_history]; [i] is the index [enumerate] gives. *)
Fixpoint history_lines (total recent_len : nat) (i : nat)
    (recent : list attempt) : list text :=
  match recent with
  | [] => []
  | a :: rest =>
      attempt_lines
        (Z.of_nat total - Z.of_nat recent_len + Z.of_nat i + 1)%Z a
      ++ history_lines total recent_len (S i) rest
  end.

Definition _build_history (hist : list attempt) : text :=
  match hist with
  | [] => T "No previous attempts."
  | _ :: _ =>
      let recent := last_n 3 hist in
      join nl (history_lines (List.length hist) (List.length recent) 0 recent)
  end.

End FHEExpGen.

(** ** Notions the further properties use *)

Module ExtraSpec.

Import FHERunner RunnerSpec Samples.

Local Open Scope string_scope.
Local Open Scope list_scope.

(** The document holds the words "challenge type:" and "black box", in any
    letter case, with nothing but white space between them. *)
Definition names_black_box (challenge_md : text) : Prop :=
  exists pre h ws b post,
    challenge_md = pre ++ h ++ ws ++ b ++ post
    /\ lower h = T "challenge type:"
    /\ forallb is_space ws = true
    /\ lower b = T "black box".

(** The fence of a code block. *)
Definition fence : text := T "```".

(** A word: not empty, and only letters, digits and underscores. *)
Definition is_name (v : text) : Prop :=
  v <> [] /\ forallb is_word v = true.

(** A header with a context, a key and two ciphertexts. *)
Definition sample_header : file_dict :=
  [(T "yourSolution.h",
    T "CryptoContext<DCRTPoly> m_cc; PublicKey<DCRTPoly> m_pk; "
    ++ T "Ciphertext<DCRTPoly> m_in; Ciphertext<DCRTPoly>  m_out;")].

(** A text of digits with at most one point and at least one digit: an
    integer part [ip], then possibly a point and a fraction part [fp]. *)
Definition decimal_parts (g ip fp : text) : Prop :=
  forallb is_digit ip = true /\ forallb is_digit fp = true
  /\ ((g = ip /\ fp = [] /\ ip <> [])
      \/ (g = ip ++ "."%char :: fp /\ ip ++ fp <> [])).

Definition plain_decimal (g : text) : Prop :=
  exists ip fp, decimal_parts g ip fp.

(** What [float] raises on a text it cannot read. *)
Definition could_not_convert : exn :=
  ValueError (T "could not convert string to float").

(** The value of such a text. *)
Definition plain_decimal_value (ip fp : text) : float :=
  decimal_value false (ip ++ fp) (- Z.of_nat (List.length fp)).

(** What an item of a pattern may have taken in a match: characters of
    its class, at least one unless the item is a starred class. *)
Definition seg_fits (it : item) (sg : text) : Prop :=
  forallb (item_class it) sg = true
  /\ match it with Star _ => True | _ => sg <> [] end.

(** What a fixture adds to the output the experiment keeps. *)
Definition fixture_block (run_timeout : Z) (tc : text * proc_outcome) : text :=
  T "=== " ++ fst tc ++ T " ===" ++ nl
  ++ fst (_docker_run [] run_timeout (snd tc)).

(** What a fixture adds to the error message: nothing when it exits with
    code 0. *)
Definition failure_note (run_timeout : Z) (tc : text * proc_outcome) : text :=
  let '(run_output, run_rc) := _docker_run [] run_timeout (snd tc) in
  if (run_rc =? 0)%Z then []
  else nl ++ T "Testcase " ++ fst tc ++ T " failed (exit "
       ++ str_of_int run_rc ++ T "):" ++ nl ++ slice_from (-800) run_output.

(** The object with the value under a key changed, and the list with
    every item changed; other values are left as they are. *)
Definition at_key (key : text) (f : json -> json) (j : json) : json :=
  match j with
  | JObj fields =>
      JObj (map (fun kv =>
                   if text_eqb (fst kv) key then (fst kv, f (snd kv)) else kv)
              fields)
  | _ => j
  end.

Definition each (f : json -> json) (j : json) : json :=
  match j with
  | JArr items => JArr (map f items)
  | _ => j
  end.

(** A run with its result and expected lists cut to the length of the
    shorter one, and an artifact with every run cut so. *)
Definition cut_run (run : json) : json :=
  match field (T "result") run, field (T "expected_output") run with
  | Some (JArr rs), Some (JArr es) =>
      let n := Nat.min (List.length rs) (List.length es) in
      at_key (T "result") (fun _ => JArr (firstn n rs))
        (at_key (T "expected_output") (fun _ => JArr (firstn n es)) run)
  | _, _ => run
  end.

Definition cut_testcase : json -> json := at_key (T "runs") (each cut_run).

Definition cut_artifact : json -> json :=
  at_key (T "testcases") (each cut_testcase).




(** A rendering of floats for the samples. *)
Definition no_digits (_ : nat) (_ : float) : text := [].

Definition white_box_scenario : FHEScenario :=
  {| challenge_type := T "white_box"; challenge_name := T "max";
     template_files := [] |}.

(** A validator that exits with 0 and leaves the sample artifact. *)
Definition validated : world :=
  {| build := TimeoutExpired; test_dir := []; testcases := [];
     validator := Completed (T "done") [] 0;
     result_json := Some (Some (json_of_artifact sample_artifact)) |}.

(** The sample artifact as another writer may lay it out: other keys, and
    the keys in another order. *)
Definition sample_artifact_rewritten : json :=
  JObj [(T "version", JStr (T "1.2"));
        (T "testcases",
         JArr [JObj [(T "name", JStr (T "max"));
                     (T "runs",
                      JArr [JObj [(T "expected_output",
                                   JArr [JInt 1; JInt 2; JInt 3]);
                                  (T "time", JFloat 0x1.8p+1%float);
                                  (T "result",
                                   JArr [JFloat 0x1.0147ae147ae14p+0%float;
                                         JInt 2; JFloat 0x1.cp+1%float])]])]])].

(** A validator that exits with 0, prints its own accuracy line and leaves
    no artifact. *)
Definition validated_without_artifact : world :=
  {| build := TimeoutExpired; test_dir := []; testcases := [];
     validator :=
       Completed (T "Test accuracy: 0.92" ++ nl ++ T "done") [] 0;
     result_json := None |}.

(** An artifact with one run of four results against three expected
    values, and the same with the fourth result dropped. *)
Definition long_run_artifact : json :=
  JObj [(T "testcases",
         JArr [JObj [(T "runs",
                      JArr [JObj [(T "result",
                                   JArr [JInt 1; JInt 2; JInt 7; JInt 9]);
                                  (T "expected_output",
                                   JArr [JInt 1; JInt 2; JInt 3])]])]])].

Definition cut_long_run_artifact : json :=
  JObj [(T "testcases",
         JArr [JObj [(T "runs",
                      JArr [JObj [(T "result",
                                   JArr [JInt 1; JInt 2; JInt 7]);
                                  (T "expected_output",
                                   JArr [JInt 1; JInt 2; JInt 3])]])]])].

Definition nine_tenths : float := 0x1.ccccccccccccdp-1%float.

End ExtraSpec.

(** * Properties *)

(** ** Texts *)

Section TextFacts.

Variable p : ascii -> bool.

Lemma take_drop_while (s : text) : take_while p s ++ drop_while p s = s.
Proof.
  induction s as [|c s IH]; simpl; [reflexivity|].
  destruct (p c); simpl; [now rewrite IH | reflexivity].
Qed.

Lemma take_while_all (s : text) : forallb p (take_while p s) = true.
Proof.
  induction s as [|c s IH]; simpl; [reflexivity|].
  destruct (p c) eqn:E; simpl; [now rewrite E | reflexivity].
Qed.

Lemma drop_while_head (s : text) c t : drop_while p s = c :: t -> p c = false.
Proof.
  induction s as [|a s IH]; simpl; [discriminate|].
  destruct (p a) eqn:E; [assumption|].
  intros H; injection H as <- _; assumption.
Qed.

Lemma take_while_stop (w : text) c t :
  forallb p w = true -> p c = false -> take_while p (w ++ c :: t) = w.
Proof.
  induction w as [|a w IH]; simpl; intros Hw Hc.
  - now rewrite Hc.
  - apply andb_prop in Hw as [-> Hw]. now rewrite IH.
Qed.

Lemma drop_while_stop (w : text) c t :
  forallb p w = true -> p c = false -> drop_while p (w ++ c :: t) = c :: t.
Proof.
  induction w as [|a w IH]; simpl; intros Hw Hc.
  - now rewrite Hc.
  - apply andb_prop in Hw as [-> Hw]. now apply IH.
Qed.

Lemma drop_while_suffix (s : text) : exists w, s = w ++ drop_while p s.
Proof. exists (take_while p s). symmetry. apply take_drop_while. Qed.

End TextFacts.

Lemma take_while_any (s : text) : take_while any_char s = s.
Proof. induction s; simpl; congruence. Qed.

Lemma drop_while_any (s : text) : drop_while any_char s = [].
Proof. induction s; simpl; congruence. Qed.

Lemma text_eqb_eq (a b : text) : text_eqb a b = true <-> a = b.
Proof.
  revert b; induction a as [|x a IH]; intros [|y b]; simpl;
    try (split; [discriminate | congruence]); [tauto|].
  rewrite andb_true_iff, Ascii.eqb_eq, IH. split.
  - now intros [-> ->].
  - intros H. now injection H.
Qed.

Lemma text_eqb_refl (a : text) : text_eqb a a = true.
Proof. now apply text_eqb_eq. Qed.

Lemma infix_refl a : infix a a.
Proof. exists [], []. now rewrite app_nil_r. Qed.

Lemma infix_trans a b c : infix a b -> infix b c -> infix a c.
Proof.
  intros (l1 & r1 & ->) (l2 & r2 & ->).
  exists (l2 ++ l1), (r1 ++ r2). now rewrite <- !app_assoc.
Qed.

Lemma infix_firstn n (s : text) : infix (firstn n s) s.
Proof. exists [], (skipn n s). simpl. apply eq_sym, firstn_skipn. Qed.

Lemma infix_skipn n (s : text) : infix (skipn n s) s.
Proof.
  exists (firstn n s), []. rewrite app_nil_r. apply eq_sym, firstn_skipn.
Qed.

Lemma infix_slice_to k (s : text) : infix (slice_to k s) s.
Proof. unfold slice_to. destruct (k <? 0)%Z; apply infix_firstn. Qed.

Lemma infix_slice_from k (s : text) : infix (slice_from k s) s.
Proof. unfold slice_from. destruct (k <? 0)%Z; apply infix_skipn. Qed.

Lemma infix_drop_while p (s : text) : infix (drop_while p s) s.
Proof.
  exists (take_while p s), []. rewrite app_nil_r. symmetry. apply take_drop_while.
Qed.

Lemma infix_rev a b : infix a b -> infix (rev a) (rev b).
Proof.
  intros (l & r & ->). exists (rev r), (rev l).
  now rewrite !rev_app_distr, <- app_assoc.
Qed.

Lemma infix_strip (s : text) : infix (strip s) s.
Proof.
  unfold strip.
  apply infix_trans with (drop_while is_space s); [|apply infix_drop_while].
  rewrite <- (rev_involutive (drop_while is_space s)) at 2.
  apply infix_rev, infix_drop_while.
Qed.

(** [contains] decides [infix]. *)
Lemma starts_with_spec kw s : starts_with kw s = true <-> exists r, s = kw ++ r.
Proof.
  revert s; induction kw as [|k kw IH]; intros s; simpl.
  - split; [intros _; now exists s | reflexivity].
  - destruct s as [|c s]; [split; [discriminate | intros [r H]; discriminate]|].
    rewrite andb_true_iff, Ascii.eqb_eq, IH. split.
    + intros [-> [r ->]]. now exists r.
    + intros [r H]. injection H as -> ->. split; [reflexivity | now exists r].
Qed.

Lemma contains_spec kw s : contains kw s = true <-> infix kw s.
Proof.
  induction s as [|c s IH]; simpl.
  - rewrite orb_false_r, starts_with_spec. split.
    + intros [r H]. exists [], r. exact H.
    + intros (l & r & H). destruct l; [now exists r|discriminate].
  - rewrite orb_true_iff, starts_with_spec, IH. split.
    + intros [[r H] | (l & r & H)].
      * exists [], r. exact H.
      * exists (c :: l), r. simpl. now rewrite H.
    + intros (l & r & H). destruct l as [|a l]; simpl in H.
      * left. now exists r.
      * right. injection H as _ H. now exists l, r.
Qed.

(** ** The matcher *)

Module ReFacts.

Lemma all_chars_complete (a : ascii) : In a all_chars.
Proof.
  unfold all_chars. apply in_map_iff. exists (nat_of_ascii a). split.
  - apply ascii_nat_embedding.
  - apply in_seq. split; [lia|]. simpl. apply nat_ascii_bounded.
Qed.

Lemma disjoint_spec c1 c2 a :
  disjoint c1 c2 = true -> c1 a = true -> c2 a = false.
Proof.
  unfold disjoint. rewrite forallb_forall. intros H H1.
  specialize (H a (all_chars_complete a)). rewrite H1 in H.
  now destruct (c2 a).
Qed.

Lemma seg_None t r : seg t r = None <-> r = None.
Proof. destruct r as [[? ?]|]; simpl; split; congruence. Qed.

(** A greedy repetition never gives a character back when what follows
    either cannot start with a character of its class or cannot fail. *)
Lemma repeat_bt_greedy cls k :
  (forall c s, cls c = true -> k (c :: s) = None) \/ (forall s, k s <> None) ->
  forall s acc,
    repeat_bt cls k acc s = seg (acc ++ take_while cls s) (k (drop_while cls s)).
Proof.
  intros Hk. induction s as [|c s IH]; intros acc; simpl.
  - now rewrite app_nil_r.
  - destruct (cls c) eqn:Ec; [|now rewrite app_nil_r].
    rewrite IH, <- app_assoc. simpl.
    destruct (k (drop_while cls s)) as [[sg r]|] eqn:Ek; simpl; [reflexivity|].
    destruct Hk as [Hk | Hk].
    + now rewrite Hk.
    + now destruct (Hk (drop_while cls s)).
Qed.

Lemma run_avoids cls p :
  avoids cls p = true -> forall c s, cls c = true -> run p (c :: s) = None.
Proof.
  induction p as [|[c0|c0|c0] p IH]; simpl; intros H c s Hc.
  - discriminate.
  - now rewrite (disjoint_spec _ _ _ H Hc).
  - apply andb_prop in H as [H1 H2].
    rewrite (disjoint_spec _ _ _ H1 Hc). apply seg_None. now apply IH.
  - now rewrite (disjoint_spec _ _ _ H Hc).
Qed.

Lemma deterministic_tail cls p :
  (deterministic p && match p with [] => true | _ => avoids cls p end) = true ->
  deterministic p = true /\
  ((forall c s, cls c = true -> run p (c :: s) = None)
   \/ (forall s, run p s <> None)).
Proof.
  intros H. apply andb_prop in H as [H1 H2]. split; [assumption|].
  destruct p as [|i p].
  - right. simpl. discriminate.
  - left. now apply run_avoids.
Qed.

(** On a deterministic pattern the backtracking matcher is [run]. *)
Lemma exec_run p : deterministic p = true -> forall s, exec p s = run p s.
Proof.
  induction p as [|[c0|c0|c0] p IH]; simpl; intros H s.
  - reflexivity.
  - destruct s as [|c s]; [reflexivity|]. destruct (c0 c); [|reflexivity].
    now rewrite IH.
  - apply deterministic_tail in H as [H1 H2]. rewrite repeat_bt_greedy.
    + simpl. now rewrite IH.
    + destruct H2 as [H2|H2]; [left|right]; intros; rewrite IH; auto.
  - apply deterministic_tail in H as [H1 H2].
    destruct s as [|c s]; [reflexivity|]. destruct (c0 c); [|reflexivity].
    rewrite repeat_bt_greedy.
    + simpl. now rewrite IH.
    + destruct H2 as [H2|H2]; [left|right]; intros; rewrite IH; auto.
Qed.

(** What [run] returns is a match: the segments make up a text of the
    language, followed by the rest. *)
Lemma run_sound p : forall s segs r,
  run p s = Some (segs, r) ->
  s = List.concat segs ++ r /\ lang p (List.concat segs)
  /\ List.length segs = List.length p.
Proof.
  induction p as [|[c0|c0|c0] p IH]; simpl; intros s segs r H.
  - injection H as <- <-. auto.
  - destruct s as [|c s]; [discriminate|]. destruct (c0 c) eqn:Ec; [|discriminate].
    destruct (run p s) as [[sg r']|] eqn:E; [|discriminate].
    injection H as <- <-. destruct (IH _ _ _ E) as (-> & Hl & Hn).
    simpl. repeat split; [|now rewrite Hn]. now exists c, (List.concat sg).
  - destruct (run p (drop_while c0 s)) as [[sg r']|] eqn:E; [|discriminate].
    injection H as <- <-. destruct (IH _ _ _ E) as (Hs & Hl & Hn).
    simpl. repeat split; [| |now rewrite Hn].
    + rewrite <- app_assoc, <- Hs. symmetry. apply take_drop_while.
    + exists (take_while c0 s), (List.concat sg).
      repeat split; [apply take_while_all | assumption].
  - destruct s as [|c s]; [discriminate|]. destruct (c0 c) eqn:Ec; [|discriminate].
    destruct (run p (drop_while c0 s)) as [[sg r']|] eqn:E; [|discriminate].
    injection H as <- <-. destruct (IH _ _ _ E) as (Hs & Hl & Hn).
    simpl. repeat split; [| |now rewrite Hn].
    + rewrite <- app_assoc, <- Hs. f_equal. symmetry. apply take_drop_while.
    + exists c, (take_while c0 s), (List.concat sg).
      repeat split; [assumption | apply take_while_all | assumption].
Qed.

Lemma run_app p q : forall s,
  run (p ++ q) s =
  match run p s with
  | Some (sg, r) =>
      match run q r with
      | Some (sg2, r2) => Some (sg ++ sg2, r2)
      | None => None
      end
  | None => None
  end.
Proof.
  induction p as [|[c0|c0|c0] p IH]; simpl; intros s.
  - now destruct (run q s) as [[? ?]|].
  - destruct s as [|c s]; [reflexivity|]. destruct (c0 c); [|reflexivity].
    rewrite IH. destruct (run p s) as [[sg r]|]; simpl; [|reflexivity].
    now destruct (run q r) as [[? ?]|].
  - rewrite IH. destruct (run p _) as [[sg r]|]; simpl; [|reflexivity].
    now destruct (run q r) as [[? ?]|].
  - destruct s as [|c s]; [reflexivity|]. destruct (c0 c); [|reflexivity].
    rewrite IH. destruct (run p _) as [[sg r]|]; simpl; [|reflexivity].
    now destruct (run q r) as [[? ?]|].
Qed.

Lemma lang_app p q : forall m,
  lang (p ++ q) m <-> exists m1 m2, m = m1 ++ m2 /\ lang p m1 /\ lang q m2.
Proof.
  induction p as [|[c0|c0|c0] p IH]; simpl; intros m.
  - split.
    + intros H. now exists [], m.
    + intros (m1 & m2 & -> & -> & H). exact H.
  - split.
    + intros (c & m' & -> & Hc & H). apply IH in H as (m1 & m2 & -> & H1 & H2).
      exists (c :: m1), m2. repeat split; [|assumption]. now exists c, m1.
    + intros (m1 & m2 & -> & (c & m' & -> & Hc & H1) & H2).
      exists c, (m' ++ m2). repeat split; [assumption|]. apply IH. now exists m', m2.
  - split.
    + intros (w & m' & -> & Hw & H). apply IH in H as (m1 & m2 & -> & H1 & H2).
      exists (w ++ m1), m2. rewrite app_assoc. repeat split; [|assumption].
      now exists w, m1.
    + intros (m1 & m2 & -> & (w & m' & -> & Hw & H1) & H2).
      exists w, (m' ++ m2). rewrite app_assoc. repeat split; [assumption|].
      apply IH. now exists m', m2.
  - split.
    + intros (c & w & m' & -> & Hc & Hw & H).
      apply IH in H as (m1 & m2 & -> & H1 & H2).
      exists (c :: w ++ m1), m2. simpl. rewrite app_assoc.
      repeat split; [|assumption]. now exists c, w, m1.
    + intros (m1 & m2 & -> & (c & w & m' & -> & Hc & Hw & H1) & H2).
      exists c, w, (m' ++ m2). simpl. rewrite app_assoc.
      repeat split; [assumption..|]. apply IH. now exists m', m2.
Qed.

(** *** Anchored patterns *)

Lemma lang_nonempty p m : nullable p = false -> lang p m -> m <> [].
Proof.
  revert m; induction p as [|[c0|c0|c0] p IH]; simpl; intros m Hn H.
  - discriminate.
  - destruct H as (c & m' & -> & _). discriminate.
  - destruct H as (w & m' & -> & _ & H). specialize (IH _ Hn H).
    destruct w; simpl; [assumption | discriminate].
  - destruct H as (c & w & m' & -> & _). discriminate.
Qed.

Lemma lang_avoids cls p c m :
  avoids cls p = true -> lang p (c :: m) -> cls c = false.
Proof.
  revert c m; induction p as [|[c0|c0|c0] p IH]; simpl; intros c m Ha H.
  - discriminate.
  - destruct H as (c' & m' & E & Hc & _). injection E as <- _.
    destruct (cls c) eqn:Ec; [|reflexivity].
    now rewrite (disjoint_spec _ _ _ Ha Ec) in Hc.
  - apply andb_prop in Ha as [Hd Ha].
    destruct H as (w & m' & E & Hw & H). destruct w as [|a w]; simpl in E.
    + subst m'. eapply IH; eassumption.
    + injection E as <- _. simpl in Hw. apply andb_prop in Hw as [Hc _].
      destruct (cls c) eqn:Ec; [|reflexivity].
      now rewrite (disjoint_spec _ _ _ Hd Ec) in Hc.
  - destruct H as (c' & w & m' & E & Hc & _). injection E as <- _.
    destruct (cls c) eqn:Ec; [|reflexivity].
    now rewrite (disjoint_spec _ _ _ Ha Ec) in Hc.
Qed.

Lemma rep_tail cls p w m x :
  (deterministic p && match p with [] => true | _ => avoids cls p end) = true ->
  nullable p = false -> forallb cls w = true -> lang p m ->
  take_while cls (w ++ m ++ x) = w /\ drop_while cls (w ++ m ++ x) = m ++ x.
Proof.
  intros Hd Hn Hw Hl. apply andb_prop in Hd as [_ Ha].
  destruct p as [|i p]; [discriminate|].
  destruct m as [|c m]; [now destruct (lang_nonempty _ _ Hn Hl)|].
  pose proof (lang_avoids _ _ _ _ Ha Hl) as Hc. simpl.
  split; [now apply take_while_stop | now apply drop_while_stop].
Qed.

(** Every text of the language is matched, whatever follows it. *)
Lemma lang_run p :
  deterministic p = true -> anchored p = true ->
  forall m x, lang p m ->
  exists segs, run p (m ++ x) = Some (segs, x) /\ List.concat segs = m.
Proof.
  induction p as [|[c0|c0|c0] p IH]; simpl; intros Hd Ha m x H.
  - subst m. now exists [].
  - destruct H as (c & m' & -> & Hc & H). simpl. rewrite Hc.
    destruct (IH Hd Ha _ x H) as (sg & -> & <-). now exists ([c] :: sg).
  - destruct H as (w & m' & -> & Hw & H).
    apply andb_prop in Ha as [Ha Hn]. apply negb_true_iff in Hn.
    rewrite <- app_assoc.
    destruct (rep_tail _ _ _ _ x Hd Hn Hw H) as [-> ->].
    apply andb_prop in Hd as [Hd _].
    destruct (IH Hd Ha _ x H) as (sg & -> & <-). now exists (w :: sg).
  - destruct H as (c & w & m' & -> & Hc & Hw & H). simpl. rewrite Hc.
    apply andb_prop in Ha as [Ha Hn]. apply negb_true_iff in Hn.
    rewrite <- app_assoc.
    destruct (rep_tail _ _ _ _ x Hd Hn Hw H) as [-> ->].
    apply andb_prop in Hd as [Hd _].
    destruct (IH Hd Ha _ x H) as (sg & -> & <-). now exists ((c :: w) :: sg).
Qed.

(** *** Search *)

Lemma search_from_None p : forall s i,
  search_from p i s = None ->
  forall pre suf, s = pre ++ suf -> exec p suf = None.
Proof.
  induction s as [|c s IH]; simpl; intros i H pre suf E.
  - destruct pre; [|discriminate]. simpl in E. subst suf.
    now destruct (exec p []) as [[? ?]|].
  - destruct (exec p (c :: s)) as [[sg r]|] eqn:Ex; [discriminate|].
    destruct pre as [|a pre]; simpl in E.
    + now subst suf.
    + injection E as _ E. eapply IH; eassumption.
Qed.

Lemma search_from_Some p : forall s i m,
  search_from p i s = Some m ->
  exists pre suf,
    s = pre ++ suf /\ m_start m = i + List.length pre
    /\ exec p suf = Some (m_segs m, m_rest m)
    /\ m_end m = m_start m + List.length (List.concat (m_segs m))
    /\ forall pre1 pre2, pre = pre1 ++ pre2 -> pre2 <> [] ->
         exec p (pre2 ++ suf) = None.
Proof.
  induction s as [|c s IH]; intros i m H; simpl in H.
  - destruct (exec p []) as [[sg r]|] eqn:Ex; [|discriminate].
    injection H as <-. exists [], []. simpl. rewrite Nat.add_0_r.
    repeat split; [assumption|].
    intros pre1 pre2 E. apply eq_sym, app_eq_nil in E as [_ ->]. congruence.
  - destruct (exec p (c :: s)) as [[sg r]|] eqn:Ex.
    + injection H as <-. exists [], (c :: s). simpl. rewrite Nat.add_0_r.
      repeat split; [assumption|].
      intros pre1 pre2 E. apply eq_sym, app_eq_nil in E as [_ ->]. congruence.
    + apply IH in H as (pre & suf & -> & Hs & He & Hend & Hmin).
      exists (c :: pre), suf. simpl. repeat split; [lia | assumption..|].
      intros pre1 pre2 E Hne. destruct pre1 as [|a pre1]; simpl in E.
      * now subst pre2.
      * injection E as _ E. now apply (Hmin pre1).
Qed.

Lemma search_from_found p : forall pre suf i segs r,
  exec p suf = Some (segs, r) ->
  (forall pre1 pre2, pre = pre1 ++ pre2 -> pre2 <> [] ->
     exec p (pre2 ++ suf) = None) ->
  search_from p i (pre ++ suf) =
  Some {| m_start := i + List.length pre;
          m_end := i + List.length pre + List.length (List.concat segs);
          m_segs := segs; m_rest := r |}.
Proof.
  induction pre as [|c pre IH]; intros suf i segs r He Hmin; simpl.
  - rewrite Nat.add_0_r. destruct suf; simpl; now rewrite He.
  - assert (H0 : exec p ((c :: pre) ++ suf) = None)
      by (apply (Hmin []); [reflexivity | discriminate]).
    simpl in H0. rewrite H0.
    rewrite (IH _ (S i) _ _ He).
    + f_equal. f_equal; lia.
    + intros pre1 pre2 E. apply (Hmin (c :: pre1)). simpl. now rewrite E.
Qed.

Lemma search_from_hit p : forall pre suf i,
  exec p suf <> None -> search_from p i (pre ++ suf) <> None.
Proof.
  intros pre suf i He H. apply He.
  now apply (search_from_None _ _ _ H pre suf).
Qed.

(** A search finds the pattern exactly when it occurs. *)
Lemma search_occurs p s :
  deterministic p = true -> anchored p = true ->
  search p s <> None <-> occurs p s.
Proof.
  intros Hd Ha. unfold search. split.
  - destruct (search_from p 0 s) as [m|] eqn:E; [intros _|congruence].
    apply search_from_Some in E as (pre & suf & -> & _ & He & _).
    rewrite exec_run in He by assumption.
    apply run_sound in He as (-> & Hl & _).
    now exists pre, (List.concat (m_segs m)), (m_rest m).
  - intros (pre & m & post & -> & Hl). apply search_from_hit.
    rewrite exec_run by assumption.
    destruct (lang_run _ Hd Ha m post Hl) as (sg & -> & _). discriminate.
Qed.

Lemma search_None_iff p s :
  deterministic p = true -> anchored p = true ->
  search p s = None <-> ~ occurs p s.
Proof.
  intros Hd Ha. rewrite <- (search_occurs p s Hd Ha). split.
  - intros -> H. now apply H.
  - intros H. destruct (search p s); [|reflexivity].
    exfalso. apply H. discriminate.
Qed.

Lemma occurs_infix p a b : infix a b -> occurs p a -> occurs p b.
Proof.
  intros (l & r & ->) (pre & m & post & -> & H).
  exists (l ++ pre), m, (post ++ r). now rewrite <- !app_assoc.
Qed.

End ReFacts.

(** ** The patcher *)

Module CoderFacts.

Import ReFacts FHECoder.

Local Open Scope string_scope.
Local Open Scope list_scope.

Lemma marker_deterministic : deterministic marker = true.
Proof. vm_compute. reflexivity. Qed.

Lemma marker_anchored : anchored marker = true.
Proof. vm_compute. reflexivity. Qed.

Lemma marker_length : List.length marker = 18.
Proof. reflexivity. Qed.

(** *** The brace scan *)

Lemma brace_loop_shift s : forall d pos,
  brace_loop s d pos = pos + brace_loop s d 0.
Proof.
  induction s as [|c s IH]; intros d pos; simpl; [lia|].
  destruct d as [|d]; [lia|].
  rewrite IH, (IH _ 1). lia.
Qed.

(** The scan runs through a text that closes no more than it opens. *)
Lemma brace_loop_through b : forall e e' d t pos,
  depth_after b e = Some e' ->
  brace_loop (b ++ t) (S d + e) pos = brace_loop t (S d + e') (pos + List.length b).
Proof.
  induction b as [|c b IH]; simpl; intros e e' d t pos H.
  - injection H as <-. f_equal. lia.
  - replace (pos + S (List.length b)) with (S pos + List.length b) by lia.
    destruct (Ascii.eqb c "{").
    + etransitivity; [|exact (IH _ _ d t (S pos) H)]. f_equal; lia.
    + destruct (Ascii.eqb c "}").
      * destruct e as [|e]; [discriminate|].
        etransitivity; [|exact (IH _ _ d t (S pos) H)]. f_equal; lia.
      * etransitivity; [|exact (IH _ _ d t (S pos) H)]. f_equal; lia.
Qed.

(** Where the scan stops, the character before is the closing brace, or
    the last character of the text. *)
Lemma brace_loop_tail rest : forall d c0,
  (exists c, skipn (brace_loop rest (S d) 0) (c0 :: rest) = [c])
  \/ (exists t, skipn (brace_loop rest (S d) 0) (c0 :: rest) = "}"%char :: t).
Proof.
  induction rest as [|c rest IH]; intros d c0; simpl.
  - left. now exists c0.
  - rewrite brace_loop_shift. simpl.
    destruct (Ascii.eqb c "{") eqn:Eo.
    + apply IH.
    + destruct (Ascii.eqb c "}") eqn:Ec.
      * destruct d as [|d]; [|apply IH].
        apply Ascii.eqb_eq in Ec. subst c. right. exists rest.
        now destruct rest.
      * apply IH.
Qed.

Lemma brace_loop_closed (tail : text) :
  (exists c, tail = [c]) \/ (exists t, tail = "}"%char :: t) ->
  brace_loop tail 1 0 = 1.
Proof.
  intros [[c ->] | [t ->]]; simpl.
  - reflexivity.
  - now destruct t.
Qed.

(** *** Strip *)

Lemma drop_while_app p (s x : text) :
  drop_while p (s ++ x) =
  match drop_while p s with
  | [] => drop_while p x
  | d => d ++ x
  end.
Proof.
  induction s as [|c s IH]; simpl.
  - now destruct (drop_while p x).
  - destruct (p c); [assumption | reflexivity].
Qed.

Lemma strip_padded a b (s : text) :
  is_space a = true -> is_space b = true -> strip (a :: s ++ [b]) = strip s.
Proof.
  intros Ha Hb. unfold strip. simpl. rewrite Ha, drop_while_app.
  destruct (drop_while is_space s) as [|c t] eqn:E; simpl.
  - now rewrite Hb.
  - rewrite rev_app_distr. simpl. now rewrite Hb.
Qed.

(** *** The marker *)

Lemma lang_excludes a p :
  forallb (fun it => negb (item_class it a)) p = true ->
  forall m, lang p m -> ~ In a m.
Proof.
  induction p as [|[c0|c0|c0] p IH]; simpl; intros Hp m H Hin;
    try apply andb_prop in Hp as [Hc Hp]; apply negb_true_iff in Hc || idtac.
  - now subst m.
  - destruct H as (c & m' & -> & Hcc & H). destruct Hin as [<- | Hin].
    + congruence.
    + exact (IH Hp _ H Hin).
  - destruct H as (w & m' & -> & Hw & H). apply in_app_or in Hin as [Hin | Hin].
    + rewrite forallb_forall in Hw. specialize (Hw _ Hin). congruence.
    + exact (IH Hp _ H Hin).
  - destruct H as (c & w & m' & -> & Hcc & Hw & H). destruct Hin as [<- | Hin].
    + congruence.
    + apply in_app_or in Hin as [Hin | Hin].
      * rewrite forallb_forall in Hw. specialize (Hw _ Hin). congruence.
      * exact (IH Hp _ H Hin).
Qed.

(** A match of the marker has one opening brace, its last character. *)
Lemma marker_brace m :
  lang marker m -> exists m0, m = m0 ++ ["{"%char] /\ ~ In "{"%char m0.
Proof.
  intros H.
  change marker with (signature_items ++ [One (is_char "{")]) in H.
  apply lang_app in H as (m1 & m2 & -> & H1 & H2).
  destruct H2 as (c & m' & -> & Hc & ->).
  apply Ascii.eqb_eq in Hc. subst c. exists m1. split; [reflexivity|].
  apply (lang_excludes "{" signature_items); [vm_compute; reflexivity | assumption].
Qed.

(** If [c ++ d] starts with [a], and [a] holds the character that [c] has
    only at its end, then [c] is a prefix of [a]. *)
Lemma prefix_by_last (x : ascii) (a b c0 d : text) :
  a ++ b = (c0 ++ [x]) ++ d -> In x a -> ~ In x c0 ->
  exists y, a = (c0 ++ [x]) ++ y.
Proof.
  revert c0; induction a as [|h a IH]; intros c0 E Hin Hn; [now destruct Hin|].
  destruct c0 as [|h' c0]; simpl in E; injection E as -> E.
  - now exists a.
  - destruct Hin as [-> | Hin]; [now destruct Hn; left|].
    destruct (IH c0 E Hin) as [y ->].
    + intros H. apply Hn. now right.
    + now exists y.
Qed.

(** The first match of the marker in a text stays the first match when the
    text after it is replaced. *)
Lemma marker_search_stable template m :
  search marker template = Some m ->
  exists p0,
    template = (p0 ++ ["{"%char]) ++ m_rest m
    /\ m_end m = S (List.length p0)
    /\ occurs marker (p0 ++ ["{"%char])
    /\ forall x, exists m',
         search marker ((p0 ++ ["{"%char]) ++ x) = Some m'
         /\ m_rest m' = x /\ m_end m' = m_end m.
Proof.
  intros H. apply search_from_Some in H as (pre & suf & -> & Hs & He & Hend & Hmin).
  rewrite exec_run in He by apply marker_deterministic.
  apply run_sound in He as (-> & Hl & _).
  destruct (marker_brace _ Hl) as (m0 & Em & Hm0).
  simpl in Hs. rewrite Hs in Hend.
  assert (Ep : forall x, ((pre ++ m0) ++ ["{"%char]) ++ x
                         = pre ++ List.concat (m_segs m) ++ x).
  { intros x. now rewrite Em, <- !app_assoc. }
  exists (pre ++ m0). split; [|split; [|split]].
  - now rewrite Ep.
  - rewrite Hend, Em, !length_app. simpl. lia.
  - exists pre, (List.concat (m_segs m)), []. split; [|assumption].
    now rewrite <- Ep, app_nil_r.
  - intros x. rewrite Ep.
    destruct (lang_run _ marker_deterministic marker_anchored _ x Hl)
      as (sg & Hr & Hc).
    rewrite <- exec_run in Hr by apply marker_deterministic.
    eexists. split; [|split].
    + unfold search. apply search_from_found; [exact Hr|].
      intros pre1 pre2 -> Hne.
      rewrite exec_run by apply marker_deterministic.
      destruct (run marker (pre2 ++ List.concat (m_segs m) ++ x))
        as [[sg2 r2]|] eqn:E2; [exfalso|reflexivity].
      apply run_sound in E2 as (E2 & Hl2 & _).
      destruct (marker_brace _ Hl2) as (m2 & Em2 & Hm2).
      rewrite Em2, app_assoc in E2.
      apply prefix_by_last in E2 as [y Ey]; [| |assumption].
      * specialize (Hmin pre1 pre2 eq_refl Hne).
        rewrite exec_run in Hmin by apply marker_deterministic.
        rewrite app_assoc, Ey, <- Em2, <- app_assoc in Hmin.
        destruct (lang_run _ marker_deterministic marker_anchored _
                    (y ++ m_rest m) Hl2) as (sg3 & Hr3 & _).
        congruence.
      * apply in_or_app. right. rewrite Em. apply in_or_app. right. now left.
    + reflexivity.
    + simpl. rewrite Hc, Hend. reflexivity.
Qed.

(** The wrapper pattern matches where the marker does; its group is the
    text after the marker. *)
Lemma wrapper_search_from : forall s i,
  search_from wrapper i s =
  match search_from marker i s with
  | Some m =>
      Some {| m_start := m_start m;
              m_end := m_end m + List.length (m_rest m);
              m_segs := m_segs m ++ [m_rest m];
              m_rest := [] |}
  | None => None
  end.
Proof.
  assert (Hw : deterministic wrapper = true) by (vm_compute; reflexivity).
  assert (Hx : forall s, exec wrapper s =
            match exec marker s with
            | Some (sg, r) => Some (sg ++ [r], [])
            | None => None
            end).
  { intros s. rewrite !exec_run by (assumption || apply marker_deterministic).
    unfold wrapper. rewrite run_app.
    destruct (run marker s) as [[sg r]|]; [|reflexivity].
    simpl. now rewrite take_while_any, drop_while_any. }
  induction s as [|c s IH]; intros i; cbn [search_from]; rewrite Hx.
  - destruct (exec marker []) as [[sg r]|]; [|reflexivity].
    cbn [m_start m_end m_segs m_rest]. f_equal. f_equal.
    rewrite concat_app, length_app. simpl. rewrite app_nil_r. lia.
  - destruct (exec marker (c :: s)) as [[sg r]|]; [|apply IH].
    cbn [m_start m_end m_segs m_rest]. f_equal. f_equal.
    rewrite concat_app, length_app. simpl. rewrite app_nil_r. lia.
Qed.

Lemma strip_unfold code :
  _strip_eval_wrapper code =
  match search marker code with
  | Some m =>
      strip (slice_to (Z.of_nat (brace_loop (m_rest m) 1 0) - 1) (m_rest m))
  | None => code
  end.
Proof.
  unfold _strip_eval_wrapper, search. rewrite wrapper_search_from.
  destruct (search_from marker 0 code) as [m|] eqn:E; [|reflexivity].
  apply search_from_Some in E as (pre & suf & _ & _ & He & _).
  rewrite exec_run in He by apply marker_deterministic.
  apply run_sound in He as (_ & _ & Hn).
  unfold group_at. simpl.
  rewrite app_nth2 by (rewrite Hn, marker_length; lia).
  rewrite Hn, marker_length. reflexivity.
Qed.

(** The text a strip returns lies inside the text after the marker. *)
Lemma strip_result_infix code m :
  search marker code = Some m -> infix (_strip_eval_wrapper code) (m_rest m).
Proof.
  intros H. rewrite strip_unfold, H.
  eapply infix_trans; [apply infix_strip | apply infix_slice_to].
Qed.

End CoderFacts.

(** ** The patcher: inject, strip *)

Module CoderTheorems.

Import ReFacts CoderFacts FHECoder Samples.

Local Open Scope string_scope.
Local Open Scope list_scope.

Lemma inject_unfold template_cpp eval_body m p0 :
  search marker template_cpp = Some m ->
  template_cpp = (p0 ++ ["{"%char]) ++ m_rest m ->
  m_end m = S (List.length p0) ->
  _inject_eval_body template_cpp eval_body =
  Ok ((p0 ++ ["{"%char])
      ++ (nl ++ eval_body ++ nl)
      ++ skipn (brace_loop (m_rest m) 1 0) ("{"%char :: m_rest m)).
Proof.
  intros Hs Et He.
  assert (Hl : List.length (p0 ++ ["{"%char]) = S (List.length p0))
    by (rewrite length_app; simpl; lia).
  assert (H1 : firstn (S (List.length p0)) template_cpp = p0 ++ ["{"%char]).
  { rewrite Et, <- Hl, firstn_app, firstn_all, Nat.sub_diag. simpl.
    apply app_nil_r. }
  assert (H2 : skipn (S (List.length p0)) template_cpp = m_rest m).
  { rewrite Et, <- Hl, skipn_app, skipn_all, Nat.sub_diag. reflexivity. }
  assert (H3 : forall n, skipn (List.length p0 + n) template_cpp
                         = skipn n ("{"%char :: m_rest m)).
  { intros n. rewrite Et, <- app_assoc, skipn_app.
    rewrite skipn_all2 by lia. simpl app at 1. f_equal. lia. }
  unfold _inject_eval_body. rewrite Hs, He. unfold slice_to, slice_from.
  replace (Z.of_nat (S (List.length p0)) <? 0)%Z with false
    by (symmetry; apply Z.ltb_ge; lia).
  rewrite Nat2Z.id, H1, H2, (brace_loop_shift _ 1 (S _)).
  replace (Z.of_nat (S (List.length p0) + brace_loop (m_rest m) 1 0) - 1 <? 0)%Z
    with false by (symmetry; apply Z.ltb_ge; lia).
  replace (Z.to_nat (Z.of_nat (S (List.length p0) + brace_loop (m_rest m) 1 0) - 1))
    with (List.length p0 + brace_loop (m_rest m) 1 0) by lia.
  rewrite H3. reflexivity.
Qed.

(** C7, amended.  For every template text that contains the marker pattern
    and every body text whose braces are balanced, [_inject_eval_body]
    succeeds, and re-extracting the function body from its result with
    [_strip_eval_wrapper] returns the injected body with the white space at
    its two ends removed: the body itself when it has none there. *)
Theorem inject_then_strip (template_cpp eval_body : text) :
  occurs marker template_cpp ->
  balanced eval_body ->
  exists patched,
    _inject_eval_body template_cpp eval_body = Ok patched
    /\ _strip_eval_wrapper patched = strip eval_body.
Proof.
  intros Ho Hb.
  apply (search_occurs _ _ marker_deterministic marker_anchored) in Ho.
  destruct (search marker template_cpp) as [m|] eqn:Hs; [clear Ho|congruence].
  destruct (marker_search_stable _ _ Hs) as (p0 & Et & He & _ & Hx).
  rewrite (inject_unfold _ _ _ _ Hs Et He).
  set (tail := skipn (brace_loop (m_rest m) 1 0) ("{"%char :: m_rest m)).
  eexists. split; [reflexivity|].
  destruct (Hx ((nl ++ eval_body ++ nl) ++ tail)) as (m' & Hs' & Hr' & _).
  rewrite strip_unfold, Hs', Hr'.
  assert (Hn : brace_loop ((nl ++ eval_body ++ nl) ++ tail) 1 0
               = List.length eval_body + 3).
  { unfold nl. simpl. rewrite <- app_assoc.
    rewrite (brace_loop_through eval_body 0 0 0) by exact Hb.
    simpl. rewrite brace_loop_shift.
    rewrite brace_loop_closed by apply brace_loop_tail. lia. }
  rewrite Hn. unfold slice_to.
  replace (Z.of_nat (List.length eval_body + 3) - 1 <? 0)%Z with false
    by (symmetry; apply Z.ltb_ge; lia).
  replace (Z.to_nat (Z.of_nat (List.length eval_body + 3) - 1))
    with (List.length (nl ++ eval_body ++ nl))
    by (rewrite !length_app; simpl; lia).
  rewrite firstn_app, firstn_all, Nat.sub_diag, firstn_0, app_nil_r.
  unfold nl. simpl.
  now apply strip_padded.
Qed.

Lemma inject_then_strip_witness :
  occurs marker sample_template /\ balanced (T "if (a) { b(); }")
  /\ exists patched,
       _inject_eval_body sample_template (T "if (a) { b(); }") = Ok patched
       /\ _strip_eval_wrapper patched = strip (T "if (a) { b(); }").
Proof.
  assert (Ho : occurs marker sample_template).
  { apply (search_occurs _ _ marker_deterministic marker_anchored).
    vm_compute. discriminate. }
  assert (Hb : balanced (T "if (a) { b(); }")) by reflexivity.
  split; [exact Ho|]. split; [exact Hb|].
  exact (inject_then_strip _ _ Ho Hb).
Defined.

(** C7 as stated fails: the body comes back without the white space at its
    ends, and a body with a closing brace of its own is cut at that
    brace. *)
Lemma inject_then_strip_changes_body :
  (_inject_eval_body sample_template (T " y = x; ")
   = Ok (T "void Solution::eval() {" ++ nl ++ T " y = x; " ++ nl ++ T "}")
   /\ _strip_eval_wrapper
        (T "void Solution::eval() {" ++ nl ++ T " y = x; " ++ nl ++ T "}")
      = T "y = x;")
  /\ (_inject_eval_body sample_template (T "} int f() {")
      = Ok (T "void Solution::eval() {" ++ nl ++ T "} int f() {" ++ nl ++ T "}")
      /\ _strip_eval_wrapper
           (T "void Solution::eval() {" ++ nl ++ T "} int f() {" ++ nl ++ T "}")
         = []).
Proof. vm_compute. repeat split. Qed.

(** C8.  For every template text in which the marker pattern does not
    occur, [_inject_eval_body] raises the ValueError, whatever the body,
    and [FHECoder.develop] turns it into the CoderError; nothing is
    returned, and the template, a value, and the experiment are as they
    were. *)
Theorem inject_without_marker (template_cpp eval_body : text) :
  ~ occurs marker template_cpp ->
  _inject_eval_body template_cpp eval_body
  = Raise (ValueError (T "Cannot find 'void ClassName::eval() {' in template"))
  /\ forall loads dumps scen exp response,
       sub_tasks exp <> [] ->
       lookup (T "yourSolution.cpp") (template_files scen) = Some template_cpp ->
       template_cpp <> [] ->
       FHECoderExtract._extract_cpp_code response <> [] ->
       develop loads dumps scen exp response
       = Raises
           (CoderError
              (T "Code injection failed: Cannot find 'void ClassName::eval() {' in template"))
           exp.
Proof.
  intros Hn.
  apply (search_None_iff _ _ marker_deterministic marker_anchored) in Hn.
  assert (Hi : forall b, _inject_eval_body template_cpp b
     = Raise (ValueError (T "Cannot find 'void ClassName::eval() {' in template"))).
  { intros b. unfold _inject_eval_body. now rewrite Hn. }
  split; [apply Hi|].
  intros loads dumps scen exp response Ht Hl Hne Hx. unfold develop.
  destruct (sub_tasks exp); [congruence|]. rewrite Hl.
  destruct template_cpp; [congruence|].
  destruct (FHECoderExtract._extract_cpp_code response); [congruence|].
  now rewrite Hi.
Qed.

Lemma inject_without_marker_witness :
  ~ occurs marker no_eval_template
  /\ _inject_eval_body no_eval_template (T "x = 1;")
     = Raise (ValueError (T "Cannot find 'void ClassName::eval() {' in template")).
Proof.
  assert (Hn : ~ occurs marker no_eval_template).
  { apply (search_None_iff _ _ marker_deterministic marker_anchored).
    vm_compute. reflexivity. }
  split; [exact Hn|].
  exact (proj1 (inject_without_marker no_eval_template (T "x = 1;") Hn)).
Defined.

(** C9, amended.  For every code text in which the marker pattern does not
    occur twice, applying [_strip_eval_wrapper] twice yields the same as
    applying it once. *)
Theorem strip_twice (code : text) :
  ~ occurs_twice marker code ->
  _strip_eval_wrapper (_strip_eval_wrapper code) = _strip_eval_wrapper code.
Proof.
  intros Hn. destruct (search marker code) as [m|] eqn:Hs.
  - pose proof (strip_result_infix _ _ Hs) as Hi.
    assert (Hr : ~ occurs marker (m_rest m)).
    { intros (pre2 & m2 & post2 & Er & Hl2). apply Hn.
      apply search_from_Some in Hs as (pre & suf & -> & _ & He & _).
      rewrite exec_run in He by apply marker_deterministic.
      apply run_sound in He as (-> & Hl & _).
      exists pre, (List.concat (m_segs m)), pre2, m2, post2.
      now rewrite <- Er. }
    assert (Hx : search marker (_strip_eval_wrapper code) = None).
    { apply (search_None_iff _ _ marker_deterministic marker_anchored).
      intros Ho. apply Hr. eapply occurs_infix; eassumption. }
    rewrite (strip_unfold (_strip_eval_wrapper code)), Hx. reflexivity.
  - rewrite (strip_unfold code), Hs. rewrite strip_unfold, Hs. reflexivity.
Qed.

Lemma twice_two_braces (s : text) :
  occurs_twice marker s -> 2 <= count_occ ascii_dec s "{"%char.
Proof.
  intros (a & m1 & b & m2 & c & -> & H1 & H2).
  destruct (marker_brace _ H1) as (x1 & -> & _).
  destruct (marker_brace _ H2) as (x2 & -> & _).
  rewrite !count_occ_app. simpl. lia.
Qed.

Lemma strip_twice_witness :
  ~ occurs_twice marker sample_template
  /\ _strip_eval_wrapper (_strip_eval_wrapper sample_template)
     = _strip_eval_wrapper sample_template.
Proof.
  assert (Hn : ~ occurs_twice marker sample_template).
  { intros H. apply twice_two_braces in H. vm_compute in H. lia. }
  split; [exact Hn|]. exact (strip_twice sample_template Hn).
Defined.

(** C9 as stated fails: of two wrappers, one inside the other, each
    application strips one. *)
Lemma strip_not_idempotent :
  _strip_eval_wrapper (T "void A::eval() { void B::eval() { x } }")
  = T "void B::eval() { x }"
  /\ _strip_eval_wrapper
       (_strip_eval_wrapper (T "void A::eval() { void B::eval() { x } }"))
     = T "x".
Proof. vm_compute. split; reflexivity. Qed.

End CoderTheorems.

(** ** The runner: black box *)

Module BlackBoxTheorems.

Import FHERunner RunnerSpec Samples.

Local Open Scope string_scope.
Local Open Scope list_scope.
Local Open Scope Z_scope.

Lemma slice_from_all (k : Z) (s : text) :
  Z.of_nat (List.length s) + k <= 0 -> k < 0 -> slice_from k s = s.
Proof.
  intros H Hk. unfold slice_from. apply Z.ltb_lt in Hk. rewrite Hk.
  replace (Z.to_nat (Z.of_nat (List.length s) + k)) with 0%nat by lia.
  reflexivity.
Qed.

Lemma docker_run_cmd cmd cmd' timeout o :
  _docker_run cmd timeout o = _docker_run cmd' timeout o.
Proof. now destruct o. Qed.

Lemma step_spec rt tag st tc :
  match fixture_accuracy rt tc with
  | Raise e => testcase_step rt tag st tc = Raise e
  | Ok a =>
      exists st1,
        testcase_step rt tag st tc = Ok st1
        /\ total_accuracy st1 = add_parsed (total_accuracy st) a
        /\ all_success st1 = all_success st && negb (fixture_failed rt tc)
        /\ build_success (loop_exp st1) = build_success (loop_exp st)
        /\ accuracy (loop_exp st1) = accuracy (loop_exp st)
  end.
Proof.
  destruct tc as [name o].
  unfold fixture_accuracy, fixture_failed, testcase_step.
  destruct o as [so se rc| |msg]; cbn [_docker_run snd].
  - destruct (rc =? 0) eqn:Erc; cbn [negb].
    + destruct (_parse_accuracy_black_box (so ++ se)) as [a|e];
        cbn [bind]; [|reflexivity].
      eexists. split; [reflexivity|]. cbn. rewrite andb_true_r. auto.
    + eexists. split; [reflexivity|]. cbn. rewrite andb_false_r. auto.
  - eexists. split; [reflexivity|]. cbn. rewrite andb_false_r. auto.
  - eexists. split; [reflexivity|]. cbn. rewrite andb_false_r. auto.
Qed.

(** The loop over the fixtures: it raises what the first raising parse
    raises; otherwise it sums the parsed accuracies, notes whether a fixture
    failed, and leaves the accuracy and the build flag of the experiment
    alone. *)
Lemma loop_spec rt tag tcs : forall st,
  match fixture_accuracies rt tcs with
  | Raise e => for_each (testcase_step rt tag) tcs st = Raise e
  | Ok accs =>
      exists st',
        for_each (testcase_step rt tag) tcs st = Ok st'
        /\ total_accuracy st' = fold_left add_parsed accs (total_accuracy st)
        /\ all_success st'
           = all_success st && negb (existsb (fixture_failed rt) tcs)
        /\ build_success (loop_exp st') = build_success (loop_exp st)
        /\ accuracy (loop_exp st') = accuracy (loop_exp st)
  end.
Proof.
  induction tcs as [|tc tcs IH]; intros st;
    cbn [fixture_accuracies for_each existsb].
  - exists st. cbn. rewrite andb_true_r. auto.
  - pose proof (step_spec rt tag st tc) as Hs.
    destruct (fixture_accuracy rt tc) as [a|e]; cbn [bind]; [|now rewrite Hs].
    destruct Hs as (st1 & -> & Ht1 & Ha1 & Hb1 & Hc1). cbn [bind].
    specialize (IH st1).
    destruct (fixture_accuracies rt tcs) as [accs|e]; cbn [bind]; [|exact IH].
    destruct IH as (st' & -> & Ht & Ha & Hb & Hc). exists st'.
    cbn [fold_left]. rewrite Ht, Ha, Hb, Hc, Ht1, Ha1, Hb1, Hc1.
    repeat split. rewrite negb_orb. symmetry. apply andb_assoc.
Qed.

Lemma run_black_box_unfold setting w tag exp :
  snd (_docker_run [] (build_timeout setting) (build w)) = 0 ->
  testcases w <> [] ->
  _run_black_box setting w tag exp =
  do st <- for_each (testcase_step (run_timeout setting) tag) (testcases w)
             {| total_accuracy := PrimFloat.zero; run_outputs := [];
                all_success := true;
                loop_exp := set_build_success true exp |};
  do mean <- float_div_int (total_accuracy st)
               (Z.of_nat (List.length (testcases w)));
  Ok (set_accuracy (Some mean)
        (set_docker_output (join (nl ++ nl) (run_outputs st))
           (set_run_success (all_success st) (loop_exp st)))).
Proof.
  intros Hb Ht. unfold _run_black_box.
  destruct (build w) as [so se rc| |msg]; simpl in Hb; try discriminate.
  subst rc. simpl.
  destruct (testcases w); [congruence | reflexivity].
Qed.

(** C2.  In every black-box execution in which the build succeeds and
    there is at least one test-case directory, the accuracy of the
    experiment the runner returns is the sum of the accuracies parsed from
    the fixtures that exited with code 0 and held one, divided by the
    number of fixtures; and the runner returns that experiment whenever no
    parse raises and the division is defined. *)
Theorem black_box_mean setting w tag exp :
  snd (_docker_run [] (build_timeout setting) (build w)) = 0 ->
  testcases w <> [] ->
  (forall exp',
     _run_black_box setting w tag exp = Ok exp' ->
     exists accs mean,
       fixture_accuracies (run_timeout setting) (testcases w) = Ok accs
       /\ float_div_int (parsed_sum accs)
            (Z.of_nat (List.length (testcases w))) = Ok mean
       /\ accuracy exp' = Some mean)
  /\ (forall accs mean,
        fixture_accuracies (run_timeout setting) (testcases w) = Ok accs ->
        float_div_int (parsed_sum accs)
          (Z.of_nat (List.length (testcases w))) = Ok mean ->
        exists exp',
          _run_black_box setting w tag exp = Ok exp'
          /\ accuracy exp' = Some mean).
Proof.
  intros Hb Ht. rewrite (run_black_box_unfold _ _ _ _ Hb Ht).
  match goal with |- context [for_each _ _ ?s] =>
    pose proof (loop_spec (run_timeout setting) tag (testcases w) s) as H
  end.
  destruct (fixture_accuracies (run_timeout setting) (testcases w))
    as [accs|e].
  - destruct H as (st' & -> & Hs & _). simpl in Hs. simpl.
    fold (parsed_sum accs) in Hs. change add_parsed with
      (fun total a => match a with
                      | Some x => PrimFloat.add total x
                      | None => total
                      end) in Hs.
    fold (parsed_sum accs) in Hs. rewrite Hs. split.
    + intros exp' H. exists accs.
      destruct (float_div_int (parsed_sum accs) _) as [mean|]; simpl in H;
        [|discriminate].
      exists mean. injection H as <-. auto.
    + intros accs' mean E Hm. injection E as <-. rewrite Hm. simpl.
      eexists. split; reflexivity.
  - rewrite H. simpl. split; [discriminate|]. intros ? ? E. discriminate.
Qed.

Lemma black_box_mean_witness :
  exists exp',
    _run_black_box sample_setting three_fixtures image_tag
      (new_experiment [T "plan"]) = Ok exp'
    /\ accuracy exp' = Some one_third.
Proof.
  refine (proj2 (black_box_mean sample_setting three_fixtures
                   image_tag (new_experiment [T "plan"]) _ _)
            [Some PrimFloat.one; None; None] one_third _ _).
  - reflexivity.
  - discriminate.
  - vm_compute. reflexivity.
  - vm_compute. reflexivity.
Defined.

(** C10.  In every black-box execution in which the build succeeds and
    there is at least one test-case directory, the accuracy of the
    experiment the runner returns is a number, the mean the loop computed
    (the sum of the parsed accuracies divided by the number of fixtures),
    also when the run flag is false; and the run flag is false exactly when
    a fixture exited with a code other than 0: an accuracy that is not None
    does not tell that the run succeeded. *)
Theorem accuracy_set_when_run_failed setting w tag exp exp' :
  snd (_docker_run [] (build_timeout setting) (build w)) = 0 ->
  testcases w <> [] ->
  _run_black_box setting w tag exp = Ok exp' ->
  (exists accs mean,
     fixture_accuracies (run_timeout setting) (testcases w) = Ok accs
     /\ float_div_int (parsed_sum accs)
          (Z.of_nat (List.length (testcases w))) = Ok mean
     /\ accuracy exp' = Some mean)
  /\ run_success exp'
     = negb (existsb (fixture_failed (run_timeout setting)) (testcases w))
  /\ (run_success exp' = false -> accuracy exp' <> None).
Proof.
  intros Hb Ht. rewrite (run_black_box_unfold _ _ _ _ Hb Ht).
  match goal with |- context [for_each _ _ ?s] =>
    pose proof (loop_spec (run_timeout setting) tag (testcases w) s) as H
  end.
  destruct (fixture_accuracies (run_timeout setting) (testcases w))
    as [accs|e].
  - destruct H as (st' & -> & Hs & Ha & _).
    cbn [total_accuracy all_success andb] in Hs, Ha. cbn [bind].
    fold (parsed_sum accs) in Hs. rewrite Hs.
    destruct (float_div_int (parsed_sum accs) _) as [mean|] eqn:Hm;
      cbn [bind]; [|discriminate].
    intros H. injection H as <-.
    cbn [accuracy run_success set_accuracy set_docker_output
         set_run_success].
    split; [|split].
    + exists accs, mean. auto.
    + exact Ha.
    + intros _. discriminate.
  - rewrite H. discriminate.
Qed.

Lemma accuracy_set_when_run_failed_witness :
  exists exp',
    _run_black_box sample_setting three_fixtures image_tag
      (new_experiment [T "plan"]) = Ok exp'
    /\ accuracy exp' = Some one_third
    /\ run_success exp' = false.
Proof.
  assert (Hr : exists exp',
            _run_black_box sample_setting three_fixtures image_tag
              (new_experiment [T "plan"]) = Ok exp')
    by (eexists; vm_compute; reflexivity).
  destruct Hr as [exp' Hr]. exists exp'. split; [exact Hr|].
  destruct (accuracy_set_when_run_failed sample_setting three_fixtures
              image_tag (new_experiment [T "plan"]) exp' eq_refl
              ltac:(discriminate) Hr)
    as ((accs & mean & Ha & Hm & Hacc) & Hrun & _).
  split.
  - rewrite Hacc. vm_compute in Ha. injection Ha as <-.
    vm_compute in Hm. injection Hm as <-. reflexivity.
  - rewrite Hrun. reflexivity.
Defined.

(** C3 fails on the code.  The build succeeds and the only fixture exits
    with code 0 and prints "Accuracy: 0.92." with a full stop: the pattern
    captures "0.92.", [float] raises ValueError on it, nothing catches it,
    and [develop] raises instead of returning an experiment. *)
Lemma develop_raises_on_malformed_accuracy :
  develop black_box_scenario sample_setting full_stop_fixture image_tag
    (new_experiment [T "plan"])
  = Raise (ValueError (T "could not convert string to float")).
Proof. vm_compute. reflexivity. Qed.

(** The same fixture without the full stop is scored. *)
Lemma develop_scores_well_formed_accuracy :
  exists exp',
    develop black_box_scenario sample_setting scored_fixture image_tag
      (new_experiment [T "plan"]) = Ok exp'
    /\ accuracy exp' = Some ninety_two_percent
    /\ run_success exp' = true.
Proof. eexists. vm_compute. repeat split. Qed.

(** C6.  When a command runs out of time, [_docker_run] returns the
    message that names the timeout it was given, with the exit status 1;
    it returns a pair whatever [subprocess.run] did.  A build that runs out
    of time gives an experiment with [build_success = false] whose error
    message holds the end of that message, all of it when it has at most
    3000 characters; a fixture that runs out of time is noted with the
    timeout of the run phase. *)
Theorem timeout_is_failure cmd (timeout : Z) :
  _docker_run cmd timeout TimeoutExpired = (timeout_message timeout, 1)
  /\ (forall setting w tag exp,
        build w = TimeoutExpired ->
        exists exp',
          _run_black_box setting w tag exp = Ok exp'
          /\ build_success exp' = false
          /\ error_message exp'
             = T "Docker build failed (exit 1):" ++ nl
               ++ slice_from (-3000) (timeout_message (build_timeout setting))
          /\ (Z.of_nat (List.length (timeout_message (build_timeout setting)))
               <= 3000 ->
              infix (timeout_message (build_timeout setting))
                (error_message exp')))
  /\ (forall rt tag st name,
        exists st',
          testcase_step rt tag st (name, TimeoutExpired) = Ok st'
          /\ all_success st' = false
          /\ error_message (loop_exp st')
             = error_message (loop_exp st) ++ nl ++ T "Testcase " ++ name
               ++ T " failed (exit 1):" ++ nl
               ++ slice_from (-800) (timeout_message rt)).
Proof.
  split; [reflexivity|]. split.
  - intros setting w tag exp Hb. unfold _run_black_box. rewrite Hb.
    cbn [_docker_run]. fold (timeout_message (build_timeout setting)).
    change (negb (1 =? 0)) with true. cbv iota.
    eexists. split; [reflexivity|].
    cbn [build_success error_message set_docker_output set_error_message
         set_build_success].
    split; [reflexivity|]. split; [reflexivity|]. intros Hl.
    rewrite slice_from_all by lia.
    exists (T "Docker build failed (exit " ++ str_of_int 1 ++ T "):" ++ nl), [].
    now rewrite app_nil_r, <- !app_assoc.
  - intros rt tag st name. unfold testcase_step.
    cbn [_docker_run]. fold (timeout_message rt).
    change (negb (1 =? 0)) with true. cbv iota.
    eexists. split; [reflexivity|].
    cbn [all_success loop_exp error_message set_error_message].
    split; [reflexivity|]. do 4 f_equal.
Qed.

Lemma timeout_is_failure_witness :
  exists exp',
    _run_black_box sample_setting slow_build image_tag
      (new_experiment [T "plan"]) = Ok exp'
    /\ build_success exp' = false
    /\ error_message exp'
       = T "Docker build failed (exit 1):" ++ nl
         ++ T "Docker command timed out after 600s".
Proof.
  destruct (proj1 (proj2 (timeout_is_failure [] 600)) sample_setting
              slow_build image_tag (new_experiment [T "plan"]) eq_refl)
    as (exp' & Hr & Hb & He & _).
  exists exp'. split; [exact Hr|]. split; [exact Hb|]. exact He.
Defined.

End BlackBoxTheorems.

(** ** The runner: white box *)

Module WhiteBoxTheorems.

Import FHERunner RunnerSpec Samples.

Local Open Scope string_scope.
Local Open Scope list_scope.
Local Open Scope Z_scope.

Lemma lower_app (a b : text) : lower (a ++ b) = lower a ++ lower b.
Proof. apply map_app. Qed.

Lemma lower_infix (a b : text) : infix a b -> infix (lower a) (lower b).
Proof.
  intros (l & r & ->). exists (lower l), (lower r). now rewrite !lower_app.
Qed.

Lemma has_build_marker_spec output :
  existsb (fun kw => contains kw (lower output)) build_markers = true
  <-> has_build_marker output.
Proof.
  rewrite existsb_exists. unfold has_build_marker.
  split; intros (kw & Hin & H); exists kw; (split; [assumption|]);
    now apply contains_spec.
Qed.

(** C5.  When the validator exits with a code other than 0, the run flag
    is false, the build flag is false exactly when the lowercased output
    holds one of the compiler and linker markers, and the error message
    ends with the last 3000 characters of the output; an output that holds
    "CMake Error" is a build failure. *)
Theorem white_box_failure setting w exp stdout stderr rc :
  validator w = Completed stdout stderr rc ->
  rc <> 0 ->
  exists exp',
    _run_white_box setting w exp = Ok exp'
    /\ run_success exp' = false
    /\ (build_success exp' = false <-> has_build_marker (stdout ++ stderr))
    /\ error_message exp'
       = (if build_success exp'
          then T "Runtime error (exit " ++ str_of_int rc ++ T "):" ++ nl
          else T "Compilation/build error:" ++ nl)
         ++ slice_from (-3000) (stdout ++ stderr)
    /\ docker_output exp' = stdout ++ stderr
    /\ (infix (T "CMake Error") (stdout ++ stderr) -> build_success exp' = false).
Proof.
  intros Hv Hrc. unfold _run_white_box. rewrite Hv. cbn [_docker_run].
  apply Z.eqb_neq in Hrc. rewrite Hrc. cbn [negb].
  pose proof (has_build_marker_spec (stdout ++ stderr)) as Hm.
  assert (Hc : infix (T "CMake Error") (stdout ++ stderr) ->
               has_build_marker (stdout ++ stderr)).
  { intros H. exists (T "cmake error"). split; [now left|].
    now apply lower_infix in H. }
  destruct (existsb _ build_markers).
  - eexists. split; [reflexivity|].
    cbn [run_success build_success error_message docker_output
         set_error_message set_run_success set_build_success
         set_docker_output].
    split; [reflexivity|]. split; [|split; [|split]].
    + split; [intros _; now apply Hm | reflexivity].
    + now rewrite <- app_assoc.
    + reflexivity.
    + reflexivity.
  - eexists. split; [reflexivity|].
    cbn [run_success build_success error_message docker_output
         set_error_message set_run_success set_build_success
         set_docker_output].
    split; [reflexivity|]. split; [|split; [|split]].
    + split; [discriminate|]. intros H. apply Hm in H. discriminate.
    + now rewrite <- !app_assoc.
    + reflexivity.
    + intros H. apply Hc, Hm in H. discriminate.
Qed.

Lemma white_box_failure_witness :
  exists exp',
    _run_white_box sample_setting cmake_failure
      (new_experiment [T "plan"]) = Ok exp'
    /\ build_success exp' = false /\ run_success exp' = false.
Proof.
  destruct (white_box_failure sample_setting cmake_failure
              (new_experiment [T "plan"]) _ _ 1 eq_refl)
    as (exp' & Hr & Hrun & _ & _ & _ & Hb); [discriminate|].
  exists exp'. split; [exact Hr|]. split; [|exact Hrun].
  apply Hb. exists [], (T " at CMakeLists.txt:3 (find_package)"). reflexivity.
Defined.

(** *** The result artifact *)

Lemma combine_map {A B} (f : A -> B) (xs ys : list A) :
  combine (map f xs) (map f ys)
  = map (fun p => (f (fst p), f (snd p))) (combine xs ys).
Proof.
  revert ys; induction xs as [|x xs IH]; intros [|y ys]; simpl;
    try reflexivity. now rewrite IH.
Qed.

Lemma float_of_json_num v : float_of_json (json_of_num v) = float_of_num v.
Proof. now destruct v. Qed.

Lemma bump_nil st : bump st [] = st.
Proof.
  destruct st as [total cor]. unfold bump. cbn [fst snd filter List.length].
  f_equal; lia.
Qed.

Lemma bump_app st a b : bump (bump st a) b = bump st (a ++ b).
Proof.
  unfold bump. simpl. rewrite filter_app, !length_app. f_equal; lia.
Qed.

End WhiteBoxTheorems.

(** ** The judge *)

Module JudgeTheorems.

Import FHEEvaluator.

(** C1.  [generate_feedback] returns [decision = true] exactly when the
    build succeeded, the run succeeded, the accuracy is not None and the
    accuracy is at least the threshold; so a failed build gives a false
    decision, and so does a run that succeeded with no accuracy. *)
Theorem decision_iff format_fixed threshold exp sota_exp :
  (decision (generate_feedback format_fixed threshold exp sota_exp) = true
   <-> build_success exp = true /\ run_success exp = true
       /\ exists a, accuracy exp = Some a /\ PrimFloat.leb threshold a = true)
  /\ (build_success exp = false ->
      decision (generate_feedback format_fixed threshold exp sota_exp) = false)
  /\ (run_success exp = true -> accuracy exp = None ->
      decision (generate_feedback format_fixed threshold exp sota_exp) = false).
Proof.
  unfold generate_feedback.
  destruct (build_success exp), (run_success exp), (accuracy exp) as [a|];
    cbn [negb decision]; (split; [split|split]).
  all: try discriminate.
  all: try (intros (Hb & Hr & b & Ha & Hle); discriminate).
  all: try reflexivity.
  - intros H. repeat split. exists a. split; [reflexivity | exact H].
  - intros (_ & _ & b & Ha & Hle). injection Ha as <-. exact Hle.
Qed.

End JudgeTheorems.

(** ** More on the patcher *)

Module PatcherExtras.

Import ReFacts CoderFacts CoderTheorems FHECoder FHETrace Samples ExtraSpec.

Local Open Scope string_scope.
Local Open Scope list_scope.

Lemma search_marker_split s m :
  search marker s = Some m ->
  s = firstn (m_end m) s ++ m_rest m
  /\ List.length (firstn (m_end m) s) = m_end m
  /\ (0 < m_end m)%nat.
Proof.
  intros H. destruct (marker_search_stable _ _ H) as (p0 & Es & He & _).
  assert (Hl : List.length (p0 ++ ["{"%char]) = m_end m)
    by (rewrite length_app, He; simpl; lia).
  assert (Hf : firstn (m_end m) s = p0 ++ ["{"%char]).
  { rewrite Es, <- Hl, firstn_app, firstn_all, Nat.sub_diag, firstn_0.
    apply app_nil_r. }
  rewrite Hf. repeat split; [exact Es | exact Hl | lia].
Qed.

(** The scan over a balanced text followed by a closing brace stops right
    after that brace. *)
Lemma brace_loop_body inner post :
  balanced inner ->
  brace_loop (inner ++ "}"%char :: post) 1 0 = S (List.length inner).
Proof.
  intros Hb. rewrite (brace_loop_through inner 0 0 0) by exact Hb.
  simpl. now destruct post.
Qed.

(** The scan over an injected body stops right after the first character
    of what follows it, when that is a closing brace or the end. *)
Lemma brace_loop_injected body (tail : text) :
  balanced body ->
  (exists c, tail = [c]) \/ (exists t, tail = "}"%char :: t) ->
  brace_loop ((nl ++ body ++ nl) ++ tail) 1 0 = List.length body + 3.
Proof.
  intros Hb Ht. unfold nl. simpl. rewrite <- app_assoc.
  rewrite (brace_loop_through body 0 0 0) by exact Hb.
  simpl. rewrite brace_loop_shift, (brace_loop_closed _ Ht). lia.
Qed.

Lemma inject_shape template_cpp eval_body m :
  search marker template_cpp = Some m ->
  _inject_eval_body template_cpp eval_body =
  Ok (firstn (m_end m) template_cpp
      ++ (nl ++ eval_body ++ nl)
      ++ skipn (brace_loop (m_rest m) 1 0) ("{"%char :: m_rest m)).
Proof.
  intros Hs. destruct (marker_search_stable _ _ Hs) as (p0 & Et & He & _).
  rewrite (inject_unfold _ _ _ _ Hs Et He). do 2 f_equal.
  destruct (search_marker_split _ _ Hs) as (E1 & _).
  rewrite Et in E1 at 1. apply app_inv_tail in E1. exact E1.
Qed.

(** X1.  Injection replaces the text between the opening brace of the first
    marker and its matching closing brace, and keeps all the rest: what is
    before the body, and the closing brace with what follows it. *)
Theorem inject_replaces_body template_cpp eval_body m inner post :
  search marker template_cpp = Some m ->
  m_rest m = inner ++ "}"%char :: post ->
  balanced inner ->
  _inject_eval_body template_cpp eval_body
  = Ok (firstn (m_end m) template_cpp
        ++ nl ++ eval_body ++ nl ++ "}"%char :: post).
Proof.
  intros Hs Hr Hb. rewrite (inject_shape _ _ _ Hs), Hr.
  rewrite brace_loop_body by exact Hb. cbn [skipn].
  rewrite skipn_app, skipn_all, Nat.sub_diag. cbn [skipn app].
  now rewrite <- !app_assoc.
Qed.

Lemma inject_replaces_body_witness :
  _inject_eval_body sample_template (T "y = f(x);")
  = Ok (T "void Solution::eval() {" ++ nl ++ T "y = f(x);" ++ nl ++ T "}").
Proof.
  destruct (search marker sample_template) as [m|] eqn:Hs;
    [|vm_compute in Hs; discriminate].
  assert (Hr : m_rest m = T " old(); " ++ "}"%char :: [])
    by (vm_compute in Hs; injection Hs as <-; reflexivity).
  assert (He : firstn (m_end m) sample_template = T "void Solution::eval() {")
    by (vm_compute in Hs; injection Hs as <-; reflexivity).
  rewrite (inject_replaces_body _ (T "y = f(x);") _ _ _ Hs Hr eq_refl), He.
  reflexivity.
Defined.

(** X2.  A second injection overwrites the first: injecting a body into the
    result of an injection gives what injecting it into the template
    gives. *)
Theorem inject_overwrites template_cpp body1 body2 :
  occurs marker template_cpp ->
  balanced body1 ->
  exists patched,
    _inject_eval_body template_cpp body1 = Ok patched
    /\ _inject_eval_body patched body2 = _inject_eval_body template_cpp body2.
Proof.
  intros Ho Hb.
  apply (search_occurs _ _ marker_deterministic marker_anchored) in Ho.
  destruct (search marker template_cpp) as [m|] eqn:Hs; [clear Ho|congruence].
  destruct (marker_search_stable _ _ Hs) as (p0 & Et & He & _ & Hx).
  rewrite !(inject_unfold _ _ _ _ Hs Et He).
  set (tail := skipn (brace_loop (m_rest m) 1 0) ("{"%char :: m_rest m)).
  eexists. split; [reflexivity|].
  destruct (Hx ((nl ++ body1 ++ nl) ++ tail)) as (m' & Hs' & Hr' & He').
  rewrite He in He'.
  rewrite (inject_unfold _ body2 m' p0 Hs') by (rewrite ?Hr'; auto).
  rewrite Hr'. do 3 f_equal.
  rewrite brace_loop_injected by (exact Hb || apply brace_loop_tail).
  replace (List.length body1 + 3)
    with (S (List.length (nl ++ body1 ++ nl)))
    by (rewrite !length_app; simpl; lia).
  cbn [skipn]. now rewrite skipn_app, skipn_all, Nat.sub_diag.
Qed.

Lemma inject_overwrites_witness :
  exists patched,
    _inject_eval_body sample_template (T "a = 1;") = Ok patched
    /\ _inject_eval_body patched (T "b = 2;")
       = _inject_eval_body sample_template (T "b = 2;").
Proof.
  apply inject_overwrites; [|reflexivity].
  apply (search_occurs _ _ marker_deterministic marker_anchored).
  vm_compute. discriminate.
Defined.

(** *** Strip *)

Lemma drop_while_rev_head p (s : text) :
  drop_while p (rev (drop_while p (rev (drop_while p s))))
  = rev (drop_while p (rev (drop_while p s))).
Proof.
  destruct (drop_while p s) as [|c t] eqn:E; [reflexivity|].
  pose proof (drop_while_head p s c t E) as Hc.
  destruct (drop_while p (rev (c :: t))) as [|d u] eqn:E2; [reflexivity|].
  assert (Hlast : exists v, rev (d :: u) = c :: v).
  { destruct (drop_while_suffix p (rev (c :: t))) as [w Hw].
    rewrite E2 in Hw. apply (f_equal (@rev ascii)) in Hw.
    rewrite rev_involutive, rev_app_distr in Hw.
    destruct (rev (d :: u)) as [|x v] eqn:Er.
    - apply (f_equal (@rev ascii)) in Er. rewrite rev_involutive in Er.
      discriminate.
    - simpl in Hw. injection Hw as <- _. now exists v. }
  destruct Hlast as [v ->]. simpl. now rewrite Hc.
Qed.

(** [strip] leaves no white space at either end. *)
Lemma strip_idem (s : text) : strip (strip s) = strip s.
Proof.
  unfold strip. rewrite drop_while_rev_head, rev_involutive.
  apply drop_while_rev_head.
Qed.

(** X3.  Stripping a wrapper never adds text: the result lies inside the code,
    and when the marker occurs it has no white space at its ends. *)
Theorem strip_wrapper_inside (code : text) :
  infix (_strip_eval_wrapper code) code
  /\ (occurs marker code ->
      strip (_strip_eval_wrapper code) = _strip_eval_wrapper code).
Proof.
  destruct (search marker code) as [m|] eqn:Hs.
  - split.
    + apply infix_trans with (m_rest m); [now apply strip_result_infix|].
      destruct (search_marker_split _ _ Hs) as (E & _).
      exists (firstn (m_end m) code), []. now rewrite app_nil_r.
    + intros _. rewrite strip_unfold, Hs. apply strip_idem.
  - split.
    + rewrite strip_unfold, Hs. apply infix_refl.
    + intros Ho.
      apply (search_occurs _ _ marker_deterministic marker_anchored) in Ho.
      congruence.
Qed.

(** X4.  The wrapper of a function whose body is closed is stripped to that
    body, without the white space at its ends, whatever follows the closing
    brace. *)
Theorem strip_wrapper_extracts_body code m body post :
  search marker code = Some m ->
  m_rest m = body ++ "}"%char :: post ->
  balanced body ->
  _strip_eval_wrapper code = strip body.
Proof.
  intros Hs Hr Hb. rewrite strip_unfold, Hs, Hr.
  rewrite brace_loop_body by exact Hb. unfold slice_to.
  replace (Z.of_nat (S (List.length body)) - 1 <? 0)%Z with false
    by (symmetry; apply Z.ltb_ge; lia).
  replace (Z.to_nat (Z.of_nat (S (List.length body)) - 1))
    with (List.length body) by lia.
  now rewrite firstn_app, firstn_all, Nat.sub_diag, firstn_0, app_nil_r.
Qed.

Lemma strip_wrapper_extracts_body_witness :
  _strip_eval_wrapper (T "void A::eval() { if (a) { b(); } } int main() {}")
  = T "if (a) { b(); }".
Proof.
  destruct (search marker
              (T "void A::eval() { if (a) { b(); } } int main() {}"))
    as [m|] eqn:Hs; [|vm_compute in Hs; discriminate].
  assert (Hr : m_rest m = T " if (a) { b(); } " ++ "}"%char :: T " int main() {}")
    by (vm_compute in Hs; injection Hs as <-; reflexivity).
  rewrite (strip_wrapper_extracts_body _ _ _ _ Hs Hr eq_refl).
  vm_compute. reflexivity.
Defined.

(** *** The dashboard *)

Lemma brace_loop_le s : forall d, (brace_loop s d 0 <= List.length s)%nat.
Proof.
  induction s as [|c s IH]; intros d; simpl; [lia|].
  destruct d as [|d]; [lia|]. rewrite brace_loop_shift.
  match goal with |- context [brace_loop s ?x 0] => specialize (IH x) end. lia.
Qed.

Lemma brace_loop_zero s d : brace_loop s (S d) 0 = 0 -> s = [].
Proof.
  destruct s as [|c s]; [reflexivity|]. simpl. rewrite brace_loop_shift. lia.
Qed.

Lemma slice_span (start n : nat) (s : text) :
  (0 < start <= List.length s)%nat ->
  (n <= List.length s - start)%nat ->
  (n = 0 -> start = List.length s)%nat ->
  slice (Z.of_nat start) (Z.of_nat (start + n) - 1) s
  = slice_to (Z.of_nat n - 1) (skipn start s).
Proof.
  intros Hs Hn H0. unfold slice, slice_to. rewrite length_skipn.
  replace (Z.of_nat start <? 0)%Z with false
    by (symmetry; apply Z.ltb_ge; lia).
  replace (Z.of_nat (start + n) - 1 <? 0)%Z with false
    by (symmetry; apply Z.ltb_ge; lia).
  replace (Z.to_nat (Z.min (Z.of_nat start) (Z.of_nat (List.length s))))
    with start by lia.
  destruct n as [|n].
  - specialize (H0 eq_refl). rewrite skipn_all2 by lia.
    now rewrite !firstn_nil.
  - replace (Z.of_nat (S n) - 1 <? 0)%Z with false
      by (symmetry; apply Z.ltb_ge; lia).
    f_equal. lia.
Qed.

Lemma extract_unfold (cpp_code : text) :
  _extract_eval_body cpp_code =
  match search marker cpp_code with
  | None => None
  | Some _ =>
      match _strip_eval_wrapper cpp_code with
      | [] => None
      | body => Some body
      end
  end.
Proof.
  unfold _extract_eval_body. rewrite strip_unfold.
  destruct (search marker cpp_code) as [m|] eqn:Hs; [|reflexivity].
  destruct (search_marker_split _ _ Hs) as (Es & Hl & Hpos).
  assert (Hk : skipn (m_end m) cpp_code = m_rest m).
  { rewrite Es at 1. rewrite <- Hl at 1.
    now rewrite skipn_app, skipn_all, Nat.sub_diag. }
  assert (Hlen : List.length cpp_code = (m_end m + List.length (m_rest m))%nat).
  { rewrite Es at 1. rewrite length_app, Hl. reflexivity. }
  unfold slice_from.
  replace (Z.of_nat (m_end m) <? 0)%Z with false
    by (symmetry; apply Z.ltb_ge; lia).
  rewrite Nat2Z.id, Hk, (brace_loop_shift _ 1 (m_end m)).
  pose proof (brace_loop_le (m_rest m) 1) as Hle.
  rewrite slice_span, Hk.
  - now destruct (strip _).
  - lia.
  - lia.
  - intros H. apply brace_loop_zero in H. rewrite H in Hlen. simpl in Hlen. lia.
Qed.

(** X5.  The dashboard and the developer cut the body the same way:
    [_extract_eval_body] returns what [_strip_eval_wrapper] returns when
    the marker occurs and that text is not empty, and nothing otherwise. *)
Theorem extract_agrees_with_strip (cpp_code : text) :
  _extract_eval_body cpp_code =
  match search marker cpp_code with
  | None => None
  | Some _ =>
      match _strip_eval_wrapper cpp_code with
      | [] => None
      | body => Some body
      end
  end.
Proof. exact (extract_unfold cpp_code). Qed.

(** X6.  What the developer injected is what the dashboard shows: after an
    injection of a body with balanced braces, [_extract_eval_body] returns
    that body without the white space at its ends, or nothing when the body
    is blank. *)
Theorem extract_after_inject template_cpp eval_body :
  occurs marker template_cpp ->
  balanced eval_body ->
  exists patched,
    _inject_eval_body template_cpp eval_body = Ok patched
    /\ _extract_eval_body patched
       = match strip eval_body with
         | [] => None
         | body => Some body
         end.
Proof.
  intros Ho Hb.
  apply (search_occurs _ _ marker_deterministic marker_anchored) in Ho.
  destruct (search marker template_cpp) as [m|] eqn:Hs; [clear Ho|congruence].
  destruct (marker_search_stable _ _ Hs) as (p0 & Et & He & _ & Hx).
  rewrite (inject_unfold _ _ _ _ Hs Et He).
  set (tail := skipn (brace_loop (m_rest m) 1 0) ("{"%char :: m_rest m)).
  eexists. split; [reflexivity|].
  destruct (Hx ((nl ++ eval_body ++ nl) ++ tail)) as (m' & Hs' & Hr' & _).
  rewrite extract_unfold, Hs', strip_unfold, Hs', Hr'.
  rewrite brace_loop_injected by (exact Hb || apply brace_loop_tail).
  unfold slice_to.
  replace (Z.of_nat (List.length eval_body + 3) - 1 <? 0)%Z with false
    by (symmetry; apply Z.ltb_ge; lia).
  replace (Z.to_nat (Z.of_nat (List.length eval_body + 3) - 1))
    with (List.length (nl ++ eval_body ++ nl))
    by (rewrite !length_app; simpl; lia).
  rewrite firstn_app, firstn_all, Nat.sub_diag, firstn_0, app_nil_r.
  unfold nl. simpl. now rewrite strip_padded.
Qed.

Lemma extract_after_inject_witness :
  exists patched,
    _inject_eval_body sample_template (T "  y = f(x);  ") = Ok patched
    /\ _extract_eval_body patched = Some (T "y = f(x);").
Proof.
  apply (extract_after_inject sample_template (T "  y = f(x);  "));
    [|reflexivity].
  apply (search_occurs _ _ marker_deterministic marker_anchored).
  vm_compute. discriminate.
Defined.



End PatcherExtras.

(** ** More on the runner *)

Module RunnerExtras.

Import ReFacts FHERunner RunnerSpec ExtraSpec BlackBoxTheorems Samples.

Local Open Scope string_scope.
Local Open Scope list_scope.

(** *** [float] on the texts the accuracy patterns capture *)

Lemma digit_or_dot_cases c :
  digit_or_dot c = true -> is_digit c = true \/ c = "."%char.
Proof.
  unfold digit_or_dot. intros H. apply orb_prop in H as [H|H]; [now left|].
  right. now apply Ascii.eqb_eq in H.
Qed.

Lemma take_while_forall p (s : text) :
  forallb p s = true -> take_while p s = s /\ drop_while p s = [].
Proof.
  induction s as [|c s IH]; simpl; [auto|]. intros H.
  apply andb_prop in H as [Hc Hs]. rewrite Hc.
  destruct (IH Hs) as [-> ->]. auto.
Qed.

Lemma forallb_take_drop p q (s : text) :
  forallb q s = true ->
  forallb q (take_while p s) = true /\ forallb q (drop_while p s) = true.
Proof.
  induction s as [|c s IH]; simpl; [auto|]. intros H.
  apply andb_prop in H as [Hc Hs]. destruct (IH Hs) as [H1 H2].
  destruct (p c); simpl; rewrite ?Hc, ?Hs, ?H1; auto.
Qed.

Lemma drop_underscores_plain s : forall prev,
  prev <> "_"%char -> forallb digit_or_dot s = true ->
  drop_underscores prev s = Some s.
Proof.
  induction s as [|c s IH]; intros prev Hp Hs; simpl.
  - destruct (Ascii.eqb prev "_") eqn:E; [|reflexivity].
    apply Ascii.eqb_eq in E. contradiction.
  - simpl in Hs. apply andb_prop in Hs as [Hc Hs].
    assert (Hcu : c <> "_"%char).
    { intros ->. discriminate. }
    apply Ascii.eqb_neq in Hcu. rewrite Hcu.
    apply Ascii.eqb_neq in Hp. rewrite Hp. simpl.
    rewrite IH; [reflexivity | now apply Ascii.eqb_neq | assumption].
Qed.

Lemma digit_or_dot_head c :
  digit_or_dot c = true ->
  is_float_space c = false /\ c <> "-"%char /\ c <> "+"%char
  /\ lower_char c <> "i"%char /\ lower_char c <> "n"%char.
Proof.
  intros H. apply digit_or_dot_cases in H as [H | ->].
  - unfold is_digit, between in H. apply andb_prop in H as [H1 H2].
    apply N.leb_le in H1. apply N.leb_le in H2.
    destruct c as [b0 b1 b2 b3 b4 b5 b6 b7].
    destruct b0, b1, b2, b3, b4, b5, b6, b7;
      try (vm_compute in H1; contradiction);
      try (vm_compute in H2; contradiction);
      vm_compute; repeat split; discriminate.
  - vm_compute. repeat split; discriminate.
Qed.

Lemma special_of_plain neg g :
  forallb digit_or_dot g = true -> special_of neg g = None.
Proof.
  intros Hg. unfold special_of.
  destruct g as [|c g]; [reflexivity|].
  simpl in Hg. apply andb_prop in Hg as [Hc _].
  destruct (digit_or_dot_head c Hc) as (_ & _ & _ & Hi & Hn).
  apply Ascii.eqb_neq in Hi. apply Ascii.eqb_neq in Hn.
  cbn [lower map T list_ascii_of_string text_eqb].
  now rewrite Hi, Hn.
Qed.

Lemma strip_float_space_plain g :
  forallb digit_or_dot g = true ->
  rev (drop_while is_float_space (rev (drop_while is_float_space g))) = g.
Proof.
  intros Hg.
  assert (Hd : forall s, forallb digit_or_dot s = true ->
                         drop_while is_float_space s = s).
  { intros [|c s] H; [reflexivity|]. simpl in H.
    apply andb_prop in H as [Hc _].
    destruct (digit_or_dot_head c Hc) as (Hsp & _). simpl. now rewrite Hsp. }
  rewrite (Hd g Hg), Hd, rev_involutive; [reflexivity|].
  rewrite forallb_forall in *. intros x Hx. apply Hg. now apply in_rev.
Qed.

Lemma split_sign_plain g :
  forallb digit_or_dot g = true -> split_sign g = (false, g).
Proof.
  intros Hg. destruct g as [|c g]; [reflexivity|].
  simpl in Hg. apply andb_prop in Hg as [Hc _].
  destruct (digit_or_dot_head c Hc) as (_ & Hm & Hp & _).
  unfold split_sign.
  destruct c as [b0 b1 b2 b3 b4 b5 b6 b7].
  destruct b0, b1, b2, b3, b4, b5, b6, b7; try reflexivity;
    contradiction.
Qed.

(** On a text of digits and points, [float] is this reading. *)
Lemma float_of_str_plain g :
  forallb digit_or_dot g = true ->
  float_of_str g =
  let ip := take_while is_digit g in
  match drop_while is_digit g with
  | [] => match ip with
          | [] => Raise could_not_convert
          | _ :: _ => Ok (plain_decimal_value ip [])
          end
  | _ :: r =>
      match drop_while is_digit r, ip ++ take_while is_digit r with
      | [], (_ :: _) as digits =>
          Ok (plain_decimal_value ip (take_while is_digit r))
      | _, _ => Raise could_not_convert
      end
  end.
Proof.
  intros Hg. unfold float_of_str.
  rewrite drop_underscores_plain by (assumption || discriminate).
  rewrite strip_float_space_plain, split_sign_plain by assumption.
  rewrite special_of_plain by assumption.
  destruct (forallb_take_drop is_digit digit_or_dot g Hg) as [_ Hrest].
  destruct (drop_while is_digit g) as [|c r] eqn:Ed.
  - rewrite app_nil_r. cbn [exponent_of].
    destruct (take_while is_digit g) as [|d ds] eqn:Et; [reflexivity|].
    unfold plain_decimal_value. rewrite app_nil_r. reflexivity.
  - pose proof (drop_while_head _ _ _ _ Ed) as Hc.
    simpl in Hrest. apply andb_prop in Hrest as [Hcd Hr].
    apply digit_or_dot_cases in Hcd as [Hcd | ->]; [congruence|].
    destruct (forallb_take_drop is_digit digit_or_dot r Hr) as [_ Hrest2].
    destruct (drop_while is_digit r) as [|c2 r2] eqn:Ed2.
    + cbn [exponent_of].
      destruct (take_while is_digit g ++ take_while is_digit r) eqn:Ea;
        [reflexivity|].
      unfold plain_decimal_value. rewrite Ea.
      now rewrite Z.sub_0_l.
    + pose proof (drop_while_head _ _ _ _ Ed2) as Hc2.
      simpl in Hrest2. apply andb_prop in Hrest2 as [Hcd2 _].
      apply digit_or_dot_cases in Hcd2 as [Hcd2 | ->]; [congruence|].
      cbn [exponent_of Ascii.eqb Bool.eqb orb].
      now destruct (take_while is_digit g ++ take_while is_digit r).
Qed.

Lemma digits_are_plain (s : text) :
  forallb is_digit s = true -> forallb digit_or_dot s = true.
Proof.
  intros Hs. rewrite forallb_forall in *. intros x Hx.
  unfold digit_or_dot. now rewrite (Hs x Hx).
Qed.

(** [float] reads a plain decimal as its value. *)
Lemma float_of_decimal_parts g ip fp :
  decimal_parts g ip fp -> float_of_str g = Ok (plain_decimal_value ip fp).
Proof.
  intros (Hi & Hf & [(-> & -> & Hn) | (-> & Hne)]).
  - rewrite float_of_str_plain by now apply digits_are_plain.
    cbv zeta. destruct (take_while_forall is_digit ip Hi) as [-> ->].
    now destruct ip.
  - rewrite float_of_str_plain.
    + cbv zeta. rewrite take_while_stop, drop_while_stop by auto.
      destruct (take_while_forall is_digit fp Hf) as [-> ->].
      now destruct (ip ++ fp).
    + rewrite forallb_app. simpl. now rewrite !digits_are_plain.
Qed.

(** On the other texts of digits and points it raises ValueError. *)
Lemma float_of_str_not_plain g :
  forallb digit_or_dot g = true -> ~ plain_decimal g ->
  float_of_str g = Raise could_not_convert.
Proof.
  intros Hg Hn. rewrite float_of_str_plain by assumption. cbv zeta.
  pose proof (take_drop_while is_digit g) as Eg.
  pose proof (take_while_all is_digit g) as Hi.
  destruct (drop_while is_digit g) as [|c r] eqn:Ed.
  - destruct (take_while is_digit g) as [|d ds] eqn:Et; [reflexivity|].
    exfalso. apply Hn. exists (d :: ds), []. repeat split; [assumption|].
    left. rewrite app_nil_r in Eg. repeat split; [now symmetry | discriminate].
  - destruct (forallb_take_drop is_digit digit_or_dot g Hg) as [_ Hrest].
    rewrite Ed in Hrest. simpl in Hrest.
    apply andb_prop in Hrest as [Hcd _].
    pose proof (drop_while_head _ _ _ _ Ed) as Hc.
    apply digit_or_dot_cases in Hcd as [Hcd | ->]; [congruence|].
    pose proof (take_drop_while is_digit r) as Er.
    destruct (drop_while is_digit r) as [|c2 r2]; [|reflexivity].
    rewrite app_nil_r in Er.
    destruct (take_while is_digit g ++ take_while is_digit r) eqn:Ea;
      [reflexivity|].
    exfalso. apply Hn.
    exists (take_while is_digit g), (take_while is_digit r).
    repeat split; [assumption | apply take_while_all |].
    right. split; [now rewrite Er | now rewrite Ea].
Qed.

(** Whatever [float] raises on a text, it is that ValueError. *)
Lemma float_of_str_raises s e :
  float_of_str s = Raise e -> e = could_not_convert.
Proof.
  unfold float_of_str, could_not_convert.
  destruct (drop_underscores _ s) as [s1|]; [|now intros [= <-]].
  destruct (split_sign _) as [neg body].
  destruct (special_of neg body); [discriminate|].
  destruct (drop_while is_digit body) as [|c r].
  - destruct (_ ++ _); [now intros [= <-]|].
    destruct (exponent_of _); [discriminate | now intros [= <-]].
  - destruct c as [[] [] [] [] [] [] [] []];
      (destruct (_ ++ _); [now intros [= <-]|]);
      (destruct (exponent_of _); [discriminate | now intros [= <-]]).
Qed.

(** *** What the items of a match hold *)

Lemma run_segs p : forall s segs r,
  run p s = Some (segs, r) -> Forall2 seg_fits p segs.
Proof.
  induction p as [|it p IH]; intros s segs r H.
  - simpl in H. injection H as <- <-. constructor.
  - destruct it as [cls|cls|cls]; simpl in H.
    + destruct s as [|c s]; [discriminate|].
      destruct (cls c) eqn:Ec; [|discriminate].
      destruct (run p s) as [[sg r']|] eqn:E; [|discriminate].
      simpl in H. injection H as <- <-. constructor; [|eauto].
      split; [simpl; now rewrite Ec | discriminate].
    + destruct (run p (drop_while cls s)) as [[sg r']|] eqn:E; [|discriminate].
      simpl in H. injection H as <- <-. constructor; [|eauto].
      split; [apply take_while_all | exact I].
    + destruct s as [|c s]; [discriminate|].
      destruct (cls c) eqn:Ec; [|discriminate].
      destruct (run p (drop_while cls s)) as [[sg r']|] eqn:E; [|discriminate].
      simpl in H. injection H as <- <-. constructor; [|eauto].
      split; [|discriminate]. simpl. rewrite Ec. apply take_while_all.
Qed.

Lemma Forall2_nth {A B} (R : A -> B -> Prop) (xs : list A) (ys : list B) :
  Forall2 R xs ys ->
  forall i x d, nth_error xs i = Some x -> R x (nth i ys d).
Proof.
  induction 1 as [|x0 y0 xs ys H0 _ IH]; intros i x d Hi.
  - now destruct i.
  - destruct i as [|i]; simpl in *; [now injection Hi as <- | eauto].
Qed.

(** A match of a pattern of the scenario: the searched text around it, and
    what each item took. *)
Lemma search_match p s m :
  deterministic p = true -> search p s = Some m ->
  (exists pre, s = pre ++ List.concat (m_segs m) ++ m_rest m)
  /\ lang p (List.concat (m_segs m))
  /\ Forall2 seg_fits p (m_segs m).
Proof.
  intros Hd H. apply search_from_Some in H
    as (pre & suf & -> & _ & He & _).
  rewrite exec_run in He by assumption.
  pose proof (run_segs _ _ _ _ He) as Hs.
  apply run_sound in He as (-> & Hl & _). eauto.
Qed.

Lemma lang_lits (w : string) m : lang (lits w) m -> m = T w.
Proof.
  unfold lits, T. revert m.
  induction (list_ascii_of_string w) as [|a l IH]; intros m H; simpl in H.
  - exact H.
  - destruct H as (c & m' & -> & Hc & Hm). unfold is_char in Hc.
    apply Ascii.eqb_eq in Hc. subst c. f_equal. now apply IH.
Qed.

(** A match of a pattern that starts with a word shows the word in the
    text. *)
Lemma search_needs_word (w : string) q s m :
  deterministic (lits w ++ q) = true ->
  search (lits w ++ q) s = Some m -> infix (T w) s.
Proof.
  intros Hd H. apply search_match in H as ((pre & ->) & Hl & _); [|exact Hd].
  apply lang_app in Hl as (m1 & m2 & -> & H1 & _).
  apply lang_lits in H1. subst m1.
  exists pre, (m2 ++ m_rest m). now rewrite <- !app_assoc.
Qed.

Lemma accuracy_re_deterministic : deterministic accuracy_re = true.
Proof. vm_compute. reflexivity. Qed.

Lemma slots_re_deterministic : deterministic slots_re = true.
Proof. vm_compute. reflexivity. Qed.

Lemma accuracy_group output m :
  search accuracy_re output = Some m ->
  forallb digit_or_dot (group_at 10 m) = true /\ group_at 10 m <> [].
Proof.
  intros H.
  apply search_match in H as (_ & _ & Hs);
    [|exact accuracy_re_deterministic].
  exact (Forall2_nth _ _ _ Hs 10 (Plus digit_or_dot) [] eq_refl).
Qed.

(** X8.  When the output holds the word "Accuracy:", white space and then
    digits or points, the black-box parser reads the first such run of
    digits and points with [float]: it returns its value when the run is a
    plain decimal (digits with at most one point), and raises ValueError on
    every other run. *)
Theorem accuracy_line_value output m :
  search accuracy_re output = Some m ->
  forallb digit_or_dot (group_at 10 m) = true /\ group_at 10 m <> []
  /\ (forall ip fp,
        decimal_parts (group_at 10 m) ip fp ->
        _parse_accuracy_black_box output
        = Ok (Some (plain_decimal_value ip fp)))
  /\ (~ plain_decimal (group_at 10 m) ->
      _parse_accuracy_black_box output = Raise could_not_convert).
Proof.
  intros H. destruct (accuracy_group _ _ H) as [Hg Hn].
  unfold _parse_accuracy_black_box. rewrite H.
  repeat split; [assumption | assumption | |].
  - intros ip fp Hp. now rewrite (float_of_decimal_parts _ _ _ Hp).
  - intros Hp. now rewrite float_of_str_not_plain.
Qed.

Lemma accuracy_line_value_witness :
  _parse_accuracy_black_box (T "score" ++ nl ++ T "Accuracy:  0.92 ok")
  = Ok (Some ninety_two_percent).
Proof.
  refine (proj1 (proj2 (proj2
    (accuracy_line_value (T "score" ++ nl ++ T "Accuracy:  0.92 ok")
       {| m_start := 6; m_end := 21;
          m_segs := map (fun c => [c]) (T "Accuracy:") ++ [T "  "; T "0.92"];
          m_rest := T " ok" |} _))) (T "0") (T "92") _).
  - vm_compute. reflexivity.
  - repeat split; try reflexivity. right. split; [reflexivity | discriminate].
Defined.

(** X9.  An output that holds neither "Accuracy:" nor "Slots passed:" has
    no accuracy: the black-box parser returns None and raises nothing. *)
Theorem no_marker_no_accuracy output :
  contains (T "Accuracy:") output = false ->
  contains (T "Slots passed:") output = false ->
  _parse_accuracy_black_box output = Ok None.
Proof.
  intros Ha Hs. unfold _parse_accuracy_black_box.
  destruct (search accuracy_re output) as [m|] eqn:E.
  - apply (search_needs_word "Accuracy:") in E;
      [|exact accuracy_re_deterministic].
    apply contains_spec in E. congruence.
  - destruct (search slots_re output) as [m|] eqn:E2; [|reflexivity].
    apply (search_needs_word "Slots passed:") in E2;
      [|exact slots_re_deterministic].
    apply contains_spec in E2. congruence.
Qed.

Lemma no_marker_no_accuracy_witness :
  _parse_accuracy_black_box (T "Segmentation fault (core dumped)") = Ok None.
Proof.
  apply no_marker_no_accuracy; reflexivity.
Defined.

Lemma int_truediv_raises a b e :
  (0 < b)%Z -> int_truediv a b = Raise e -> e = OverflowError.
Proof.
  intros Hb. unfold int_truediv.
  destruct b as [|b|b]; try lia. cbn [Z.abs].
  destruct (Z.abs a); try discriminate.
  destruct (is_infinite _); [now intros [= <-] | discriminate].
Qed.

Lemma int_of_digits_raises ds e :
  int_of_digits ds = Raise e -> e = exceeds_digit_limit (List.length ds).
Proof.
  unfold int_of_digits. destruct (4300 <? _)%Z; [|discriminate].
  now intros [= <-].
Qed.

(** X10.  The black-box parser raises nothing but ValueError, from [float]
    on a malformed number or from [int] on a slot count of more than 4300
    digits, and the OverflowError of a slot quotient too large for a
    float: a zero slot total gives None, never ZeroDivisionError. *)
Theorem parser_raises_only output e :
  _parse_accuracy_black_box output = Raise e ->
  e = could_not_convert
  \/ (exists digits, (4300 < digits)%nat /\ e = exceeds_digit_limit digits)
  \/ e = OverflowError.
Proof.
  assert (Hint : forall ds e0, int_of_digits ds = Raise e0 ->
            exists digits,
              (4300 < digits)%nat /\ e0 = exceeds_digit_limit digits).
  { intros ds e0 H. exists (List.length ds).
    split; [|now apply int_of_digits_raises].
    unfold int_of_digits in H.
    destruct (4300 <? Z.of_nat (List.length ds))%Z eqn:E; [|discriminate].
    apply Z.ltb_lt in E. lia. }
  unfold _parse_accuracy_black_box.
  destruct (search accuracy_re output) as [m|].
  - destruct (float_of_str _) as [x|e'] eqn:E; cbn [bind]; [discriminate|].
    intros [= <-]. left. eapply float_of_str_raises, E.
  - destruct (search slots_re output) as [m|]; [|discriminate].
    destruct (int_of_digits (group_at 16 m)) as [total|e'] eqn:Et;
      cbn [bind]; [|intros [= <-]; right; left; eapply Hint, Et].
    destruct (0 <? total)%Z eqn:Ez; [|discriminate].
    apply Z.ltb_lt in Ez.
    destruct (int_of_digits (group_at 14 m)) as [passed|e'] eqn:Ep;
      cbn [bind]; [|intros [= <-]; right; left; eapply Hint, Ep].
    destruct (int_truediv _ _) as [x|e'] eqn:E; cbn [bind]; [discriminate|].
    intros [= <-]. right. right. eapply int_truediv_raises; eassumption.
Qed.

Lemma parser_raises_only_witness :
  exists e,
    _parse_accuracy_black_box
      (T "Slots passed: 1/" ++ repeat "9"%char 4301) = Raise e
    /\ (e = could_not_convert
        \/ (exists digits,
              (4300 < digits)%nat /\ e = exceeds_digit_limit digits)
        \/ e = OverflowError).
Proof.
  assert (H : exists e,
            _parse_accuracy_black_box
              (T "Slots passed: 1/" ++ repeat "9"%char 4301) = Raise e)
    by (eexists; vm_compute; reflexivity).
  destruct H as [e H]. exists e. split; [exact H|].
  exact (parser_raises_only _ _ H).
Defined.

(** *** The black-box run *)

Lemma step_outputs rt tag st tc st1 :
  testcase_step rt tag st tc = Ok st1 ->
  run_outputs st1 = run_outputs st ++ [fixture_block rt tc]
  /\ error_message (loop_exp st1)
     = error_message (loop_exp st) ++ failure_note rt tc.
Proof.
  destruct tc as [name o].
  unfold testcase_step, fixture_block, failure_note. cbn [fst snd].
  rewrite (docker_run_cmd _ [] rt o).
  destruct (_docker_run [] rt o) as [run_output run_rc]. cbn [fst].
  destruct (run_rc =? 0)%Z; cbn [negb].
  - destruct (_parse_accuracy_black_box run_output); cbn [bind];
      [|discriminate].
    intros [= <-]. cbn [run_outputs loop_exp]. now rewrite app_nil_r.
  - intros [= <-]. cbn [run_outputs loop_exp error_message set_error_message].
    split; reflexivity.
Qed.

Lemma loop_outputs rt tag tcs : forall st st',
  for_each (testcase_step rt tag) tcs st = Ok st' ->
  run_outputs st' = run_outputs st ++ map (fixture_block rt) tcs
  /\ error_message (loop_exp st')
     = error_message (loop_exp st) ++ List.concat (map (failure_note rt) tcs).
Proof.
  induction tcs as [|tc tcs IH]; intros st st' H; cbn [for_each] in H.
  - injection H as <-. cbn [map List.concat]. now rewrite !app_nil_r.
  - destruct (testcase_step rt tag st tc) as [st1|] eqn:E; cbn [bind] in H;
      [|discriminate].
    apply step_outputs in E as [E1 E2].
    apply IH in H as [H1 H2]. rewrite H1, H2, E1, E2.
    cbn [map List.concat]. now rewrite <- !app_assoc.
Qed.

(** X11.  After a successful build with at least one fixture, the output the
    black-box runner keeps is the blocks of all the fixtures in their
    order, each headed by the fixture name, joined by blank lines; and the
    error message is the one the experiment came with, followed by one note
    for each fixture that exited with a code other than 0. *)
Theorem black_box_diagnostics setting w tag exp exp' :
  snd (_docker_run [] (build_timeout setting) (build w)) = 0%Z ->
  testcases w <> [] ->
  _run_black_box setting w tag exp = Ok exp' ->
  docker_output exp'
  = join (nl ++ nl) (map (fixture_block (run_timeout setting)) (testcases w))
  /\ error_message exp'
     = error_message exp
       ++ List.concat (map (failure_note (run_timeout setting)) (testcases w)).
Proof.
  intros Hb Ht. rewrite (run_black_box_unfold _ _ _ _ Hb Ht).
  destruct (for_each _ _ _) as [st|] eqn:E; cbn [bind]; [|discriminate].
  apply loop_outputs in E as [E1 E2].
  destruct (float_div_int _ _); cbn [bind]; [|discriminate].
  intros [= <-].
  cbn [docker_output error_message set_accuracy set_docker_output
       set_run_success].
  rewrite E1, E2. split; reflexivity.
Qed.

Lemma black_box_diagnostics_witness :
  exists exp',
    _run_black_box sample_setting three_fixtures image_tag
      (new_experiment [T "plan"]) = Ok exp'
    /\ docker_output exp'
       = join (nl ++ nl)
           (map (fixture_block (run_timeout sample_setting))
              (testcases three_fixtures)).
Proof.
  eexists. split; [vm_compute; reflexivity|].
  refine (proj1 (black_box_diagnostics sample_setting three_fixtures
                   image_tag (new_experiment [T "plan"]) _ _ _ _)).
  - reflexivity.
  - discriminate.
  - vm_compute. reflexivity.
Defined.

Lemma loop_build_flag rt tag tcs st st' :
  for_each (testcase_step rt tag) tcs st = Ok st' ->
  build_success (loop_exp st') = build_success (loop_exp st)
  /\ all_success st'
     = all_success st && negb (existsb (fixture_failed rt) tcs).
Proof.
  intros H. pose proof (loop_spec rt tag tcs st) as Hs.
  destruct (fixture_accuracies rt tcs).
  - destruct Hs as (st2 & Hr & _ & Ha & Hb & _).
    rewrite Hr in H. injection H as <-. auto.
  - congruence.
Qed.

Lemma build_flag_iff setting w tag exp exp' :
  _run_black_box setting w tag exp = Ok exp' ->
  (build_success exp' = true <-> exists so se, build w = Completed so se 0%Z).
Proof.
  unfold _run_black_box.
  destruct (build w) as [so se rc| |msg] eqn:Eb; cbn [_docker_run].
  - destruct (rc =? 0)%Z eqn:Erc; cbn [negb].
    + apply Z.eqb_eq in Erc. subst rc.
      destruct (testcases w) as [|tc tcs].
      * intros [= <-]. cbn. split; eauto.
      * destruct (for_each _ _ _) as [st|] eqn:E; cbn [bind];
          [|discriminate].
        apply loop_build_flag in E as [E _].
        destruct (float_div_int _ _); cbn [bind]; [|discriminate].
        intros [= <-].
        cbn [build_success set_accuracy set_docker_output set_run_success].
        rewrite E. cbn. split; eauto.
    + intros [= <-]. cbn [build_success set_docker_output set_error_message
                          set_build_success].
      split; [discriminate|]. intros (so' & se' & [= _ _ ->]).
      discriminate.
  - change (negb (1 =? 0)%Z) with true. cbv iota. intros [= <-].
    cbn [build_success set_docker_output set_error_message set_build_success].
    split; [discriminate|]. intros (? & ? & ?). discriminate.
  - change (negb (1 =? 0)%Z) with true. cbv iota. intros [= <-].
    cbn [build_success set_docker_output set_error_message set_build_success].
    split; [discriminate|]. intros (? & ? & ?). discriminate.
Qed.

(** X12.  The black-box runner sets the build flag exactly when the build
    command completed with exit code 0: a build that timed out or could
    not be launched, and one that exited with another code, give
    [build_success = false], whatever the fixtures are. *)
Theorem black_box_build_flag setting w tag exp exp' :
  _run_black_box setting w tag exp = Ok exp' ->
  (build_success exp' = true <-> exists so se, build w = Completed so se 0%Z).
Proof. exact (build_flag_iff setting w tag exp exp'). Qed.

Lemma black_box_build_flag_witness :
  exists exp',
    _run_black_box sample_setting slow_build image_tag
      (new_experiment [T "plan"]) = Ok exp'
    /\ (build_success exp' = true
        <-> exists so se, build slow_build = Completed so se 0%Z).
Proof.
  eexists. split; [vm_compute; reflexivity|].
  apply (black_box_build_flag sample_setting slow_build image_tag
           (new_experiment [T "plan"])).
  vm_compute. reflexivity.
Defined.

End RunnerExtras.

(** ** The runner and the judge together *)

Module PipelineExtras.

Import ReFacts FHERunner RunnerSpec ExtraSpec FHEEvaluator BlackBoxTheorems
  WhiteBoxTheorems RunnerExtras Samples.

Local Open Scope string_scope.
Local Open Scope list_scope.

Lemma no_failure_no_note rt tcs :
  existsb (fixture_failed rt) tcs = false ->
  List.concat (map (failure_note rt) tcs) = [].
Proof.
  induction tcs as [|tc tcs IH]; [reflexivity|].
  cbn [existsb map List.concat]. intros H.
  apply orb_false_elim in H as [H1 H2]. rewrite (IH H2), app_nil_r.
  unfold fixture_failed in H1. unfold failure_note.
  destruct (_docker_run [] rt (snd tc)) as [out rc]. cbn [snd] in H1.
  now destruct (rc =? 0)%Z.
Qed.

(** X13.  On an experiment that comes to the runner with no run flag, no
    accuracy and no error message, as the developer hands it over, the
    fields of the experiment the runner returns agree: a run flag means a
    build flag and an empty error message, and an accuracy means a build
    flag. *)
Theorem runner_flags_agree scen setting w tag exp exp' :
  run_success exp = false -> accuracy exp = None -> error_message exp = [] ->
  FHERunner.develop scen setting w tag exp = Ok exp' ->
  (run_success exp' = true ->
   build_success exp' = true /\ error_message exp' = [])
  /\ ((exists a, accuracy exp' = Some a) -> build_success exp' = true).
Proof.
  intros Hr Ha He. unfold FHERunner.develop.
  destruct (text_eqb _ _).
  - unfold _run_black_box.
    destruct (_docker_run _ _ (build w)) as [bo brc].
    destruct (brc =? 0)%Z; cbn [negb].
    + destruct (testcases w) as [|tc tcs] eqn:Et.
      * intros [= <-]. cbn. split; [discriminate|]. intros _. reflexivity.
      * rewrite <- Et.
        destruct (for_each _ _ _) as [st|] eqn:E; cbn [bind];
          [|discriminate].
        pose proof (loop_build_flag _ _ _ _ _ E) as [Eb Es].
        apply loop_outputs in E as [_ Ee].
        destruct (float_div_int _ _); cbn [bind]; [|discriminate].
        intros [= <-].
        cbn [build_success run_success error_message accuracy set_accuracy
             set_docker_output set_run_success].
        cbn [loop_exp build_success set_build_success] in Eb.
        cbn [loop_exp error_message set_build_success] in Ee.
        cbn [all_success andb] in Es.
        rewrite Eb. split; [|reflexivity].
        intros H. split; [reflexivity|].
        rewrite Ee, He, no_failure_no_note; [reflexivity|].
        rewrite Es in H. now destruct (existsb _ _).
    + intros [= <-]. cbn [build_success run_success error_message accuracy
                          set_docker_output set_error_message
                          set_build_success].
      rewrite Hr, Ha. split; [discriminate|]. intros [? ?]. discriminate.
  - unfold _run_white_box.
    destruct (_docker_run _ _ (validator w)) as [ro rrc].
    destruct (rrc =? 0)%Z; cbn [negb].
    + destruct (result_json w).
      * intros [= <-]. cbn. rewrite He. auto.
      * destruct (_parse_accuracy_from_output ro); cbn [bind];
          [|discriminate].
        intros [= <-]. cbn. rewrite He. auto.
    + destruct (existsb _ build_markers); intros [= <-];
        cbn [build_success run_success error_message accuracy
             set_docker_output set_error_message set_run_success
             set_build_success];
        rewrite Ha; (split; [discriminate|]); intros [? ?]; discriminate.
Qed.

Lemma runner_flags_agree_witness :
  exists exp',
    FHERunner.develop black_box_scenario sample_setting three_fixtures
      image_tag (new_experiment [T "plan"]) = Ok exp'
    /\ ((exists a, accuracy exp' = Some a) -> build_success exp' = true).
Proof.
  eexists. split; [vm_compute; reflexivity|].
  refine (proj2 (runner_flags_agree black_box_scenario sample_setting
                   three_fixtures image_tag (new_experiment [T "plan"])
                   _ _ _ _ _)).
  - reflexivity.
  - reflexivity.
  - reflexivity.
  - vm_compute. reflexivity.
Defined.

Lemma decision_true format_fixed threshold exp sota_exp :
  decision (generate_feedback format_fixed threshold exp sota_exp) = true ->
  build_success exp = true /\ run_success exp = true
  /\ exists a, accuracy exp = Some a /\ PrimFloat.leb threshold a = true.
Proof.
  unfold generate_feedback.
  destruct (build_success exp), (run_success exp), (accuracy exp) as [a|];
    cbn [negb decision]; try discriminate.
  intros H. repeat split. now exists a.
Qed.

(** X14.  On a black-box challenge the judge accepts the experiment the
    runner returns only if the build command completed with exit code 0,
    there is a fixture, every fixture exited with code 0, and the mean of
    the accuracies parsed from the fixtures is at least the threshold. *)
Theorem accepted_black_box scen setting w tag exp exp'
    format_fixed threshold sota_exp :
  challenge_type scen = T "black_box" ->
  FHERunner.develop scen setting w tag exp = Ok exp' ->
  decision (generate_feedback format_fixed threshold exp' sota_exp) = true ->
  (exists so se, build w = Completed so se 0%Z)
  /\ testcases w <> []
  /\ existsb (fixture_failed (run_timeout setting)) (testcases w) = false
  /\ exists accs mean,
       fixture_accuracies (run_timeout setting) (testcases w) = Ok accs
       /\ float_div_int (parsed_sum accs)
            (Z.of_nat (List.length (testcases w))) = Ok mean
       /\ PrimFloat.leb threshold mean = true.
Proof.
  intros Ht. unfold FHERunner.develop. rewrite Ht, text_eqb_refl.
  intros Hrun Hd.
  apply decision_true in Hd as (Hb & Hr & a & Ha & Hle).
  pose proof (proj1 (build_flag_iff _ _ _ _ _ Hrun) Hb)
    as (so & se & Eb).
  split; [eauto|].
  assert (Hrc : snd (_docker_run [] (build_timeout setting) (build w)) = 0%Z)
    by now rewrite Eb.
  destruct (testcases w) as [|tc tcs] eqn:Etc.
  - exfalso. unfold _run_black_box in Hrun. rewrite Eb, Etc in Hrun.
    cbn in Hrun. injection Hrun as <-. discriminate.
  - split; [discriminate|]. rewrite <- Etc in *.
    assert (Hne : testcases w <> []) by (rewrite Etc; discriminate).
    rewrite (run_black_box_unfold _ _ _ _ Hrc Hne) in Hrun.
    match type of Hrun with context [for_each _ _ ?s] =>
      pose proof (loop_spec (run_timeout setting) tag (testcases w) s) as H
    end.
    destruct (fixture_accuracies (run_timeout setting) (testcases w))
      as [accs|e].
    + destruct H as (st' & Hst & Hs & Hall & _). rewrite Hst in Hrun.
      cbn [bind] in Hrun. cbn [total_accuracy all_success andb] in Hs, Hall.
      fold (parsed_sum accs) in Hs. rewrite Hs in Hrun.
      destruct (float_div_int (parsed_sum accs) _) as [mean|] eqn:Ed;
        cbn [bind] in Hrun; [|discriminate].
      injection Hrun as <-.
      cbn [run_success accuracy set_accuracy set_docker_output
           set_run_success] in Hr, Ha.
      injection Ha as ->. split.
      * rewrite Hall in Hr. now destruct (existsb _ _).
      * exists accs, a. auto.
    + rewrite H in Hrun. discriminate.
Qed.

Lemma accepted_black_box_witness :
  existsb (fixture_failed (run_timeout sample_setting))
    (testcases scored_fixture) = false.
Proof.
  refine (proj1 (proj2 (proj2
    (accepted_black_box black_box_scenario sample_setting scored_fixture
       image_tag (new_experiment [T "plan"])
       (set_accuracy (Some ninety_two_percent)
          (set_docker_output (T "=== t1 ===" ++ nl ++ T "Accuracy: 0.92")
             (set_run_success true
                (set_build_success true (new_experiment [T "plan"])))))
       no_digits nine_tenths None _ _ _)))).
  - reflexivity.
  - vm_compute. reflexivity.
  - vm_compute. reflexivity.
Defined.

(** X15.  On a white-box challenge the judge accepts the experiment the
    runner returns only if the validator completed with exit code 0 and
    the accuracy read from the result artifact, or from the output when
    there is no readable artifact, is at least the threshold. *)
Theorem accepted_white_box scen setting w tag exp exp'
    format_fixed threshold sota_exp :
  challenge_type scen <> T "black_box" ->
  FHERunner.develop scen setting w tag exp = Ok exp' ->
  decision (generate_feedback format_fixed threshold exp' sota_exp) = true ->
  exists so se a,
    validator w = Completed so se 0%Z
    /\ match result_json w with
       | Some parsed => _parse_accuracy_white_box parsed = Some a
       | None => _parse_accuracy_from_output (so ++ se) = Ok (Some a)
       end
    /\ PrimFloat.leb threshold a = true.
Proof.
  intros Ht. unfold FHERunner.develop.
  destruct (text_eqb _ _) eqn:E; [apply text_eqb_eq in E; contradiction|].
  intros Hrun Hd.
  apply decision_true in Hd as (Hb & Hr & a & Ha & Hle).
  unfold _run_white_box in Hrun.
  destruct (validator w) as [so se rc| |msg]; cbn [_docker_run] in Hrun.
  - destruct (rc =? 0)%Z eqn:Erc; cbn [negb] in Hrun.
    + apply Z.eqb_eq in Erc. subst rc. exists so, se, a.
      split; [reflexivity|]. split; [|assumption].
      destruct (result_json w).
      * injection Hrun as <-. exact Ha.
      * destruct (_parse_accuracy_from_output _) as [oa|]; cbn [bind] in Hrun;
          [|discriminate].
        injection Hrun as <-. cbn in Ha. now rewrite Ha.
    + exfalso. destruct (existsb _ build_markers); injection Hrun as <-;
        discriminate.
  - exfalso. change (negb (1 =? 0)%Z) with true in Hrun. cbv iota in Hrun.
    destruct (existsb _ build_markers); injection Hrun as <-; discriminate.
  - exfalso. change (negb (1 =? 0)%Z) with true in Hrun. cbv iota in Hrun.
    destruct (existsb _ build_markers); injection Hrun as <-; discriminate.
Qed.

Lemma accepted_white_box_witness :
  exists so se a,
    validator validated = Completed so se 0%Z
    /\ match result_json validated with
       | Some parsed => _parse_accuracy_white_box parsed = Some a
       | None => _parse_accuracy_from_output (so ++ se) = Ok (Some a)
       end
    /\ PrimFloat.leb one_third a = true.
Proof.
  refine (accepted_white_box white_box_scenario sample_setting validated
            image_tag (new_experiment [T "plan"])
            (set_accuracy (Some two_thirds)
               (set_run_success true
                  (set_build_success true
                     (set_docker_output (T "done")
                        (new_experiment [T "plan"])))))
            no_digits one_third None _ _ _).
  - discriminate.
  - vm_compute. reflexivity.
  - vm_compute. reflexivity.
Defined.

(** *** The rationale of the judge *)

Lemma infix_app_r (a x b : text) : infix a b -> infix a (x ++ b).
Proof.
  intros (l & r & ->). exists (x ++ l), r. now rewrite <- app_assoc.
Qed.

Lemma infix_app_l (a b x : text) : infix a b -> infix a (b ++ x).
Proof.
  intros (l & r & ->). exists l, (r ++ x). now rewrite <- !app_assoc.
Qed.

Lemma skipn_infix_le (m n : nat) (s : text) :
  (n <= m)%nat -> infix (skipn m s) (skipn n s).
Proof.
  intros H. replace m with ((m - n) + n)%nat by lia.
  rewrite <- skipn_skipn. apply infix_skipn.
Qed.

Lemma tail_in_tail (s : text) :
  infix (slice_from (-1000) s) (slice_from (-2000) s).
Proof.
  unfold slice_from. change (-1000 <? 0)%Z with true.
  change (-2000 <? 0)%Z with true. cbv iota.
  apply skipn_infix_le. lia.
Qed.

(** X16.  Whatever its verdict, the rationale of the judge holds the last
    1000 characters of the Docker output of the experiment, all of the
    output when it is shorter. *)
Theorem rationale_keeps_output_tail format_fixed threshold exp sota_exp :
  infix (slice_from (-1000) (docker_output exp))
    (reason (generate_feedback format_fixed threshold exp sota_exp)).
Proof.
  unfold generate_feedback.
  destruct (build_success exp); cbn [negb].
  - destruct (run_success exp); cbn [negb].
    + destruct (accuracy exp) as [a|].
      * cbv zeta. cbn [reason].
        assert (H : forall pre, infix (slice_from (-1000) (docker_output exp))
                      (pre ++ slice_from (-2000) (docker_output exp)))
          by (intros pre; apply infix_app_r, tail_in_tail).
        destruct sota_exp as [sota|].
        -- destruct (accuracy sota).
           ++ rewrite !app_assoc. do 4 apply infix_app_l.
              rewrite <- !app_assoc. rewrite !app_assoc. apply H.
           ++ rewrite !app_assoc. apply H.
        -- rewrite !app_assoc. apply H.
      * cbn [reason]. do 5 apply infix_app_r. apply infix_refl.
    + cbn [reason]. do 10 apply infix_app_r. apply infix_refl.
  - cbn [reason]. do 10 apply infix_app_r. apply infix_refl.
Qed.

End PipelineExtras.

(** ** More on the white-box artifact *)

Module WhiteBoxExtras.

Import FHERunner RunnerSpec ExtraSpec WhiteBoxTheorems Samples.

Local Open Scope string_scope.
Local Open Scope list_scope.

Lemma get_object key d j :
  is_object j ->
  get key d j = Ok (match field key j with Some v => v | None => d end).
Proof.
  intros [fields ->]. unfold get, field.
  now destruct (find _ fields).
Qed.

Lemma at_key_object key f j : is_object j -> is_object (at_key key f j).
Proof. intros [fields ->]. eexists. reflexivity. Qed.

Lemma field_at_key_same key f j :
  field key (at_key key f j) = option_map f (field key j).
Proof.
  destruct j as [| | | | | |fields]; try reflexivity.
  unfold field, at_key. induction fields as [|kv fields IH]; [reflexivity|].
  cbn [map find]. destruct (text_eqb (fst kv) key) eqn:E.
  - cbn [fst]. rewrite E. reflexivity.
  - rewrite E. exact IH.
Qed.

Lemma field_at_key_other key key' f j :
  text_eqb key' key = false ->
  field key' (at_key key f j) = field key' j.
Proof.
  intros Hk. destruct j as [| | | | | |fields]; try reflexivity.
  unfold field, at_key. induction fields as [|kv fields IH]; [reflexivity|].
  cbn [map find]. destruct (text_eqb (fst kv) key) eqn:E.
  - cbn [fst]. destruct (text_eqb (fst kv) key') eqn:E'; [|exact IH].
    apply text_eqb_eq in E, E'. rewrite <- E, <- E', text_eqb_refl in Hk.
    discriminate.
  - destruct (text_eqb (fst kv) key'); [reflexivity | exact IH].
Qed.

Lemma field_object key j v : field key j = Some v -> is_object j.
Proof. destruct j; try discriminate. intros _. eexists. reflexivity. Qed.

Lemma for_each_map {A S} (body : S -> A -> result S) (f : A -> A) xs :
  (forall st x, body st (f x) = body st x) ->
  forall st, for_each body (map f xs) st = for_each body xs st.
Proof.
  intros Hf. induction xs as [|x xs IH]; intros st; [reflexivity|].
  cbn [map for_each]. rewrite Hf. destruct (body st x); cbn [bind]; auto.
Qed.

Lemma combine_paired {A} (xs ys : list A) :
  combine (firstn (Nat.min (List.length xs) (List.length ys)) xs)
    (firstn (Nat.min (List.length xs) (List.length ys)) ys)
  = combine xs ys.
Proof.
  rewrite <- combine_firstn, <- (length_combine xs ys). apply firstn_all.
Qed.

(** The loop over the slots of a run does not see the cut. *)
Lemma run_body_cut thresh st run :
  run_body thresh st (cut_run run) = run_body thresh st run.
Proof.
  unfold cut_run.
  destruct (field (T "result") run) as [[| | | | |rs|]|] eqn:Er;
    try reflexivity.
  destruct (field (T "expected_output") run) as [[| | | | |es|]|] eqn:Ee;
    try reflexivity.
  pose proof (field_object _ _ _ Er) as Ho. cbv zeta.
  set (n := Nat.min (List.length rs) (List.length es)).
  unfold run_body.
  rewrite !get_object by (repeat apply at_key_object; exact Ho).
  rewrite field_at_key_same.
  rewrite (field_at_key_other (T "result") (T "expected_output"))
    by reflexivity.
  rewrite (field_at_key_other (T "result") (T "error_threshold"))
    by reflexivity.
  rewrite (field_at_key_other (T "expected_output") (T "result"))
    by reflexivity.
  rewrite (field_at_key_other (T "expected_output") (T "error_threshold"))
    by reflexivity.
  rewrite field_at_key_same, Er, Ee. cbn [option_map bind].
  destruct (field (T "error_threshold") run); cbn [iterate bind];
    unfold n; now rewrite combine_paired.
Qed.

Lemma testcase_body_cut st testcase :
  testcase_body st (cut_testcase testcase) = testcase_body st testcase.
Proof.
  destruct testcase as [| | | | | |fields]; try reflexivity.
  assert (Ho : is_object (JObj fields)) by (eexists; reflexivity).
  unfold testcase_body, cut_testcase.
  rewrite !get_object by (try apply at_key_object; exact Ho).
  rewrite field_at_key_other by reflexivity.
  rewrite field_at_key_same. cbn [bind].
  destruct (field (T "runs") (JObj fields)) as [v|]; cbn [option_map];
    [|reflexivity].
  destruct v; try reflexivity. cbn [each iterate bind].
  apply for_each_map. intros st' x. apply run_body_cut.
Qed.

Lemma count_slots_cut data : count_slots (cut_artifact data) = count_slots data.
Proof.
  destruct data as [| | | | | |fields]; try reflexivity.
  assert (Ho : is_object (JObj fields)) by (eexists; reflexivity).
  unfold count_slots, cut_artifact.
  rewrite !get_object by (try apply at_key_object; exact Ho).
  rewrite field_at_key_same. cbn [bind].
  destruct (field (T "testcases") (JObj fields)) as [v|]; cbn [option_map];
    [|reflexivity].
  destruct v; try reflexivity. cbn [each iterate bind].
  rewrite for_each_map; [reflexivity|].
  intros st' x. apply testcase_body_cut.
Qed.

(** X17.  The white-box parser pairs the results of a run with its
    expected values and stops at the shorter list: whatever the parsed
    text is, it gets the same accuracy as the text in which the two lists
    of every run are cut to the length of the shorter one, so a slot with
    no partner counts neither as right nor as wrong. *)
Theorem unpaired_slots_ignored (data : json) :
  _parse_accuracy_white_box (Some (cut_artifact data))
  = _parse_accuracy_white_box (Some data).
Proof.
  unfold _parse_accuracy_white_box. now rewrite count_slots_cut.
Qed.

Lemma unpaired_slots_ignored_witness :
  cut_artifact long_run_artifact = cut_long_run_artifact
  /\ _parse_accuracy_white_box (Some long_run_artifact)
     = _parse_accuracy_white_box (Some cut_long_run_artifact)
  /\ _parse_accuracy_white_box (Some long_run_artifact) = Some two_thirds.
Proof.
  assert (Hc : cut_artifact long_run_artifact = cut_long_run_artifact)
    by reflexivity.
  split; [exact Hc|]. split.
  - rewrite <- Hc. symmetry. exact (unpaired_slots_ignored long_run_artifact).
  - vm_compute. reflexivity.
Defined.

End WhiteBoxExtras.

(** ** The scenario, the history and the feedback context *)

Module ScenarioExtras.

Import ReFacts FHERunner ExtraSpec FHEScenarioInit FHEExpGen FHECoderContext
  RunnerExtras Samples.

Local Open Scope string_scope.
Local Open Scope list_scope.

Lemma lang_lits_ci (w : string) m :
  lang (lits_ci w) m <-> lower m = lower (T w).
Proof.
  unfold lits_ci, T, lower. revert m.
  induction (list_ascii_of_string w) as [|a l IH]; intros m; cbn [map lang].
  - split; [now intros -> | now destruct m].
  - split.
    + intros (c & m' & -> & Hc & Hm). unfold is_char_ci in Hc.
      apply Ascii.eqb_eq in Hc. cbn [map]. rewrite Hc. f_equal.
      now apply IH.
    + destruct m as [|c m']; [discriminate|]. cbn [map]. intros [= Hc Hm].
      exists c, m'. split; [reflexivity|]. split; [|now apply IH].
      unfold is_char_ci. now apply Ascii.eqb_eq.
Qed.

Lemma lang_type_re m :
  lang type_re m <->
  exists h ws b,
    m = h ++ ws ++ b /\ lower h = T "challenge type:"
    /\ forallb is_space ws = true /\ lower b = T "black box".
Proof.
  unfold type_re. rewrite lang_app. split.
  - intros (h & m2 & -> & Hh & H2). cbn [app lang] in H2.
    destruct H2 as (ws & b & -> & Hws & Hb).
    apply lang_lits_ci in Hh. apply lang_lits_ci in Hb.
    exists h, ws, b. auto.
  - intros (h & ws & b & -> & Hh & Hws & Hb).
    exists h, (ws ++ b). split; [reflexivity|].
    split; [now apply lang_lits_ci|]. cbn [app lang].
    exists ws, b. split; [reflexivity|]. split; [assumption|].
    now apply lang_lits_ci.
Qed.

Lemma type_re_found md :
  search type_re md <> None <-> names_black_box md.
Proof.
  rewrite search_occurs by (vm_compute; reflexivity).
  unfold occurs, names_black_box. split.
  - intros (pre & m & post & -> & Hm).
    apply lang_type_re in Hm as (h & ws & b & -> & Hh & Hws & Hb).
    exists pre, h, ws, b, post. now rewrite <- !app_assoc.
  - intros (pre & h & ws & b & post & -> & Hh & Hws & Hb).
    exists pre, (h ++ ws ++ b), post. split; [now rewrite <- !app_assoc|].
    apply lang_type_re. exists h, ws, b. auto.
Qed.

(** X18.  The scenario takes a challenge for a black-box one exactly when
    its description holds "challenge type:" and then "black box", in any
    letter case, with nothing but white space between the two; every other
    description gives a white-box challenge. *)
Theorem detect_type_black_box challenge_md :
  (_detect_type challenge_md = T "black_box" <-> names_black_box challenge_md)
  /\ (_detect_type challenge_md = T "white_box"
      <-> ~ names_black_box challenge_md).
Proof.
  rewrite <- type_re_found. unfold _detect_type.
  destruct (search type_re challenge_md); split; split;
    try discriminate; try reflexivity.
  - intros H. exfalso. apply H. discriminate.
  - intros H. exfalso. now apply H.
  - intros _ H. now apply H.
Qed.

(** X19.  The runner follows the type the scenario detected: with a
    description that names a black-box challenge it builds the image and
    runs the fixtures, with every other description it runs the
    validator. *)
Theorem runner_follows_detected_type scen challenge_md setting w tag exp :
  challenge_type scen = _detect_type challenge_md ->
  (names_black_box challenge_md ->
   FHERunner.develop scen setting w tag exp
   = _run_black_box setting w tag exp)
  /\ (~ names_black_box challenge_md ->
      FHERunner.develop scen setting w tag exp = _run_white_box setting w exp).
Proof.
  intros Ht. unfold FHERunner.develop. rewrite Ht.
  rewrite <- type_re_found. unfold _detect_type.
  destruct (search type_re challenge_md); split; intros H.
  - reflexivity.
  - exfalso. apply H. discriminate.
  - exfalso. now apply H.
  - reflexivity.
Qed.

Lemma runner_follows_detected_type_witness :
  FHERunner.develop black_box_scenario sample_setting slow_build image_tag
    (new_experiment [T "plan"])
  = _run_black_box sample_setting slow_build image_tag
      (new_experiment [T "plan"]).
Proof.
  refine (proj1 (runner_follows_detected_type black_box_scenario
                   (T "# ReLU" ++ nl ++ T "CHALLENGE TYPE:  black box" ++ nl)
                   sample_setting slow_build image_tag
                   (new_experiment [T "plan"]) _) _).
  - vm_compute. reflexivity.
  - exists (T "# ReLU" ++ nl), (T "CHALLENGE TYPE:"), (T "  "),
      (T "black box"), nl.
    repeat split.
Defined.

(** *** The member names *)

Lemma Forall2_last {A B} (R : A -> B -> Prop) xs x ys d :
  Forall2 R (xs ++ [x]) ys -> R x (last ys d).
Proof.
  revert ys. induction xs as [|x0 xs IH]; intros ys H; cbn [app] in H.
  - inversion H as [|? y ? ys' Hxy Hrest]; subst.
    inversion Hrest; subst. exact Hxy.
  - inversion H as [|? y ? ys' Hxy Hrest]; subst.
    specialize (IH _ Hrest).
    destruct ys' as [|y' ys'']; [|exact IH].
    exfalso. destruct xs; inversion Hrest.
Qed.

Lemma member_group (type_name : string) suf segs r :
  exec (member_re type_name) suf = Some (segs, r) -> is_name (last_group segs).
Proof.
  intros H.
  assert (Hd : deterministic (member_re type_name) = true).
  { unfold member_re, lits.
    induction (list_ascii_of_string type_name) as [|a l IH];
      [vm_compute; reflexivity | exact IH]. }
  rewrite exec_run in H by assumption. apply run_segs in H.
  unfold member_re in H.
  change [Plus is_space; Plus is_word]
    with ([Plus is_space] ++ [Plus is_word]) in H.
  rewrite app_assoc in H.
  destruct (Forall2_last _ _ _ _ [] H) as [Hw Hn]. now split.
Qed.

Lemma member_search (type_name : string) header m :
  search (member_re type_name) header = Some m ->
  is_name (last_group (m_segs m)).
Proof.
  intros H. apply search_from_Some in H as (pre & suf & _ & _ & He & _).
  eapply member_group, He.
Qed.

Lemma findall_from_sound p s : forall skip segs,
  In segs (findall_from p skip s) -> exists suf r, exec p suf = Some (segs, r).
Proof.
  induction s as [|c s IH]; intros skip segs H; [contradiction|].
  cbn [findall_from] in H. destruct skip as [|k]; [|eauto].
  destruct (exec p (c :: s)) as [[sg r]|] eqn:E; [|eauto].
  destruct H as [<- | H]; eauto.
Qed.

Lemma last_In {A} (xs : list A) d : xs <> [] -> In (last xs d) xs.
Proof.
  induction xs as [|x xs IH]; [congruence|]. intros _.
  destruct xs as [|y ys]; [now left|].
  right. apply IH. discriminate.
Qed.

(** X20.  Every member name the scenario extracts from the header is a
    word: it is not empty and holds only letters, digits and underscores;
    and it is filed under one of the four keys "cc", "pk", "input" and
    "output". *)
Theorem variable_names_are_words template_files key name :
  In (key, name) (_extract_variable_names template_files) ->
  (name <> [] /\ forallb is_word name = true)
  /\ In key [T "cc"; T "pk"; T "input"; T "output"].
Proof.
  unfold _extract_variable_names.
  set (header := match lookup _ template_files with
                 | Some h => h
                 | None => []
                 end).
  intros H. apply in_app_or in H as [H | H].
  { destruct (search (member_re "CryptoContext<DCRTPoly>") header) as [m|] eqn:E;
      [|contradiction].
    destruct H as [[= <- <-] | []].
    split; [exact (member_search _ _ _ E) | now left]. }
  apply in_app_or in H as [H | H].
  { destruct (search (member_re "PublicKey<DCRTPoly>") header) as [m|] eqn:E;
      [|contradiction].
    destruct H as [[= <- <-] | []].
    split; [exact (member_search _ _ _ E) | right; now left]. }
  assert (Hall : forall v,
            In v (map last_group
                    (findall (member_re "Ciphertext<DCRTPoly>") header)) ->
            is_name v).
  { intros v Hv. apply in_map_iff in Hv as (segs & <- & Hs).
    apply findall_from_sound in Hs as (suf & r & He).
    eapply member_group, He. }
  destruct (map last_group _) as [|first rest]; [contradiction|].
  destruct H as [[= <- <-] | H].
  { split; [apply Hall; now left | right; right; now left]. }
  destruct rest as [|second rest']; [contradiction|].
  destruct H as [[= <- <-] | []].
  split; [|right; right; right; now left].
  apply Hall. right.
  exact (last_In (second :: rest') first ltac:(discriminate)).
Qed.

Lemma variable_names_are_words_witness :
  (T "m_out" <> [] /\ forallb is_word (T "m_out") = true)
  /\ In (T "output") [T "cc"; T "pk"; T "input"; T "output"].
Proof.
  apply (variable_names_are_words sample_header).
  vm_compute. right. right. right. left. reflexivity.
Defined.

(** *** The history shown to the research agent *)

Lemma last_n_app {A} (old recent : list A) :
  last_n (List.length recent) (old ++ recent) = recent.
Proof.
  unfold last_n. rewrite length_app.
  replace (List.length old + List.length recent - List.length recent)%nat
    with (List.length old + 0)%nat by lia.
  rewrite skipn_app, Nat.add_comm. cbn [Nat.add].
  rewrite skipn_all. replace (_ - _)%nat with 0%nat by lia. reflexivity.
Qed.

(** X21.  With three attempts or more in the trace, the history text shows
    the last three and nothing of the older ones but their number: the
    attempts are numbered by their place in the whole history. *)
Theorem history_shows_last_three (old : list attempt) a1 a2 a3 :
  _build_history (old ++ [a1; a2; a3])
  = join nl
      (attempt_lines (Z.of_nat (List.length old) + 1) a1
       ++ attempt_lines (Z.of_nat (List.length old) + 2) a2
       ++ attempt_lines (Z.of_nat (List.length old) + 3) a3).
Proof.
  unfold _build_history.
  destruct (old ++ [a1; a2; a3]) as [|x xs] eqn:E.
  - destruct old; discriminate.
  - rewrite <- E. change 3%nat with (List.length [a1; a2; a3]).
    rewrite last_n_app, length_app. cbn [history_lines List.length].
    rewrite app_nil_r. f_equal. f_equal; [f_equal; lia|].
    f_equal; f_equal; lia.
Qed.

(** *** The feedback shown to the developer *)

Lemma slice_to_length k (s : text) :
  (0 <= k)%Z -> (List.length (slice_to k s) <= Z.to_nat k)%nat.
Proof.
  intros Hk. unfold slice_to.
  replace (k <? 0)%Z with false by (symmetry; apply Z.ltb_ge; lia).
  apply firstn_le_length.
Qed.

Lemma slice_from_length k (s : text) :
  (k < 0)%Z -> (List.length (slice_from k s) <= Z.to_nat (- k))%nat.
Proof.
  intros Hk. unfold slice_from.
  replace (k <? 0)%Z with true by (symmetry; apply Z.ltb_lt; lia).
  rewrite length_skipn. lia.
Qed.

(** X22.  The feedback text the developer puts in its prompt has at most 825
    characters, whatever the sizes of the error message and of the Docker
    output of the experiment; and when there is an error message the text
    does not depend on the Docker output. *)
Theorem feedback_context_bounded (exp : FHEExperiment) :
  (List.length (_get_feedback_context exp) <= 825)%nat
  /\ (error_message exp <> [] ->
      forall output,
        _get_feedback_context (set_docker_output output exp)
        = _get_feedback_context exp).
Proof.
  unfold _get_feedback_context. split.
  - destruct (error_message exp) as [|c e] eqn:Ee.
    + destruct (docker_output exp) as [|c o] eqn:Eo.
      * vm_compute. lia.
      * rewrite !length_app.
        pose proof (slice_from_length (-500) (c :: o)) as H.
        change (List.length (T "Previous output (last 500 chars):")) with 33%nat.
        change (List.length nl) with 1%nat.
        change (Z.to_nat (- -500)) with 500%nat in H. lia.
    + rewrite !length_app.
      pose proof (slice_to_length 800 (c :: e)) as H.
      change (List.length (T "Previous attempt failed:")) with 24%nat.
      change (List.length nl) with 1%nat.
      change (Z.to_nat 800) with 800%nat in H. lia.
  - intros He output. cbn [error_message set_docker_output].
    destruct (error_message exp); [contradiction | reflexivity].
Qed.

End ScenarioExtras.

(** ** The answer of the language model *)

Module ExtractExtras.

Import ReFacts FHECoder FHECoderExtract ExtraSpec PatcherExtras RunnerExtras
  Samples.

Local Open Scope string_scope.
Local Open Scope list_scope.

(** *** The matcher *)

Lemma repeat_bt_inv cls k : forall s acc segs r,
  repeat_bt cls k acc s = Some (segs, r) ->
  exists w s' segs',
    s = w ++ s' /\ forallb cls w = true /\ k s' = Some (segs', r)
    /\ segs = (acc ++ w) :: segs'.
Proof.
  assert (Hseg : forall acc s segs r,
            seg acc (k s) = Some (segs, r) ->
            exists w s' segs',
              s = w ++ s' /\ forallb cls w = true /\ k s' = Some (segs', r)
              /\ segs = (acc ++ w) :: segs').
  { intros acc s segs r H. destruct (k s) as [[sg r']|] eqn:E; [|discriminate].
    injection H as <- <-. exists [], s, sg. now rewrite app_nil_r. }
  induction s as [|c s IH]; intros acc segs r H; cbn [repeat_bt] in H.
  - now apply Hseg.
  - destruct (cls c) eqn:Ec; [|now apply Hseg].
    destruct (repeat_bt cls k (acc ++ [c]) s) as [m|] eqn:E; [|now apply Hseg].
    injection H as ->. apply IH in E as (w & s' & sg & -> & Hw & Hk & ->).
    exists (c :: w), s', sg. cbn [forallb app]. rewrite Ec, Hw, <- app_assoc.
    auto.
Qed.

Lemma repeat_lazy_inv cls k : forall s acc segs r,
  repeat_lazy cls k acc s = Some (segs, r) ->
  exists w s' segs',
    s = w ++ s' /\ forallb cls w = true /\ k s' = Some (segs', r)
    /\ segs = (acc ++ w) :: segs'.
Proof.
  assert (Hseg : forall acc s segs r,
            seg acc (k s) = Some (segs, r) ->
            exists w s' segs',
              s = w ++ s' /\ forallb cls w = true /\ k s' = Some (segs', r)
              /\ segs = (acc ++ w) :: segs').
  { intros acc s segs r H. destruct (k s) as [[sg r']|] eqn:E; [|discriminate].
    injection H as <- <-. exists [], s, sg. now rewrite app_nil_r. }
  induction s as [|c s IH]; intros acc segs r H; cbn [repeat_lazy] in H.
  - destruct (seg acc (k [])) as [m|] eqn:E; [|discriminate].
    injection H as ->. now apply Hseg.
  - destruct (seg acc (k (c :: s))) as [m|] eqn:E.
    + injection H as ->. now apply Hseg.
    + destruct (cls c) eqn:Ec; [|discriminate].
      apply IH in H as (w & s' & sg & -> & Hw & Hk & ->).
      exists (c :: w), s', sg. cbn [forallb app]. rewrite Ec, Hw, <- app_assoc.
      auto.
Qed.

(** The greedy repetition takes all it can when the rest then matches. *)
Lemma repeat_bt_longest cls k : forall s acc segs r,
  k (drop_while cls s) = Some (segs, r) ->
  repeat_bt cls k acc s = Some ((acc ++ take_while cls s) :: segs, r).
Proof.
  induction s as [|c s IH]; intros acc segs r H;
    cbn [repeat_bt drop_while take_while] in *.
  - rewrite H. cbn [seg]. now rewrite app_nil_r.
  - destruct (cls c).
    + rewrite (IH _ _ _ H). now rewrite <- app_assoc.
    + rewrite H. cbn [seg]. now rewrite app_nil_r.
Qed.

(** The lazy repetition stops at the first place where the rest matches. *)
Lemma repeat_lazy_first cls k s segs r : forall g acc,
  (forall a b, g = a ++ b -> b <> [] -> k (b ++ s) = None) ->
  k s = Some (segs, r) ->
  forallb cls g = true ->
  repeat_lazy cls k acc (g ++ s) = Some ((acc ++ g) :: segs, r).
Proof.
  induction g as [|c g IH]; intros acc Hfail Hk Hg.
  - cbn [app]. rewrite app_nil_r.
    destruct s; cbn [repeat_lazy]; now rewrite Hk.
  - cbn [app repeat_lazy].
    pose proof (Hfail [] (c :: g) eq_refl ltac:(discriminate)) as H0.
    cbn [app] in H0. rewrite H0. cbn [seg].
    cbn [forallb] in Hg. apply andb_prop in Hg as [Hc Hg]. rewrite Hc.
    rewrite IH; [now rewrite <- app_assoc | | assumption | assumption].
    intros a b -> Hb. apply (Hfail (c :: a) b); [reflexivity | assumption].
Qed.

Lemma fexec_flits (w : string) q s segs r :
  fexec (flits w ++ q) s = Some (segs, r) ->
  exists s' segs',
    s = T w ++ s' /\ fexec q s' = Some (segs', r)
    /\ segs = map (fun c => [c]) (T w) ++ segs'.
Proof.
  unfold flits, T. revert s segs.
  induction (list_ascii_of_string w) as [|a l IH]; intros s segs H;
    cbn [map app] in *.
  - eauto.
  - cbn [fexec] in H. destruct s as [|c s]; [discriminate|].
    destruct (is_char a c) eqn:Ec; [|discriminate].
    apply Ascii.eqb_eq in Ec. subst c.
    destruct (fexec _ s) as [[sg r']|] eqn:E; [|discriminate].
    injection H as <- <-. apply IH in E as (s' & sg' & -> & Hq & ->). eauto.
Qed.

Lemma fexec_flits_app (w : string) q s' :
  fexec (flits w ++ q) (T w ++ s')
  = match fexec q s' with
    | Some (segs, r) => Some (map (fun c => [c]) (T w) ++ segs, r)
    | None => None
    end.
Proof.
  unfold flits, T.
  induction (list_ascii_of_string w) as [|a l IH]; cbn [map app].
  - now destruct (fexec q s') as [[? ?]|].
  - cbn [fexec]. unfold is_char at 1. rewrite Ascii.eqb_refl, IH.
    now destruct (fexec q s') as [[? ?]|].
Qed.

Lemma fexec_sound p : forall s segs r,
  fexec p s = Some (segs, r) -> s = List.concat segs ++ r.
Proof.
  induction p as [|it p IH]; intros s segs r H.
  - cbn in H. now injection H as <- <-.
  - destruct it as [cls|cls|cls]; cbn [fexec] in H.
    + destruct s as [|c s]; [discriminate|].
      destruct (cls c); [|discriminate].
      destruct (fexec p s) as [[sg r']|] eqn:E; [|discriminate].
      injection H as <- <-. cbn. f_equal. eauto.
    + apply repeat_bt_inv in H as (w & s' & sg & -> & _ & Hk & ->).
      cbn. rewrite <- app_assoc. f_equal. eauto.
    + apply repeat_lazy_inv in H as (w & s' & sg & -> & _ & Hk & ->).
      cbn. rewrite <- app_assoc. f_equal. eauto.
Qed.

Lemma fsearch_inv p : forall s segs,
  fsearch p s = Some segs ->
  exists pre suf r, s = pre ++ suf /\ fexec p suf = Some (segs, r).
Proof.
  induction s as [|c s IH]; intros segs H; cbn [fsearch] in H.
  - destruct (fexec p []) as [[sg r]|] eqn:E; [|discriminate].
    injection H as <-. exists [], [], r. auto.
  - destruct (fexec p (c :: s)) as [[sg r]|] eqn:E.
    + injection H as <-. exists [], (c :: s), r. auto.
    + apply IH in H as (pre & suf & r & -> & He).
      exists (c :: pre), suf, r. auto.
Qed.

Lemma fsearch_found p suf segs r : forall pre,
  fexec p suf = Some (segs, r) ->
  (forall p1 p2, pre = p1 ++ p2 -> p2 <> [] -> fexec p (p2 ++ suf) = None) ->
  fsearch p (pre ++ suf) = Some segs.
Proof.
  induction pre as [|c pre IH]; intros He Hn.
  - cbn [app]. destruct suf; cbn [fsearch]; now rewrite He.
  - cbn [app fsearch].
    pose proof (Hn [] (c :: pre) eq_refl ltac:(discriminate)) as H0.
    cbn [app] in H0. rewrite H0.
    apply IH; [assumption|]. intros p1 p2 -> Hp.
    apply (Hn (c :: p1) p2); [reflexivity | assumption].
Qed.

Lemma infix_nth_concat (segs : list text) i :
  infix (nth i segs []) (List.concat segs).
Proof.
  revert i. induction segs as [|sg segs IH]; intros i.
  - destruct i; exists [], []; reflexivity.
  - destruct i as [|i]; cbn [nth List.concat].
    + exists [], (List.concat segs). reflexivity.
    + destruct (IH i) as (l & r & E). exists (sg ++ l), r.
      now rewrite E, <- !app_assoc.
Qed.

Lemma fsearch_group p s segs i :
  fsearch p s = Some segs -> infix (strip (nth i segs [])) s.
Proof.
  intros H. apply fsearch_inv in H as (pre & suf & r & -> & He).
  apply fexec_sound in He. subst suf.
  eapply infix_trans; [apply infix_strip|].
  eapply infix_trans; [apply infix_nth_concat|].
  exists pre, r. reflexivity.
Qed.

Lemma fsearch_needs_fence language s segs :
  fsearch (fence_re language) s = Some segs -> infix (T "```") s.
Proof.
  intros H. apply fsearch_inv in H as (pre & suf & r & -> & He).
  unfold fence_re in He. apply fexec_flits in He as (s' & _ & -> & _).
  exists pre, s'. reflexivity.
Qed.

(** X23.  The code taken from the answer of the language model is a part of
    the answer, and it has no white space at its ends. *)
Theorem extracted_code_inside (response : text) :
  infix (_extract_cpp_code response) response
  /\ strip (_extract_cpp_code response) = _extract_cpp_code response.
Proof.
  unfold _extract_cpp_code.
  destruct (fsearch (fence_re "cpp") response) as [segs|] eqn:E1.
  - split; [eapply fsearch_group, E1 | apply strip_idem].
  - destruct (fsearch (fence_re "") response) as [segs|] eqn:E2.
    + cbv zeta. destruct (existsb _ fhe_keywords).
      * split; [eapply fsearch_group, E2 | apply strip_idem].
      * split; [exists [], response; reflexivity | reflexivity].
    + split; [exists [], response; reflexivity | reflexivity].
Qed.

(** X24.  From an answer with no fence of three backticks no code is taken,
    and the developer then raises CoderError and leaves the experiment as it
    was: it never patches the template with a text that was not fenced. *)
Theorem no_fence_no_code (response : text) :
  contains (T "```") response = false ->
  _extract_cpp_code response = []
  /\ forall loads dumps scen exp,
       exists msg,
         FHECoder.develop loads dumps scen exp response
         = Raises (CoderError msg) exp.
Proof.
  intros Hc.
  assert (He : _extract_cpp_code response = []).
  { unfold _extract_cpp_code.
    destruct (fsearch (fence_re "cpp") response) as [segs|] eqn:E1.
    - apply fsearch_needs_fence, contains_spec in E1. congruence.
    - destruct (fsearch (fence_re "") response) as [segs|] eqn:E2;
        [|reflexivity].
      apply fsearch_needs_fence, contains_spec in E2. congruence. }
  split; [exact He|]. intros loads dumps scen exp.
  unfold FHECoder.develop. rewrite He.
  destruct (sub_tasks exp); [eauto|].
  destruct (lookup _ _) as [[|c0 t0]|]; eauto.
Qed.

Lemma no_fence_no_code_witness :
  _extract_cpp_code (T "I would multiply the two ciphertexts.") = [].
Proof.
  apply (no_fence_no_code (T "I would multiply the two ciphertexts.")).
  reflexivity.
Defined.

(** *** The block between the fences *)

Lemma drop_while_app_stop p (a : text) c t :
  p c = false ->
  drop_while p (a ++ c :: t) = drop_while p a ++ c :: t
  /\ take_while p (a ++ c :: t) = take_while p a.
Proof.
  intros Hc. induction a as [|x a [IH1 IH2]]; cbn [app drop_while take_while].
  - now rewrite Hc.
  - destruct (p x); [now rewrite IH2 | auto].
Qed.

Lemma drop_while_nil p (b : text) :
  drop_while p b = [] -> forallb p b = true.
Proof.
  induction b as [|c b IH]; [reflexivity|]. cbn [drop_while forallb].
  destruct (p c); [exact IH | discriminate].
Qed.

Lemma drop_while_app_some p (b v : text) :
  drop_while p b <> [] -> drop_while p (b ++ v) = drop_while p b ++ v.
Proof.
  induction b as [|c b IH]; cbn [app drop_while]; [congruence|].
  destruct (p c); [exact IH | reflexivity].
Qed.

Lemma forallb_rev p (s : text) : forallb p (rev s) = forallb p s.
Proof.
  induction s as [|c s IH]; [reflexivity|]. cbn [rev forallb].
  rewrite forallb_app, IH. cbn [forallb]. rewrite andb_true_r.
  apply andb_comm.
Qed.

(** A text is white space, its stripped text, white space; and no end of
    the stripped text is white space only. *)
Lemma strip_split (s : text) :
  exists ws2,
    drop_while is_space s = strip s ++ ws2
    /\ forallb is_space ws2 = true
    /\ forall a b, strip s = a ++ b -> b <> [] -> drop_while is_space b <> [].
Proof.
  unfold strip. set (b1 := drop_while is_space s).
  exists (rev (take_while is_space (rev b1))). split; [|split].
  - rewrite <- rev_app_distr, take_drop_while. now rewrite rev_involutive.
  - rewrite forallb_rev. apply take_while_all.
  - intros a b E Hb Hd. apply drop_while_nil in Hd.
    destruct (drop_while is_space (rev b1)) as [|c t] eqn:Ed.
    + destruct a; destruct b; try discriminate. congruence.
    + pose proof (drop_while_head _ _ _ _ Ed) as Hc.
      apply (f_equal (@rev ascii)) in E.
      rewrite rev_involutive, rev_app_distr in E.
      rewrite <- forallb_rev in Hd.
      destruct (rev b) as [|x y] eqn:Er.
      * apply (f_equal (@rev ascii)) in Er. rewrite rev_involutive in Er.
        cbn in Er. congruence.
      * cbn [app] in E. injection E as -> _. cbn [forallb] in Hd.
        rewrite Hc in Hd. discriminate.
Qed.

Lemma starts_with_cut kw : forall s x,
  starts_with kw (s ++ x) = true -> (List.length kw <= List.length s)%nat ->
  starts_with kw s = true.
Proof.
  induction kw as [|k kw IH]; intros s x H Hl; [reflexivity|].
  destruct s as [|c s]; [cbn in Hl; lia|].
  cbn [app starts_with] in *. destruct (Ascii.eqb k c); [|discriminate].
  apply (IH s x H). cbn in Hl. lia.
Qed.

(** An occurrence of a word that starts before a copy of the word lies in
    the text before the copy and the copy without its last character. *)
Lemma early_occurrence (kw kw1 kw2 u x : text) :
  kw = kw1 ++ kw2 -> List.length kw2 = 1%nat -> u <> [] ->
  starts_with kw (u ++ kw ++ x) = true ->
  starts_with kw (u ++ kw1) = true.
Proof.
  intros -> Hl Hu H. rewrite <- app_assoc, app_assoc in H.
  apply starts_with_cut in H; [exact H|].
  rewrite !length_app, Hl. destruct u; [congruence|]. cbn. lia.
Qed.

Lemma closing_fence (ws2 post : text) :
  forallb is_space ws2 = true ->
  fexec (FStar is_space :: flits "```") (ws2 ++ fence ++ post)
  = Some ([ws2; T "`"; T "`"; T "`"], post).
Proof.
  intros Hw. cbn [fexec].
  assert (Hs : is_space "`" = false) by reflexivity.
  destruct (drop_while_app_stop is_space ws2 "`"%char (T "``" ++ post) Hs)
    as [Hd Ht].
  destruct (take_while_forall is_space ws2 Hw) as [Ht2 Hd2].
  rewrite Hd2 in Hd. rewrite Ht2 in Ht.
  change (fence ++ post) with ("`"%char :: T "``" ++ post).
  rewrite (repeat_bt_longest is_space (fexec (flits "```")) _ []
             [T "`"; T "`"; T "`"] post).
  - now rewrite Ht.
  - rewrite Hd. reflexivity.
Qed.

Lemma closing_fence_inv t segs r :
  fexec (FStar is_space :: flits "```") t = Some (segs, r) ->
  starts_with fence (drop_while is_space t) = true.
Proof.
  cbn [fexec]. intros H.
  apply repeat_bt_inv in H as (w & s' & sg & -> & Hw & Hk & _).
  rewrite <- (app_nil_r (flits "```")) in Hk.
  apply fexec_flits in Hk as (s'' & _ & -> & _).
  change (T "```" ++ s'') with ("`"%char :: T "``" ++ s'').
  destruct (drop_while_app_stop is_space w "`"%char (T "``" ++ s'') eq_refl)
    as [Hd _].
  rewrite Hd. destruct (take_while_forall _ _ Hw) as [_ ->]. reflexivity.
Qed.

Lemma forallb_any (s : text) : forallb any_char s = true.
Proof. induction s; [reflexivity | assumption]. Qed.

(** The three middle items on a body that is closed by the first fence
    after it. *)
Lemma fenced_body body post :
  contains fence (body ++ T "``") = false ->
  exists ws2,
    fexec ([FStar is_space; FLazy any_char; FStar is_space] ++ flits "```")
      (body ++ fence ++ post)
    = Some ([take_while is_space body; strip body; ws2;
             T "`"; T "`"; T "`"], post).
Proof.
  intros Hc. destruct (strip_split body) as (ws2 & Hd & Hw2 & Hend).
  exists ws2. cbn [app fexec].
  destruct (drop_while_app_stop is_space body "`"%char (T "``" ++ post)
              eq_refl) as [Hd1 Ht1].
  change (fence ++ post) with ("`"%char :: T "``" ++ post).
  rewrite (repeat_bt_longest is_space _ _ []
             [strip body; ws2; T "`"; T "`"; T "`"] post).
  - now rewrite Ht1.
  - rewrite Hd1, Hd, <- app_assoc.
    change ("`"%char :: T "``" ++ post) with (fence ++ post).
    apply (repeat_lazy_first any_char _ _ _ _ (strip body) []).
    + intros a b Eab Hb.
      match goal with
      | |- ?lhs = None => destruct lhs as [[sg r]|] eqn:E; [|reflexivity]
      end.
      exfalso.
      change (fexec (FStar is_space :: flits "```")
                (b ++ ws2 ++ fence ++ post) = Some (sg, r)) in E.
      apply closing_fence_inv in E.
      pose proof (Hend a b Eab Hb) as Hne.
      rewrite drop_while_app_some in E by assumption.
      rewrite app_assoc in E.
      apply (early_occurrence fence (T "``") (T "`")) in E;
        [|reflexivity | reflexivity
         | destruct (drop_while is_space b); [congruence | discriminate]].
      apply starts_with_spec in E as [r' E].
      assert (Hin : infix fence (body ++ T "``")).
      { destruct (drop_while_suffix is_space b) as [w' Hw'].
        exists (take_while is_space body ++ a ++ w'), r'.
        rewrite <- E, <- (take_drop_while is_space body) at 1.
        rewrite Hd, Eab, Hw' at 1. now rewrite <- !app_assoc. }
      apply contains_spec in Hin. congruence.
    + now apply closing_fence.
    + apply forallb_any.
Qed.

(** X25.  When the answer holds a fence with the word cpp and a later fence,
    the code taken from it is the text between the first such opening fence
    and the first fence after it, without the white space at its ends. *)
Theorem extract_fenced_code pre body post :
  contains (T "```cpp") (pre ++ T "```cp") = false ->
  contains fence (body ++ T "``") = false ->
  _extract_cpp_code (pre ++ T "```cpp" ++ body ++ fence ++ post)
  = strip body.
Proof.
  intros Hp Hb. unfold _extract_cpp_code.
  destruct (fenced_body body post Hb) as (ws2 & Hf).
  assert (He : fexec (fence_re "cpp") (T "```cpp" ++ body ++ fence ++ post)
               = Some (map (fun c => [c]) (T "```cpp")
                       ++ [take_while is_space body; strip body; ws2;
                           T "`"; T "`"; T "`"], post)).
  { unfold fence_re.
    change (T "```cpp" ++ body ++ fence ++ post)
      with (T "```" ++ T "cpp" ++ body ++ fence ++ post).
    rewrite !fexec_flits_app, Hf. reflexivity. }
  rewrite (fsearch_found _ _ _ _ pre He).
  - cbn [map T list_ascii_of_string app nth]. apply strip_idem.
  - intros p1 p2 -> Hp2.
    destruct (fexec _ (p2 ++ _)) as [[sg r]|] eqn:E; [|reflexivity].
    exfalso. unfold fence_re in E.
    apply fexec_flits in E as (s1 & sg1 & E1 & E & _).
    apply fexec_flits in E as (s2 & _ & -> & _).
    assert (Hs : starts_with (T "```cpp")
                   (p2 ++ T "```cpp" ++ body ++ fence ++ post) = true).
    { apply starts_with_spec. exists s2. rewrite E1. reflexivity. }
    apply (early_occurrence (T "```cpp") (T "```cp") (T "p")) in Hs;
      [|reflexivity | reflexivity | assumption].
    apply starts_with_spec in Hs as [r' Hs].
    assert (Hin : infix (T "```cpp") ((p1 ++ p2) ++ T "```cp")).
    { exists p1, r'. now rewrite <- Hs, <- !app_assoc. }
    apply contains_spec in Hin. congruence.
Qed.

Lemma extract_fenced_code_witness :
  _extract_cpp_code
    (T "Use `EvalMult`:" ++ nl ++ T "```cpp" ++ nl ++ T "  y = x;   "
     ++ nl ++ T "```" ++ nl ++ T "Done.")
  = T "y = x;".
Proof.
  exact (extract_fenced_code (T "Use `EvalMult`:" ++ nl)
           (nl ++ T "  y = x;   " ++ nl) (nl ++ T "Done.")
           eq_refl eq_refl).
Defined.

End ExtractExtras.

(** ** The accuracy of the white-box run *)

Module WhiteBoxAccuracy.

Import ReFacts FHERunner RunnerSpec ExtraSpec WhiteBoxTheorems RunnerExtras
  WhiteBoxExtras ExtractExtras Samples.

Local Open Scope string_scope.
Local Open Scope list_scope.
Local Open Scope Z_scope.

(** *** The loops over a result artifact *)

Lemma counted_nil st : counted (Ok st) st [].
Proof. left. split; [constructor | now rewrite bump_nil]. Qed.

Lemma counted_bind r st s1 (k : counters -> result counters) s2 :
  counted r st s1 ->
  (forall st', counted (k st') st' s2) ->
  counted (bind r k) st (s1 ++ s2).
Proof.
  intros [(F1 & ->) | (N1 & e & ->)] Hk; cbn [bind].
  - destruct (Hk (bump st s1)) as [(F2 & ->) | (N2 & e & ->)].
    + left. split; [now apply Forall_app | now rewrite bump_app].
    + right. split; [|eauto]. intros H. apply Forall_app in H. tauto.
  - right. split; [|eauto]. intros H. apply Forall_app in H. tauto.
Qed.

Lemma slot_counted thresh r e st :
  counted (slot_body (json_of_num thresh) st (json_of_num r, json_of_num e))
    st [(r, e, thresh)].
Proof.
  destruct st as [total cor]. unfold slot_body. cbn [fst snd].
  rewrite !float_of_json_num.
  destruct (float_of_num r) as [x|ex] eqn:Hx; cbn [bind].
  - destruct (float_of_num e) as [y|ey] eqn:Hy; cbn [bind].
    + left. split.
      * constructor; [|constructor]. split; eauto.
      * assert (Hw : float_le_json (PrimFloat.abs (PrimFloat.sub x y))
                       (json_of_num thresh) = Ok (correct (r, e, thresh))).
        { unfold correct, value. rewrite Hx, Hy. now destruct thresh. }
        rewrite Hw. cbn [bind]. f_equal.
        unfold bump. cbn [fst snd filter List.length].
        destruct (correct (r, e, thresh)); cbn [List.length]; f_equal; lia.
    + right. split; [|eauto]. intros H. inversion H as [|? ? Hin _]; subst.
      destruct Hin as [_ [y Hy']]. cbn in Hy'. congruence.
  - right. split; [|eauto]. intros H. inversion H as [|? ? Hin _]; subst.
    destruct Hin as [[x Hx'] _]. cbn in Hx'. congruence.
Qed.

Lemma slots_counted thresh pairs : forall st,
  counted
    (for_each (slot_body (json_of_num thresh))
       (map (fun p => (json_of_num (fst p), json_of_num (snd p))) pairs) st)
    st (map (fun re => (fst re, snd re, thresh)) pairs).
Proof.
  induction pairs as [|[r e] pairs IH]; intros st; cbn [map for_each].
  - apply counted_nil.
  - cbn [fst snd].
    change ((r, e, thresh) :: map (fun re => (fst re, snd re, thresh)) pairs)
      with ([(r, e, thresh)]
            ++ map (fun re => (fst re, snd re, thresh)) pairs).
    apply counted_bind; [apply slot_counted | exact IH].
Qed.

Lemma for_each_counted {A B} (body : counters -> A -> result counters)
    (R : A -> B -> Prop) (slots_in : B -> list slot) js xs :
  (forall st j x, R j x -> counted (body st j) st (slots_in x)) ->
  Forall2 R js xs ->
  forall st, counted (for_each body js st) st (flat_map slots_in xs).
Proof.
  intros Hb. induction 1 as [|j x js xs Hjx _ IH]; intros st;
    cbn [for_each flat_map].
  - apply counted_nil.
  - apply counted_bind; [now apply Hb | exact IH].
Qed.

Lemma numbers_at_get key j l :
  numbers_at key j l ->
  match field key j with Some v => v | None => JArr [] end
  = JArr (map json_of_num l).
Proof. now intros [-> | [-> ->]]. Qed.

Lemma run_counted (t : testcase_record) st j r :
  encodes_run j r ->
  counted (run_body (default_of t) st j) st (slots_of_run t r).
Proof.
  intros (Ho & Hres & Hexp & Hth). unfold run_body.
  rewrite !get_object by exact Ho.
  rewrite (numbers_at_get _ _ _ Hres), (numbers_at_get _ _ _ Hexp).
  unfold threshold_at in Hth. rewrite Hth. cbn [bind iterate].
  rewrite combine_map.
  replace (match option_map json_of_num (r_threshold r) with
           | Some v => v
           | None => default_of t
           end) with (json_of_num (threshold_of t r)).
  - apply slots_counted.
  - unfold threshold_of, default_of.
    destruct (r_threshold r); [reflexivity|]. now destruct (t_threshold t).
Qed.

Lemma testcase_counted st j (t : testcase_record) :
  encodes_testcase j t ->
  counted (testcase_body st j) st (flat_map (slots_of_run t) (t_runs t)).
Proof.
  intros (Ho & Hth & Hruns). unfold testcase_body.
  rewrite !get_object by exact Ho.
  unfold threshold_at in Hth. rewrite Hth. cbn [bind].
  replace (match option_map json_of_num (t_threshold t) with
           | Some v => v
           | None => JFloat default_threshold
           end) with (default_of t)
    by (unfold default_of; now destruct (t_threshold t)).
  destruct Hruns as [(runs & -> & Hf) | (-> & ->)]; cbn [iterate bind].
  - apply (for_each_counted _ encodes_run (slots_of_run t)); [|exact Hf].
    intros st' j' r' H. now apply run_counted.
  - apply counted_nil.
Qed.

Lemma artifact_counted data a :
  encodes data a ->
  exists tcs,
    (do tcs_v <- get (T "testcases") (JArr []) data; iterate tcs_v) = Ok tcs
    /\ counted (for_each testcase_body tcs (0, 0)) (0, 0) (slots_of a).
Proof.
  intros (Ho & Htcs). rewrite get_object by exact Ho.
  destruct Htcs as [(tcs & -> & Hf) | (-> & ->)]; cbn [bind iterate].
  - exists tcs. split; [reflexivity|].
    apply (for_each_counted _ encodes_testcase
             (fun t => flat_map (slots_of_run t) (t_runs t))); [|exact Hf].
    intros st j t H. now apply testcase_counted.
  - exists []. split; [reflexivity | apply counted_nil].
Qed.

Lemma parse_counted data a :
  encodes data a ->
  (Forall in_range (slots_of a) ->
   _parse_accuracy_white_box (Some data) = slot_accuracy a)
  /\ (~ Forall in_range (slots_of a) ->
      _parse_accuracy_white_box (Some data) = None).
Proof.
  intros He. destruct (artifact_counted _ _ He) as (tcs & Ht & Hc).
  unfold _parse_accuracy_white_box, count_slots.
  destruct (get (T "testcases") (JArr []) data) as [v|]; cbn [bind] in *;
    [|discriminate].
  rewrite Ht. cbn [bind].
  destruct Hc as [(F & ->) | (N & e & ->)]; cbn [bind];
    (split; [|try tauto]); try tauto.
  intros _. unfold slot_accuracy, bump. cbn [fst snd].
  destruct (slots_of a) as [|s slots] eqn:Es; [reflexivity|].
  replace (0 <? 0 + Z.of_nat (List.length (s :: slots))) with true
    by (symmetry; apply Z.ltb_lt; simpl; lia).
  rewrite !Z.add_0_l.
  now destruct (int_truediv _ _).
Qed.

Lemma field_first key v rest : field key (JObj ((key, v) :: rest)) = Some v.
Proof. unfold field. cbn [find fst snd]. now rewrite text_eqb_refl. Qed.

Lemma threshold_written (t : option num) fields :
  (forall kv, In kv fields ->
     text_eqb (fst kv) (T "error_threshold") = false) ->
  threshold_at (JObj (fields ++ threshold_field t)) t.
Proof.
  intros Hf. unfold threshold_at, field.
  induction fields as [|kv fields IH]; cbn [app find].
  - now destruct t.
  - rewrite (Hf kv (or_introl eq_refl)). apply IH.
    intros kv' H. apply Hf. now right.
Qed.

Lemma encodes_written_run r : encodes_run (json_of_run r) r.
Proof.
  unfold json_of_run. split; [eexists; reflexivity|].
  split; [left; apply field_first|].
  split; [left; reflexivity|].
  apply (threshold_written (r_threshold r) [_; _]).
  intros kv [<- | [<- | []]]; reflexivity.
Qed.

Lemma encodes_written_testcase t : encodes_testcase (json_of_testcase t) t.
Proof.
  unfold json_of_testcase. split; [eexists; reflexivity|]. split.
  - apply (threshold_written (t_threshold t) [_]).
    intros kv [<- | []]; reflexivity.
  - left. eexists. split; [apply field_first|].
    induction (t_runs t) as [|r rs IH]; constructor;
      [apply encodes_written_run | exact IH].
Qed.

Lemma encodes_written a : encodes (json_of_artifact a) a.
Proof.
  unfold json_of_artifact. split; [eexists; reflexivity|].
  left. eexists. split; [apply field_first|].
  induction a as [|t a IH]; constructor;
    [apply encodes_written_testcase | exact IH].
Qed.

(** *** The scan of the output *)

Lemma any_accuracy_re_deterministic : deterministic any_accuracy_re = true.
Proof. vm_compute. reflexivity. Qed.

Lemma run_lits (w : string) r :
  run (lits w) (T w ++ r) = Some (map (fun c => [c]) (T w), r).
Proof.
  unfold lits, T. induction (list_ascii_of_string w) as [|a l IH];
    cbn [map app run]; [reflexivity|].
  unfold is_char at 1. rewrite Ascii.eqb_refl, IH. reflexivity.
Qed.

Lemma run_lits_inv (w : string) q s segs r :
  run (lits w ++ q) s = Some (segs, r) -> exists s', s = T w ++ s'.
Proof.
  rewrite run_app. destruct (run (lits w) s) as [[sg r1]|] eqn:E;
    [|discriminate].
  intros _. apply run_sound in E as (-> & Hl & _).
  apply lang_lits in Hl. rewrite Hl. eauto.
Qed.

Lemma take_while_app_all p (w r : text) :
  forallb p w = true ->
  take_while p (w ++ r) = w ++ take_while p r
  /\ drop_while p (w ++ r) = drop_while p r.
Proof.
  induction w as [|c w IH]; cbn [app forallb take_while drop_while];
    [auto|].
  intros H. apply andb_prop in H as [Hc Hw]. rewrite Hc.
  destruct (IH Hw) as [-> ->]. auto.
Qed.

Lemma number_not_space c : digit_or_dot c = true -> is_space c = false.
Proof.
  intros H. apply digit_or_dot_cases in H as [H | ->]; [|reflexivity].
  unfold is_digit, between in H. apply andb_prop in H as [H1 H2].
  apply N.leb_le in H1. apply N.leb_le in H2.
  destruct c as [b0 b1 b2 b3 b4 b5 b6 b7].
  destruct b0, b1, b2, b3, b4, b5, b6, b7;
    try (vm_compute in H1; contradiction);
    try (vm_compute in H2; contradiction);
    reflexivity.
Qed.

Lemma decimal_parts_number g ip fp :
  decimal_parts g ip fp ->
  exists c g', g = c :: g' /\ forallb digit_or_dot (c :: g') = true.
Proof.
  intros (Hi & Hf & [(-> & -> & Hn) | (-> & Hne)]).
  - destruct ip as [|c ip']; [congruence|]. exists c, ip'.
    split; [reflexivity | now apply digits_are_plain].
  - assert (H : forallb digit_or_dot (ip ++ "."%char :: fp) = true).
    { rewrite forallb_app. cbn [forallb].
      now rewrite !digits_are_plain. }
    destruct (ip ++ "."%char :: fp) as [|c g'] eqn:E;
      [destruct ip; discriminate|].
    exists c, g'. auto.
Qed.

(** The match at an accuracy marker that is followed by white space and a
    number. *)
Lemma run_any_accuracy a ws c g' rest :
  a = "A"%char \/ a = "a"%char ->
  forallb is_space ws = true ->
  forallb digit_or_dot (c :: g') = true ->
  take_while digit_or_dot rest = [] ->
  run any_accuracy_re (a :: T "ccuracy:" ++ ws ++ (c :: g') ++ rest)
  = Some ([a] :: map (fun x => [x]) (T "ccuracy:") ++ [ws; c :: g'], rest).
Proof.
  intros Ha Hws Hg Hrest. unfold any_accuracy_re. cbn [run].
  replace (is_char "A" a || is_char "a" a)%bool with true
    by (destruct Ha as [-> | ->]; reflexivity).
  rewrite run_app, run_lits. cbn [run].
  cbn [forallb] in Hg. apply andb_prop in Hg as [Hc Hg'].
  pose proof (number_not_space c Hc) as Hsp.
  cbn [app].
  rewrite (take_while_stop is_space ws c (g' ++ rest) Hws Hsp).
  rewrite (drop_while_stop is_space ws c (g' ++ rest) Hws Hsp).
  rewrite Hc.
  destruct (take_while_app_all digit_or_dot g' rest Hg') as [-> ->].
  rewrite Hrest, app_nil_r.
  pose proof (take_drop_while digit_or_dot rest) as Hd.
  rewrite Hrest in Hd. cbn [app] in Hd. rewrite Hd. reflexivity.
Qed.

Lemma scan_finds_number pre a ws g rest ip fp :
  a = "A"%char \/ a = "a"%char ->
  contains (T "ccuracy:") (pre ++ a :: T "ccuracy") = false ->
  forallb is_space ws = true ->
  decimal_parts g ip fp ->
  take_while digit_or_dot rest = [] ->
  _parse_accuracy_from_output (pre ++ a :: T "ccuracy:" ++ ws ++ g ++ rest)
  = Ok (Some (plain_decimal_value ip fp)).
Proof.
  intros Ha Hpre Hws Hg Hrest.
  destruct (decimal_parts_number _ _ _ Hg) as (c & g' & Eg & Hall).
  unfold _parse_accuracy_from_output, search.
  rewrite (search_from_found any_accuracy_re pre
             (a :: T "ccuracy:" ++ ws ++ g ++ rest) 0
             ([a] :: map (fun x => [x]) (T "ccuracy:") ++ [ws; g]) rest).
  - unfold group_at. cbn [m_segs map T list_ascii_of_string app nth].
    now rewrite (float_of_decimal_parts _ _ _ Hg).
  - rewrite exec_run by exact any_accuracy_re_deterministic.
    rewrite Eg. now apply run_any_accuracy.
  - intros p1 p2 -> Hp2.
    rewrite exec_run by exact any_accuracy_re_deterministic.
    destruct (run any_accuracy_re _) as [[sg r]|] eqn:E; [|reflexivity].
    exfalso. destruct p2 as [|x p2]; [congruence|].
    unfold any_accuracy_re in E. cbn [app run] in E.
    destruct (is_char "A" x || is_char "a" x)%bool; [|discriminate].
    destruct (run (lits "ccuracy:" ++ _) _) as [[sg' r']|] eqn:E2;
      [|discriminate].
    apply run_lits_inv in E2 as [s' E2].
    assert (Hs : starts_with (T "ccuracy:")
                   ((p2 ++ [a]) ++ T "ccuracy:" ++ ws ++ g ++ rest) = true).
    { apply starts_with_spec. exists s'. rewrite <- E2.
      now rewrite <- app_assoc. }
    apply (early_occurrence (T "ccuracy:") (T "ccuracy") (T ":")) in Hs;
      [|reflexivity | reflexivity | destruct p2; discriminate].
    apply starts_with_spec in Hs as [r0 Hs].
    assert (Hin : infix (T "ccuracy:")
                    ((p1 ++ x :: p2) ++ a :: T "ccuracy")).
    { exists (p1 ++ [x]), r0. rewrite <- Hs, <- !app_assoc. reflexivity. }
    apply contains_spec in Hin. congruence.
Qed.

Lemma scan_finds_nothing output :
  contains (T "ccuracy:") output = false ->
  _parse_accuracy_from_output output = Ok None.
Proof.
  intros Hc. unfold _parse_accuracy_from_output.
  destruct (search any_accuracy_re output) as [m|] eqn:E; [|reflexivity].
  exfalso.
  apply search_match in E as ((pre & ->) & Hl & _);
    [|exact any_accuracy_re_deterministic].
  unfold any_accuracy_re in Hl. cbn [lang] in Hl.
  destruct Hl as (c & m' & Em & _ & Hl).
  apply lang_app in Hl as (m1 & m2 & -> & H1 & _).
  apply lang_lits in H1. subst m1.
  assert (Hin : infix (T "ccuracy:")
                  (pre ++ List.concat (m_segs m) ++ m_rest m)).
  { exists (pre ++ [c]), (m2 ++ m_rest m). rewrite Em.
    now rewrite <- !app_assoc. }
  apply contains_spec in Hin. congruence.
Qed.

Lemma white_box_after_exit_0 setting w exp stdout stderr :
  validator w = Completed stdout stderr 0 ->
  _run_white_box setting w exp
  = match result_json w with
    | Some parsed =>
        Ok (set_accuracy (_parse_accuracy_white_box parsed)
              (set_run_success true
                 (set_build_success true
                    (set_docker_output (stdout ++ stderr) exp))))
    | None =>
        do a <- _parse_accuracy_from_output (stdout ++ stderr);
        Ok (set_accuracy a
              (set_run_success true
                 (set_build_success true
                    (set_docker_output (stdout ++ stderr) exp))))
    end.
Proof.
  intros Hv. unfold _run_white_box. rewrite Hv. reflexivity.
Qed.

(** C4.  On every parsed result artifact, whatever the order of its keys
    and whatever other keys it holds, [_parse_accuracy_white_box] returns
    the accuracy the specification describes: a slot is a result paired
    with its expected value, it is correct when the absolute difference is
    at most the threshold of the run, else of the test case, else 0.01,
    and the accuracy is the correct slots divided by all slots, None when
    there is no slot.  It returns None when the artifact cannot be parsed:
    the text is not JSON, or anything in the traversal raises, as [float]
    does on an integer beyond its range.  When the validator exits with 0
    the runner takes the accuracy from the artifact if the file is there;
    if it is absent the runner scans the output (stdout, then stderr): at
    the first "ccuracy:", when it follows an "A" or an "a" and white space
    and a number follow it, the accuracy is that number; it is None when
    the output holds no "ccuracy:". *)
Theorem white_box_accuracy :
  (forall data a,
     encodes data a ->
     (Forall in_range (slots_of a) ->
      _parse_accuracy_white_box (Some data) = slot_accuracy a)
     /\ (~ Forall in_range (slots_of a) ->
         _parse_accuracy_white_box (Some data) = None))
  /\ (forall a : artifact, encodes (json_of_artifact a) a)
  /\ float_of_str (T "0.01") = Ok default_threshold
  /\ _parse_accuracy_white_box None = None
  /\ (forall data e,
        count_slots data = Raise e ->
        _parse_accuracy_white_box (Some data) = None)
  /\ (forall setting w exp stdout stderr parsed,
        validator w = Completed stdout stderr 0 ->
        result_json w = Some parsed ->
        exists exp',
          _run_white_box setting w exp = Ok exp'
          /\ accuracy exp' = _parse_accuracy_white_box parsed
          /\ build_success exp' = true /\ run_success exp' = true)
  /\ (forall setting w exp stdout stderr pre a ws g rest ip fp,
        validator w = Completed stdout stderr 0 ->
        result_json w = None ->
        stdout ++ stderr = pre ++ a :: T "ccuracy:" ++ ws ++ g ++ rest ->
        a = "A"%char \/ a = "a"%char ->
        contains (T "ccuracy:") (pre ++ a :: T "ccuracy") = false ->
        forallb is_space ws = true ->
        decimal_parts g ip fp ->
        take_while digit_or_dot rest = [] ->
        exists exp',
          _run_white_box setting w exp = Ok exp'
          /\ accuracy exp' = Some (plain_decimal_value ip fp)
          /\ build_success exp' = true /\ run_success exp' = true)
  /\ (forall setting w exp stdout stderr,
        validator w = Completed stdout stderr 0 ->
        result_json w = None ->
        contains (T "ccuracy:") (stdout ++ stderr) = false ->
        exists exp',
          _run_white_box setting w exp = Ok exp'
          /\ accuracy exp' = None
          /\ build_success exp' = true /\ run_success exp' = true).
Proof.
  split; [exact parse_counted|].
  split; [exact encodes_written|].
  split; [vm_compute; reflexivity|].
  split; [reflexivity|].
  split; [|split; [|split]].
  - intros data e H. unfold _parse_accuracy_white_box. now rewrite H.
  - intros setting w exp so se parsed Hv Hj.
    rewrite (white_box_after_exit_0 _ _ _ _ _ Hv), Hj.
    eexists. split; [reflexivity|]. repeat split.
  - intros setting w exp so se pre a ws g rest ip fp Hv Hj Eo Ha Hp Hws Hg Hr.
    rewrite (white_box_after_exit_0 _ _ _ _ _ Hv), Hj, Eo.
    rewrite (scan_finds_number _ _ _ _ _ _ _ Ha Hp Hws Hg Hr). cbn [bind].
    eexists. split; [reflexivity|]. repeat split.
  - intros setting w exp so se Hv Hj Hc.
    rewrite (white_box_after_exit_0 _ _ _ _ _ Hv), Hj.
    rewrite (scan_finds_nothing _ Hc). cbn [bind].
    eexists. split; [reflexivity|]. repeat split.
Qed.

Lemma white_box_accuracy_witness :
  _parse_accuracy_white_box (Some sample_artifact_rewritten)
  = Some two_thirds
  /\ exists exp',
       _run_white_box sample_setting validated_without_artifact
         (new_experiment [T "plan"]) = Ok exp'
       /\ accuracy exp' = Some ninety_two_percent.
Proof.
  destruct white_box_accuracy as (Hparse & _ & _ & _ & _ & _ & Hscan & _).
  split.
  - assert (He : encodes sample_artifact_rewritten sample_artifact).
    { split; [eexists; reflexivity|]. left. eexists.
      split; [reflexivity|]. constructor; [|constructor].
      split; [eexists; reflexivity|]. split; [reflexivity|].
      left. eexists. split; [reflexivity|]. constructor; [|constructor].
      split; [eexists; reflexivity|].
      split; [left; reflexivity|]. split; [left; reflexivity|].
      reflexivity. }
    rewrite (proj1 (Hparse _ _ He)); [vm_compute; reflexivity|].
    repeat constructor; vm_compute; eauto.
  - destruct (Hscan sample_setting validated_without_artifact
                (new_experiment [T "plan"])
                (T "Test accuracy: 0.92" ++ nl ++ T "done") []
                (T "Test ") "a"%char (T " ") (T "0.92") (nl ++ T "done")
                (T "0") (T "92"))
      as (exp' & Hr & Hacc & _).
    + reflexivity.
    + reflexivity.
    + reflexivity.
    + now right.
    + reflexivity.
    + reflexivity.
    + repeat split; try reflexivity. right.
      split; [reflexivity | discriminate].
    + reflexivity.
    + exists exp'. split; [exact Hr|]. rewrite Hacc. vm_compute. reflexivity.
Defined.

End WhiteBoxAccuracy.
